(** * Grover hash-cracking demo: index codec, circuit builders, result
      interpretation

    A shallow embedding of [QuantumHashCracker] (grover.py, groover1.py).
    Python [int] is [Z], Python [str] is [list ascii], Python [float] is an
    IEEE 754 binary64 number ([spec_float]), a raised exception is the
    [Raise] branch of [result]. *)

From Stdlib Require Import String Ascii ZArith Bool List Lia.
From Stdlib Require Import Reals Lra.
From Stdlib Require Import SpecFloat.
From Stdlib Require Import QArith Qreals.
From Stdlib Require Import Setoid Morphisms Permutation.
Import ListNotations.

Local Open Scope Z_scope.

(** ** Python values and exceptions *)

Inductive exn : Type :=
| ValueError
| IndexError
| ZeroDivisionError
| OverflowError
| CircuitError.

Inductive result (A : Type) : Type :=
| Ok (a : A)
| Raise (e : exn).

Arguments Ok {A} a.
Arguments Raise {A} e.

Definition bind {A B : Type} (r : result A) (k : A -> result B) : result B :=
  match r with
  | Ok a => k a
  | Raise e => Raise e
  end.

Notation "x <- r ;; k" := (bind r (fun x => k))
  (at level 61, r at next level, right associativity).

Definition str : Type := list ascii.

Definition py_len {A : Type} (s : list A) : Z := Z.of_nat (length s).

(** [s.index(c)]: position of the first occurrence, [ValueError] when absent. *)
Fixpoint str_index (s : str) (c : ascii) : result Z :=
  match s with
  | [] => Raise ValueError
  | x :: s' =>
      if Ascii.eqb x c then Ok 0
      else k <- str_index s' c ;; Ok (1 + k)
  end.

(** [s[i]]: negative positions count from the end, [IndexError] outside. *)
Definition str_getitem (s : str) (i : Z) : result ascii :=
  let j := if i <? 0 then py_len s + i else i in
  if j <? 0 then Raise IndexError
  else match nth_error s (Z.to_nat j) with
       | Some c => Ok c
       | None => Raise IndexError
       end.

(** [a % b] and [a // b] are floored in Python, as [Z.modulo] and [Z.div]
    are; only the zero divisor differs. *)
Definition py_mod (a b : Z) : result Z :=
  if b =? 0 then Raise ZeroDivisionError else Ok (a mod b).

Definition py_floordiv (a b : Z) : result Z :=
  if b =? 0 then Raise ZeroDivisionError else Ok (a / b).

Fixpoint str_eqb (s t : str) : bool :=
  match s, t with
  | [], [] => true
  | x :: s', y :: t' => Ascii.eqb x y && str_eqb s' t'
  | _, _ => false
  end.

(** ** IndexCodec: [text_to_index], [index_to_text] *)

Section Codec.

(** [self.charset] *)
Variable charset : str.

(** [calculate_search_space] *)
Definition calculate_search_space (length : nat) : Z :=
  py_len charset ^ Z.of_nat length.

(** The body of [for i, char in enumerate(reversed(text))]. *)
Fixpoint text_to_index_loop (base : Z) (chars : str) (i index : Z)
  : result Z :=
  match chars with
  | [] => Ok index
  | char :: rest =>
      k <- str_index charset char ;;
      text_to_index_loop base rest (i + 1) (index + k * base ^ i)
  end.

Definition text_to_index (text : str) : result Z :=
  text_to_index_loop (py_len charset) (rev text) 0 0.

(** The body of [for _ in range(length)]: append, then floor-divide. *)
Fixpoint index_to_text_loop (base : Z) (n : nat) (index : Z) (text : str)
  : result str :=
  match n with
  | O => Ok text
  | S n' =>
      d <- py_mod index base ;;
      c <- str_getitem charset d ;;
      index' <- py_floordiv index base ;;
      index_to_text_loop base n' index' (text ++ [c])
  end.

Definition index_to_text (index : Z) (length : nat) : result str :=
  text <- index_to_text_loop (py_len charset) length index [] ;;
  Ok (rev text).

(** ** Classical reference scan *)

(** [hashlib.md5(text.encode()).hexdigest()[:8]], an external digest. *)
Variable simple_hash : str -> str.

(** [itertools.product(pool, repeat=r)], as the library documents it:
    [result = [[]]], then for every pool
    [result = [x+[y] for x in result for y in pool]]. *)
Definition product_step (pool : str) (res : list str) : list str :=
  flat_map (fun x => map (fun y => x ++ [y]) pool) res.

Fixpoint product (pool : str) (repeat : nat) : list str :=
  match repeat with
  | O => [[]]
  | S r => product_step pool (product pool r)
  end.

(** The scan of [classical_bruteforce]: count, compare, stop at a match. *)
Fixpoint bruteforce_loop (target_hash : str) (combos : list str)
  (attempts : Z) : option str * Z :=
  match combos with
  | [] => (None, attempts)
  | candidate :: rest =>
      let attempts := attempts + 1 in
      if str_eqb (simple_hash candidate) target_hash
      then (Some candidate, attempts)
      else bruteforce_loop target_hash rest attempts
  end.

(** [classical_bruteforce], without the printing and the clock. *)
Definition classical_bruteforce (target_hash : str) (length : nat)
  : option str * Z :=
  bruteforce_loop target_hash (product charset length) 0.

End Codec.

(** [string.ascii_lowercase + string.ascii_uppercase + string.digits] *)
Definition full_charset : str :=
  String.list_ascii_of_string
    "abcdefghijklmnopqrstuvwxyzABCDEFGHIJKLMNOPQRSTUVWXYZ0123456789"%string.

Definition abcd : str := String.list_ascii_of_string "abcd"%string.

(** ** SearchSpaceModel: qubit count and iteration count

    [math.sqrt], the division and the product round to the nearest double,
    ties to even, as [SFsqrt], [SFdiv] and [SFmul] do.  The C library's
    [log2] is not fixed by IEEE 754 and is a parameter of the model. *)

(** A Python [float] is an IEEE 754 binary64 number: 53 bits of precision,
    exponents below 1024. *)
Definition double : Type := spec_float.
Definition mant_dig : Z := 53.
Definition max_exp : Z := 1024.

(** The double nearest to an integer, ties to even; an infinity when the
    integer is too large. *)
Definition double_of_Z (z : Z) : double :=
  binary_normalize mant_dig max_exp z 0 false.

(** An [int] passed where a float is expected: [OverflowError] when the
    nearest double is not finite. *)
Definition float_of_int (z : Z) : result double :=
  match double_of_Z z with
  | S754_infinity _ => Raise OverflowError
  | d => Ok d
  end.

(** [math.pi], the double [0x1.921fb54442d18p+1]. *)
Definition math_pi : double := S754_finite false 7074237752028440 (-51).

(** [math.sqrt(x)] on an [int]: the argument is converted first, a negative
    one is then a [ValueError]. *)
Definition math_sqrt (x : Z) : result double :=
  d <- float_of_int x ;;
  match SFsqrt mant_dig max_exp d with
  | S754_nan => Raise ValueError
  | r => Ok r
  end.

(** The integer part of a finite double, rounded toward zero and toward
    plus infinity. *)
Definition double_trunc (s : bool) (m : positive) (e : Z) : Z :=
  let a := if 0 <=? e then Zpos m * 2 ^ e else Zpos m / 2 ^ (- e) in
  if s then - a else a.

Definition double_ceil (s : bool) (m : positive) (e : Z) : Z :=
  if 0 <=? e then (if s then - (Zpos m * 2 ^ e) else Zpos m * 2 ^ e)
  else if s then - (Zpos m / 2 ^ (- e))
  else - ((- Zpos m) / 2 ^ (- e)).

(** [int(x)] on a float truncates toward zero. *)
Definition py_int_of_float (x : double) : result Z :=
  match x with
  | S754_zero _ => Ok 0
  | S754_infinity _ => Raise OverflowError
  | S754_nan => Raise ValueError
  | S754_finite s m e => Ok (double_trunc s m e)
  end.

(** [math.ceil(x)] on a float. *)
Definition math_ceil (x : double) : result Z :=
  match x with
  | S754_zero _ => Ok 0
  | S754_infinity _ => Raise OverflowError
  | S754_nan => Raise ValueError
  | S754_finite s m e => Ok (double_ceil s m e)
  end.

(** [math.log2(x)] on an [int].  The C library's [log2] on doubles is a
    parameter.  An [int] too large for a double is split into a fraction in
    [[0.5, 1)] and an exponent, and the logarithm is
    [log2(fraction) + log2(2.0) * exponent]. *)
Definition math_log2 (libm_log2 : double -> double) (x : Z) : result double :=
  if x <=? 0 then Raise ValueError
  else match double_of_Z x with
       | S754_infinity _ =>
           let e := Z.log2 x + 1 in
           let f := binary_normalize mant_dig max_exp x (- e) false in
           let '(f, e) :=
             if SFeqb f (double_of_Z 1)
             then (S754_finite false 4503599627370496 (-53), e + 1)
             else (f, e) in
           Ok (SFadd mant_dig max_exp (libm_log2 f)
                 (SFmul mant_dig max_exp (libm_log2 (double_of_Z 2))
                    (double_of_Z e)))
       | d => Ok (libm_log2 d)
       end.

(** [n_qubits = math.ceil(math.log2(search_space))] *)
Definition qubit_count (libm_log2 : double -> double) (search_space : Z)
  : result Z :=
  l <- math_log2 libm_log2 search_space ;; math_ceil l.

(** [optimal_iterations = max(1, int(math.pi / 4 * math.sqrt(search_space)))] *)
Definition iteration_count (search_space : Z) : result Z :=
  r <- math_sqrt search_space ;;
  k <- py_int_of_float
         (SFmul mant_dig max_exp
            (SFdiv mant_dig max_exp math_pi (double_of_Z 4)) r) ;;
  Ok (Z.max 1 k).

(** ** Gate sequences *)

(** The three operations the builders emit: [qc.x]/[qml.PauliX],
    [qc.h]/[qml.Hadamard], and [qc.mcx(controls, target)], which
    [qml.MultiControlledX] writes with the target as the last wire. *)
Inductive gate : Type :=
| PauliX (wire : nat)
| Hadamard (wire : nat)
| MultiControlledX (controls : list nat) (target : nat).

Definition circuit : Type := list gate.

(** Binary digits of a positive number, most significant first. *)
Fixpoint bin_pos (p : positive) : str :=
  match p with
  | xH => ["1"%char]
  | xO p' => bin_pos p' ++ ["0"%char]
  | xI p' => bin_pos p' ++ ["1"%char]
  end.

Definition zfill (width : nat) (s : str) : str :=
  repeat "0"%char (width - length s) ++ s.

(** [format(v, f'0{width}b')]: zero padded to [width], longer when [v]
    needs more digits, the sign counted in the width. *)
Definition format_0b (width : nat) (v : Z) : str :=
  match v with
  | Z0 => zfill width ["0"%char]
  | Zpos p => zfill width (bin_pos p)
  | Zneg p => "-"%char :: zfill (width - 1) (bin_pos p)
  end.

(** [for qubit, b in enumerate(bits): if b == '0': qc.x(qubit)] *)
Fixpoint x_where_zero (qubit : nat) (bits : str) : circuit :=
  match bits with
  | [] => []
  | b :: rest =>
      (if Ascii.eqb b "0"%char then [PauliX qubit] else [])
      ++ x_where_zero (S qubit) rest
  end.

(** [_oracle]: the gates it appends, in order.  Wires are natural numbers:
    with [n_qubits = 0] the source addresses qubit [-1], which no register
    has, and the model writes wire 0, which a register of no qubit has not
    either; [checked_circuit] below refuses both alike. *)
Definition _oracle (n_qubits : nat) (target_index : Z) : circuit :=
  let bits := format_0b n_qubits target_index in
  x_where_zero 0 bits
  ++ [Hadamard (n_qubits - 1)]
  ++ (if (1 <? n_qubits)%nat
      then [MultiControlledX (seq 0 (n_qubits - 1)) (n_qubits - 1)]
      else [])
  ++ [Hadamard (n_qubits - 1)]
  ++ x_where_zero 0 bits.

(** [_diffusion]: the gates it appends, in order. *)
Definition _diffusion (n_qubits : nat) : circuit :=
  flat_map (fun qubit => [Hadamard qubit; PauliX qubit]) (seq 0 n_qubits)
  ++ [Hadamard (n_qubits - 1)]
  ++ (if (1 <? n_qubits)%nat
      then [MultiControlledX (seq 0 (n_qubits - 1)) (n_qubits - 1)]
      else [])
  ++ [Hadamard (n_qubits - 1)]
  ++ flat_map (fun qubit => [PauliX qubit; Hadamard qubit]) (seq 0 n_qubits).

Fixpoint grover_iterations (n_qubits : nat) (target_index : Z)
  (iterations : nat) : circuit :=
  match iterations with
  | O => []
  | S k =>
      _oracle n_qubits target_index ++ _diffusion n_qubits
      ++ grover_iterations n_qubits target_index k
  end.

(** [create_grover_circuit]: the gates before the final measurement of
    every qubit. *)
Definition create_grover_circuit (n_qubits : nat) (target_index : Z)
  (iterations : nat) : circuit :=
  map Hadamard (seq 0 n_qubits)
  ++ grover_iterations n_qubits target_index iterations.

(** The layered sequence the specification describes for the diffusion
    operator: Hadamard on every qubit, the oracle for target index 0,
    Hadamard on every qubit. *)
Definition diffusion_layered (n_qubits : nat) : circuit :=
  map Hadamard (seq 0 n_qubits)
  ++ _oracle n_qubits 0
  ++ map Hadamard (seq 0 n_qubits).

(** ** State-vector meaning of the gates

    A basis state lists the value of every wire, wire 0 first; an amplitude
    is a complex number, kept as real and imaginary part. *)

Definition basis : Type := list bool.
Definition amp : Type := (R * R)%type.
Definition state : Type := basis -> amp.

Definition Cadd (a b : amp) : amp := (fst a + fst b, snd a + snd b)%R.
Definition Csub (a b : amp) : amp := (fst a - fst b, snd a - snd b)%R.
Definition Copp (a : amp) : amp := (- fst a, - snd a)%R.
Definition Cscale (r : R) (a : amp) : amp := (r * fst a, r * snd a)%R.

Definition bit (q : nat) (b : basis) : bool := nth q b false.

Fixpoint set_bit (q : nat) (v : bool) (b : basis) : basis :=
  match b, q with
  | [], _ => []
  | _ :: b', O => v :: b'
  | x :: b', S q' => x :: set_bit q' v b'
  end.

Definition flip_bit (q : nat) (b : basis) : basis :=
  set_bit q (negb (bit q b)) b.

(** The new amplitude of basis state [b] after one gate. *)
Definition apply_gate (g : gate) (psi : state) : state :=
  match g with
  | PauliX q => fun b => psi (flip_bit q b)
  | Hadamard q => fun b =>
      let a0 := psi (set_bit q false b) in
      let a1 := psi (set_bit q true b) in
      Cscale (/ sqrt 2) (if bit q b then Csub a0 a1 else Cadd a0 a1)
  | MultiControlledX controls target => fun b =>
      if forallb (fun c => bit c b) controls
      then psi (flip_bit target b)
      else psi b
  end.

Definition run (c : circuit) (psi : state) : state :=
  fold_left (fun s g => apply_gate g s) c psi.

(** The number of a basis state: the wires read as binary digits, wire 0
    the most significant, the order in which [format(target_index, '0nb')]
    is laid on the wires and in which the measured key is read back. *)
Definition basis_index (b : basis) : Z :=
  fold_left (fun acc (x : bool) => 2 * acc + (if x then 1 else 0)) b 0.

Definition is_one (c : ascii) : bool := Ascii.eqb c "1"%char.

(** The wires an X layer flips, and the layer's action on a basis state. *)
Definition flip_bits (qs : list nat) (b : basis) : basis :=
  fold_right flip_bit b qs.

Definition gate_wires (g : gate) : list nat :=
  match g with
  | PauliX q => [q]
  | Hadamard q => [q]
  | MultiControlledX controls target => controls ++ [target]
  end.

(** Every wire a circuit touches exists in a register of [n] qubits. *)
Definition wires_below (n : nat) (c : circuit) : bool :=
  forallb (fun g => forallb (fun q => (q <? n)%nat) (gate_wires g)) c.

(** ** ResultInterpreter *)

Definition counts : Type := list (str * Z).

(** The blanks [int] skips around a number: tab, line feed, vertical tab,
    form feed, carriage return, space, next line, no-break space. *)
Definition is_space (c : ascii) : bool :=
  existsb (Ascii.eqb c)
    ["009"; "010"; "011"; "012"; "013"; "032"; "133"; "160"]%char.

Fixpoint lstrip (s : str) : str :=
  match s with
  | c :: rest => if is_space c then lstrip rest else s
  | [] => []
  end.

Definition strip (s : str) : str := rev (lstrip (rev (lstrip s))).

Definition bit_value (c : ascii) : option Z :=
  if Ascii.eqb c "0"%char then Some 0
  else if Ascii.eqb c "1"%char then Some 1
  else None.

(** The digits after the first: one underscore may stand between two
    digits. *)
Fixpoint int_base2_loop (acc : Z) (s : str) : result Z :=
  match s with
  | [] => Ok acc
  | c :: rest =>
      match bit_value c with
      | Some v => int_base2_loop (2 * acc + v) rest
      | None =>
          if Ascii.eqb c "_"%char
          then match rest with
               | d :: rest' =>
                   match bit_value d with
                   | Some v => int_base2_loop (2 * acc + v) rest'
                   | None => Raise ValueError
                   end
               | [] => Raise ValueError
               end
          else Raise ValueError
      end
  end.

(** [int(s, 2)]: surrounding blanks are skipped, then come an optional
    sign, an optional [0b] or [0B] with an optional underscore after it,
    and the digits; anything else is [ValueError]. *)
Definition int_base2 (s : str) : result Z :=
  let s := strip s in
  let '(negative, s) :=
    match s with
    | c :: rest =>
        if Ascii.eqb c "+"%char then (false, rest)
        else if Ascii.eqb c "-"%char then (true, rest)
        else (false, s)
    | [] => (false, s)
    end in
  let s :=
    match s with
    | z :: b :: rest =>
        if Ascii.eqb z "0"%char
           && (Ascii.eqb b "b"%char || Ascii.eqb b "B"%char)
        then match rest with
             | u :: rest' => if Ascii.eqb u "_"%char then rest' else rest
             | [] => rest
             end
        else s
    | _ => s
    end in
  match s with
  | c :: rest =>
      match bit_value c with
      | Some v =>
          n <- int_base2_loop v rest ;; Ok (if negative then - n else n)
      | None => Raise ValueError
      end
  | [] => Raise ValueError
  end.

(** [max(items, key=lambda x: x[1])]: the first item whose count no later
    item exceeds. *)
Fixpoint max_item_from (best : str * Z) (items : counts) : str * Z :=
  match items with
  | [] => best
  | it :: rest =>
      max_item_from (if snd best <? snd it then it else best) rest
  end.

(** The tail of [quantum_search] after the counts are in: the tuple
    [(success, measured_text, counts)], the elapsed time left out. *)
Definition parse_result (charset : str) (cnts : counts) (target_index : Z)
  (length : nat) : result (bool * option str * counts) :=
  match cnts with
  | [] => Ok (false, None, [])
  | it :: rest =>
      let max_state := max_item_from it rest in
      measured_index <- int_base2 (fst max_state) ;;
      measured_text <- index_to_text charset measured_index length ;;
      Ok (measured_index =? target_index, Some measured_text, cnts)
  end.

Definition is_bitstring (s : str) : bool :=
  match s with
  | [] => false
  | _ => forallb (fun c => Ascii.eqb c "0"%char || Ascii.eqb c "1"%char) s
  end.

(** ** The cracker object and the search drivers *)

(** [self.backend] holds an [AerSimulator] object or the name of an IBM
    device; [self.service] holds the runtime service once configured. *)
Inductive backend_t : Type :=
| AerSimulator
| IBMBackend (name : str).

Inductive service_t : Type :=
| QiskitRuntimeService.

Record cracker : Type := mkCracker {
  charset : str;
  attempts : Z;
  quantum_iterations : Z;
  service : option service_t;
  backend : option backend_t
}.

Definition set_quantum_iterations (self : cracker) (v : Z) : cracker :=
  mkCracker (charset self) (attempts self) v (service self) (backend self).

Definition set_backend (self : cracker) (v : option backend_t) : cracker :=
  mkCracker (charset self) (attempts self) (quantum_iterations self)
    (service self) v.

(** What [quantum_search] returns: [(success, measured_text, counts)]. *)
Definition outcome : Type := (bool * option str * counts)%type.

(** [QuantumCircuit(n_qubits, n_qubits)] has the qubits [0 .. n_qubits - 1]
    and refuses a gate on any other with [CircuitError].  With no qubit at
    all the builders address qubit 0 or [n_qubits - 1], so every circuit
    with an iteration is refused. *)
Definition checked_circuit (n_qubits : nat) (qc : circuit) : result circuit :=
  if wires_below n_qubits qc then Ok qc else Raise CircuitError.

Definition no_result : outcome := (false, None, []).

Section Drivers.

(** The digest, the C library's [log2] and the two execution engines are
    external. *)
Variable simple_hash : str -> str.

Variable libm_log2 : double -> double.

(** Local run ([transpile], [backend.run], [get_counts]); a fault of the
    engine is raised to the caller. *)
Variable aer_run : circuit -> result counts.

(** Remote run, whose body sits in [try]/[except]: [None] when an
    exception was caught, otherwise the counts that were parsed. *)
Variable ibm_run : str -> circuit -> option counts.

(** The scan that recovers the target index for the oracle. *)
Fixpoint find_target (cs : str) (target_hash : str) (combos : list str)
  : result (option Z) :=
  match combos with
  | [] => Ok None
  | text :: rest =>
      if str_eqb (simple_hash text) target_hash
      then i <- text_to_index cs text ;; Ok (Some i)
      else find_target cs target_hash rest
  end.

Definition quantum_search (self : cracker) (target_hash : str)
  (length : nat) : result outcome * cracker :=
  let search_space := calculate_search_space (charset self) length in
  match qubit_count libm_log2 search_space with
  | Raise e => (Raise e, self)
  | Ok n_qubits =>
  match iteration_count search_space with
  | Raise e => (Raise e, self)
  | Ok optimal_iterations =>
  let self := set_quantum_iterations self optimal_iterations in
  match find_target (charset self) target_hash
          (product (charset self) length) with
  | Raise e => (Raise e, self)
  | Ok None => (Ok no_result, self)
  | Ok (Some target_index) =>
  match checked_circuit (Z.to_nat n_qubits)
          (create_grover_circuit (Z.to_nat n_qubits) target_index
             (Z.to_nat optimal_iterations)) with
  | Raise e => (Raise e, self)
  | Ok qc =>
  let self := match backend self with
              | None => set_backend self (Some AerSimulator)
              | Some _ => self
              end in
  match backend self with
  | Some (IBMBackend backend_name) =>
      match ibm_run backend_name qc with
      | None => (Ok no_result, self)
      | Some cnts =>
          (parse_result (charset self) cnts target_index length, self)
      end
  | _ =>
      match aer_run qc with
      | Raise e => (Raise e, self)
      | Ok cnts =>
          (parse_result (charset self) cnts target_index length, self)
      end
  end
  end
  end
  end
  end.

(** [quantum_search_aer]: the line after the call is reached only when
    the call returns. *)
Definition quantum_search_aer (self : cracker) (target_hash : str)
  (length : nat) : result outcome * cracker :=
  let old_backend := backend self in
  let self := set_backend self (Some AerSimulator) in
  match quantum_search self target_hash length with
  | (Ok res, self) => (Ok res, set_backend self old_backend)
  | (Raise e, self) => (Raise e, self)
  end.

Definition quantum_search_ibm (self : cracker) (target_hash : str)
  (length : nat) (backend_name : str) : result outcome * cracker :=
  match service self with
  | None => (Ok no_result, self)
  | Some _ =>
      let old_backend := backend self in
      let self := set_backend self (Some (IBMBackend backend_name)) in
      match quantum_search self target_hash length with
      | (Ok res, self) => (Ok res, set_backend self old_backend)
      | (Raise e, self) => (Raise e, self)
      end
  end.

End Drivers.

(** ** Reference functions used in the proofs *)

(** Position of a symbol, 0 when absent. *)
Definition pos (cs : str) (c : ascii) : Z :=
  match str_index cs c with
  | Ok k => k
  | Raise _ => 0
  end.

(** Value of a digit string given least significant symbol first. *)
Fixpoint lsb_val (cs : str) (chars : str) : Z :=
  match chars with
  | [] => 0
  | c :: rest => pos cs c + py_len cs * lsb_val cs rest
  end.

(** The [n] symbols of an index, least significant first. *)
Fixpoint lsb_chars (cs : str) (n : nat) (index : Z) : str :=
  match n with
  | O => []
  | S n' =>
      nth (Z.to_nat (index mod py_len cs)) cs "000"%char
      :: lsb_chars cs n' (index / py_len cs)
  end.

(** Wire values of the basis state that [format_0b] lays on the wires. *)
Definition target_basis (n : nat) (target_index : Z) : basis :=
  map is_one (format_0b n target_index).

(** The wires on which [x_where_zero] puts an X. *)
Fixpoint zero_wires (qubit : nat) (bits : str) : list nat :=
  match bits with
  | [] => []
  | b :: rest =>
      (if Ascii.eqb b "0"%char then [qubit] else [])
      ++ zero_wires (S qubit) rest
  end.

(** The X layer on a basis state: the wire under a ['0'] is negated. *)
Fixpoint mask_flip (bits : str) (b : basis) : basis :=
  match bits, b with
  | c :: bits', x :: b' =>
      (if Ascii.eqb c "0"%char then negb x else x) :: mask_flip bits' b'
  | _, _ => b
  end.

Definition is_digit01 (c : ascii) : bool :=
  Ascii.eqb c "0"%char || Ascii.eqb c "1"%char.

(** Two gates that may be exchanged. *)
Definition commute (g h : gate) : Prop :=
  forall psi b,
    apply_gate g (apply_gate h psi) b = apply_gate h (apply_gate g psi) b.

(** Decision of "no symbol occurs twice". *)
Fixpoint distinct (s : str) : bool :=
  match s with
  | [] => true
  | c :: rest => negb (existsb (Ascii.eqb c) rest) && distinct rest
  end.

(** Pointwise equality of state vectors. *)
Definition state_eq (psi phi : state) : Prop := forall b, psi b = phi b.

(** ** Sums of amplitudes and the Hadamard layer *)

Definition Czero : amp := (0%R, 0%R).

Definition Csum (l : list amp) : amp := fold_right Cadd Czero l.

(** All basis states of [n] wires, in the order of their numbers. *)
Fixpoint all_basis (n : nat) : list basis :=
  match n with
  | O => [[]]
  | S m => map (cons false) (all_basis m) ++ map (cons true) (all_basis m)
  end.

Definition amp_sum (n : nat) (psi : state) : amp :=
  Csum (map psi (all_basis n)).

(** The average amplitude over the [2^n] basis states. *)
Definition mean (n : nat) (psi : state) : amp :=
  Cscale (/ 2 ^ n) (amp_sum n psi).

Definition zeros (n : nat) : basis := repeat false n.

Definition sadd (psi phi : state) : state := fun b => Cadd (psi b) (phi b).
Definition ssub (psi phi : state) : state := fun b => Csub (psi b) (phi b).
Definition sscale (r : R) (psi : state) : state := fun b => Cscale r (psi b).

(** The part of a state vector in which wire 0 has the value [v]. *)
Definition slice (v : bool) (psi : state) : state := fun c => psi (v :: c).

(** Amplitude [a] on the all-zero state, nothing elsewhere. *)
Definition spike (a : amp) : state :=
  fun c => if basis_index c =? 0 then a else Czero.

(** Equality of state vectors on the basis states of [n] wires. *)
Definition state_eq_on (n : nat) (psi phi : state) : Prop :=
  forall b, length b = n -> psi b = phi b.

(** The register before the first gate: every wire 0. *)
Definition ket_zero : state := spike (1%R, 0%R).

(** Amplitude [a] on the basis state numbered [t], [b] on every other. *)
Definition two_level (t : Z) (a b : amp) : state :=
  fun c => if basis_index c =? t then a else b.

(** ** Backend selection *)

(** [select_backend]: the local simulator when asked for by name or when no
    service is configured, otherwise the device name. *)
Definition select_backend (self : cracker) (backend_name : str) : cracker :=
  if str_eqb backend_name (list_ascii_of_string "aer_simulator")
  then set_backend self (Some AerSimulator)
  else match service self with
       | Some _ => set_backend self (Some (IBMBackend backend_name))
       | None => set_backend self (Some AerSimulator)
       end.

(** ** Amplitudes along the Grover iterations *)

(** The angle whose sine is the uniform amplitude [1 / sqrt (2^n)]. *)
Definition grover_angle (n : nat) : R := asin ((/ sqrt 2) ^ n).

(** Amplitude of the target after [k] iterations, and of every other basis
    state; each iteration of the builders carries an overall sign. *)
Definition target_amp (n k : nat) : amp :=
  (((-1) ^ k * sin ((2 * INR k + 1) * grover_angle n))%R, 0%R).

Definition other_amp (n k : nat) : amp :=
  (((-1) ^ k * cos ((2 * INR k + 1) * grover_angle n)
    / sqrt (2 ^ n - 1))%R, 0%R).

(** ** Doubles as real numbers *)

(** The real number a finite double stands for. *)
Definition SF2R (x : double) : R :=
  match x with
  | S754_finite s m e =>
      if s then (- (IZR (Zpos m) * powerRZ 2 e))%R
      else (IZR (Zpos m) * powerRZ 2 e)%R
  | _ => 0%R
  end.

Definition is_finite (x : double) : bool :=
  match x with
  | S754_finite _ _ _ | S754_zero _ => true
  | _ => false
  end.

(** A [log2] on doubles that is exact on the powers of two and gives the
    integer part elsewhere; it stands for the C library's in the examples. *)
Definition log2_floor (x : double) : double :=
  match x with
  | S754_finite false m e => double_of_Z (Z.log2 (Zpos m) + e)
  | S754_zero _ => S754_infinity true
  | S754_infinity false => x
  | _ => S754_nan
  end.

(** ** Rational bounds on pi *)

(** Partial sums of the series for [PI / 4], as exact fractions. *)
Fixpoint qpow (q : Q) (n : nat) : Q :=
  match n with
  | O => 1%Q
  | S n' => (q * qpow q n')%Q
  end.

Definition pi_term (k : nat) : Q :=
  (qpow (-1 # 1) k
   * ((2 * qpow (1 # 3) (2 * k + 1) + qpow (1 # 7) (2 * k + 1))
      / inject_Z (Z.of_nat (2 * k + 1))))%Q.

Fixpoint pi_sum (n : nat) : Q :=
  match n with
  | O => pi_term 0
  | S n' => (pi_sum n' + pi_term (S n'))%Q
  end.

(** * Properties *)

(** ** Strings *)

Lemma py_len_nonneg {A : Type} (s : list A) : 0 <= py_len s.
Proof. unfold py_len; lia. Qed.

Lemma py_len_cons {A : Type} (x : A) (s : list A) :
  py_len (x :: s) = 1 + py_len s.
Proof. unfold py_len; simpl length; lia. Qed.

Lemma py_len_pos {A : Type} (s : list A) : s <> [] -> 0 < py_len s.
Proof. destruct s; [congruence | rewrite py_len_cons; pose proof (py_len_nonneg s); lia]. Qed.

Lemma str_eqb_eq (s t : str) : str_eqb s t = true <-> s = t.
Proof.
  revert t; induction s as [|x s IH]; intros [|y t]; simpl;
    try (split; congruence).
  rewrite andb_true_iff, Ascii.eqb_eq, IH.
  split; [intros [-> ->]; reflexivity | intros E; inversion E; auto].
Qed.

Lemma str_index_in (s : str) (c : ascii) :
  In c s ->
  exists k, str_index s c = Ok k /\ 0 <= k < py_len s
            /\ nth_error s (Z.to_nat k) = Some c.
Proof.
  induction s as [|x s IH]; simpl; [contradiction|]; intros Hin.
  destruct (Ascii.eqb x c) eqn:E.
  - apply Ascii.eqb_eq in E; subst x. exists 0.
    rewrite py_len_cons; pose proof (py_len_nonneg s).
    repeat split; lia.
  - destruct Hin as [->|Hin]; [rewrite Ascii.eqb_refl in E; discriminate|].
    destruct (IH Hin) as (k & -> & Hk & Hn). exists (1 + k); cbn [bind].
    rewrite py_len_cons. split; [reflexivity|]. split; [lia|].
    replace (Z.to_nat (1 + k)) with (S (Z.to_nat k)) by lia. exact Hn.
Qed.

Lemma str_index_nth (s : str) (k : nat) (d : ascii) :
  NoDup s -> (k < length s)%nat ->
  str_index s (nth k s d) = Ok (Z.of_nat k).
Proof.
  intros Hnd; revert k; induction Hnd as [|x s Hx Hnd IH]; intros k Hk;
    simpl in Hk; [lia|].
  destruct k as [|k]; cbn [str_index nth].
  - rewrite Ascii.eqb_refl; reflexivity.
  - destruct (Ascii.eqb x (nth k s d)) eqn:E.
    + apply Ascii.eqb_eq in E. exfalso; apply Hx; rewrite E.
      apply nth_In; lia.
    + rewrite IH by lia. cbn [bind]. f_equal; lia.
Qed.

Lemma str_getitem_nth (s : str) (k : Z) (d : ascii) :
  0 <= k < py_len s -> str_getitem s k = Ok (nth (Z.to_nat k) s d).
Proof.
  intros Hk; unfold str_getitem.
  destruct (k <? 0) eqn:E; [apply Z.ltb_lt in E; lia|]. rewrite E.
  destruct (nth_error s (Z.to_nat k)) eqn:En.
  - f_equal; symmetry; apply nth_error_nth; exact En.
  - apply nth_error_None in En. unfold py_len in Hk; lia.
Qed.

(** ** The codec against its positional reading *)

Section CodecFacts.

Variable cs : str.

Lemma pos_in (c : ascii) :
  In c cs ->
  str_index cs c = Ok (pos cs c) /\ 0 <= pos cs c < py_len cs
  /\ nth (Z.to_nat (pos cs c)) cs "000"%char = c.
Proof.
  intros Hin; unfold pos.
  destruct (str_index_in cs c Hin) as (k & -> & Hk & Hn).
  repeat split; try lia. apply nth_error_nth; exact Hn.
Qed.

Lemma pos_nth (k : nat) :
  NoDup cs -> (k < length cs)%nat ->
  pos cs (nth k cs "000"%char) = Z.of_nat k.
Proof. intros Hnd Hk; unfold pos; rewrite str_index_nth; auto. Qed.

Lemma text_to_index_loop_spec (chars : str) :
  Forall (fun c => In c cs) chars ->
  forall i index, 0 <= i ->
  text_to_index_loop cs (py_len cs) chars i index
  = Ok (index + py_len cs ^ i * lsb_val cs chars).
Proof.
  induction 1 as [|c rest Hc Hrest IH]; intros i index Hi; simpl.
  - f_equal; lia.
  - destruct (pos_in c Hc) as (-> & _ & _); simpl.
    rewrite IH by lia. f_equal.
    rewrite Z.pow_add_r, Z.pow_1_r by lia. ring.
Qed.

Lemma text_to_index_spec (text : str) :
  Forall (fun c => In c cs) text ->
  text_to_index cs text = Ok (lsb_val cs (rev text)).
Proof.
  intros Hall; unfold text_to_index.
  rewrite text_to_index_loop_spec; [f_equal; rewrite Z.pow_0_r; lia | | lia].
  apply Forall_rev; exact Hall.
Qed.

Lemma index_to_text_loop_spec (n : nat) :
  cs <> [] ->
  forall index text,
  index_to_text_loop cs (py_len cs) n index text
  = Ok (text ++ lsb_chars cs n index).
Proof.
  intros Hne; pose proof (py_len_pos cs Hne) as HB.
  induction n as [|n IH]; intros index text; simpl.
  - rewrite app_nil_r; reflexivity.
  - unfold py_mod, py_floordiv.
    destruct (py_len cs =? 0) eqn:E; [apply Z.eqb_eq in E; lia|]; simpl.
    rewrite (str_getitem_nth cs _ "000"%char)
      by (apply Z.mod_pos_bound; lia).
    simpl. rewrite IH, <- app_assoc. reflexivity.
Qed.

Lemma index_to_text_spec (index : Z) (n : nat) :
  cs <> [] -> index_to_text cs index n = Ok (rev (lsb_chars cs n index)).
Proof.
  intros Hne; unfold index_to_text.
  rewrite index_to_text_loop_spec by assumption. reflexivity.
Qed.

Lemma lsb_chars_length (n : nat) (index : Z) :
  length (lsb_chars cs n index) = n.
Proof. revert index; induction n; intros; simpl; auto. Qed.

Lemma lsb_chars_in (n : nat) :
  cs <> [] -> forall index, Forall (fun c => In c cs) (lsb_chars cs n index).
Proof.
  intros Hne; pose proof (py_len_pos cs Hne) as HB.
  induction n as [|n IH]; intros index; simpl; constructor; [|apply IH].
  apply nth_In.
  pose proof (Z.mod_pos_bound index (py_len cs) HB). unfold py_len in *; lia.
Qed.

Lemma lsb_chars_val (chars : str) :
  Forall (fun c => In c cs) chars ->
  lsb_chars cs (length chars) (lsb_val cs chars) = chars.
Proof.
  induction 1 as [|c rest Hc Hrest IH]; simpl; [reflexivity|].
  destruct (pos_in c Hc) as (_ & Hb & Hn).
  rewrite (Z.mul_comm (py_len cs)), Z.mod_add, Z.div_add by lia.
  rewrite Z.mod_small, Z.div_small, Z.add_0_l by lia.
  rewrite Hn, IH. reflexivity.
Qed.

Lemma lsb_val_chars (n : nat) :
  NoDup cs ->
  forall index, 0 <= index < py_len cs ^ Z.of_nat n ->
  lsb_val cs (lsb_chars cs n index) = index.
Proof.
  intros Hnd; induction n as [|n IH]; intros index Hi.
  - simpl in *. lia.
  - assert (HB : 0 < py_len cs).
    { pose proof (py_len_nonneg cs).
      destruct (Z.eq_dec (py_len cs) 0) as [E|]; [|lia].
      rewrite E, Z.pow_0_l in Hi by lia. lia. }
    simpl. pose proof (Z.mod_pos_bound index (py_len cs) HB) as Hm.
    rewrite pos_nth by (auto; unfold py_len in *; lia).
    rewrite Z2Nat.id by lia. rewrite IH.
    + rewrite Z.add_comm. symmetry; apply Z.div_mod; lia.
    + rewrite Nat2Z.inj_succ, Z.pow_succ_r in Hi by lia. split.
      * apply Z.div_pos; lia.
      * apply Z.div_lt_upper_bound; lia.
Qed.

Lemma lsb_chars_mod (n : nat) :
  cs <> [] ->
  forall index,
  lsb_chars cs n (index mod py_len cs ^ Z.of_nat n) = lsb_chars cs n index.
Proof.
  intros Hne; pose proof (py_len_pos cs Hne) as HB.
  induction n as [|n IH]; intros index; [reflexivity|].
  assert (HP : 0 < py_len cs ^ Z.of_nat n) by (apply Z.pow_pos_nonneg; lia).
  rewrite Nat2Z.inj_succ, Z.pow_succ_r by lia. simpl.
  rewrite Z.rem_mul_r by lia.
  rewrite (Z.mul_comm (py_len cs)), Z.mod_add, Z.mod_mod by lia.
  rewrite Z.div_add, Z.mod_div, Z.add_0_l by lia.
  rewrite IH. reflexivity.
Qed.

End CodecFacts.

(** ** Enumeration order of [itertools.product] *)

Lemma map_flat_map {A B C : Type} (f : B -> C) (g : A -> list B) (l : list A) :
  map f (flat_map g l) = flat_map (fun x => map f (g x)) l.
Proof.
  induction l as [|x l IH]; simpl; [reflexivity|].
  rewrite map_app, IH; reflexivity.
Qed.

Lemma flat_map_grid {A : Type} (P : ascii -> Z) (E : A -> Z) (B : Z)
  (pool : str) (l : list A) :
  flat_map (fun x => map (fun y => P y + B * E x) pool) l
  = flat_map (fun e => map (fun p => p + B * e) (map P pool)) (map E l).
Proof.
  induction l as [|x l IH]; simpl; [reflexivity|].
  rewrite IH, map_map; reflexivity.
Qed.

Lemma map_shift_seq (n s a : nat) :
  map (fun j => Z.of_nat j + Z.of_nat a) (seq s n)
  = map Z.of_nat (seq (s + a) n).
Proof.
  revert s; induction n as [|n IH]; intros s; simpl; [reflexivity|].
  f_equal; [lia | apply (IH (S s))].
Qed.

Lemma grid_is_seq (n M : nat) :
  flat_map (fun e => map (fun p => p + Z.of_nat n * e)
                       (map Z.of_nat (seq 0 n)))
           (map Z.of_nat (seq 0 M))
  = map Z.of_nat (seq 0 (M * n)).
Proof.
  induction M as [|M IH]; [reflexivity|].
  rewrite seq_S, map_app, flat_map_app, IH; simpl flat_map.
  rewrite app_nil_r, map_map.
  replace (S M * n)%nat with (M * n + n)%nat by lia.
  rewrite seq_app, map_app; f_equal.
  rewrite <- (map_shift_seq n 0 (M * n)). apply map_ext; intros j. lia.
Qed.

Section Enumeration.

Variable cs : str.
Hypothesis cs_nodup : NoDup cs.

Lemma map_pos_seq : map (pos cs) cs = map Z.of_nat (seq 0 (length cs)).
Proof.
  apply (nth_ext _ _ (pos cs "000"%char) (Z.of_nat 0)).
  - rewrite !length_map, length_seq; reflexivity.
  - intros k Hk; rewrite length_map in Hk.
    rewrite !map_nth, seq_nth by assumption.
    apply pos_nth; assumption.
Qed.

Lemma product_valid (r : nat) :
  Forall (Forall (fun c => In c cs)) (product cs r).
Proof.
  induction r as [|r IH]; simpl; [repeat constructor|].
  unfold product_step. apply Forall_forall; intros s Hs.
  apply in_flat_map in Hs; destruct Hs as (x & Hx & Hs).
  apply in_map_iff in Hs; destruct Hs as (y & <- & Hy).
  apply Forall_app; split.
  - rewrite Forall_forall in IH; apply IH; exact Hx.
  - repeat constructor; exact Hy.
Qed.

Lemma product_values (r : nat) :
  map (fun s => lsb_val cs (rev s)) (product cs r)
  = map Z.of_nat (seq 0 (length cs ^ r)).
Proof.
  induction r as [|r IH]; [reflexivity|].
  cbn [product]; unfold product_step. rewrite map_flat_map.
  erewrite flat_map_ext.
  2:{ intros x. rewrite map_map. apply map_ext; intros y.
      rewrite rev_unit; cbn [lsb_val]. reflexivity. }
  rewrite (flat_map_grid (pos cs) (fun x => lsb_val cs (rev x))).
  rewrite IH, map_pos_seq. unfold py_len. rewrite grid_is_seq.
  do 2 f_equal. simpl; lia.
Qed.

Lemma product_nth (r k : nat) (s : str) :
  nth_error (product cs r) k = Some s ->
  text_to_index cs s = Ok (Z.of_nat k).
Proof.
  intros Hk.
  assert (Hs : Forall (fun c => In c cs) s).
  { pose proof (product_valid r) as Hv. rewrite Forall_forall in Hv.
    apply Hv; eapply nth_error_In; exact Hk. }
  rewrite text_to_index_spec by exact Hs. f_equal.
  pose proof (map_nth_error (fun s => lsb_val cs (rev s)) _ _ Hk) as Hm.
  rewrite product_values in Hm.
  destruct (nth_error (seq 0 (length cs ^ r)) k) as [j|] eqn:Ej.
  - rewrite (map_nth_error _ _ _ Ej) in Hm. inversion Hm.
    assert (Hlt : (k < length cs ^ r)%nat).
    { rewrite <- (length_seq (length cs ^ r) 0).
      apply nth_error_Some; congruence. }
    apply (nth_error_nth _ _ 0%nat) in Ej.
    rewrite seq_nth in Ej by exact Hlt. f_equal; lia.
  - apply nth_error_None in Ej. rewrite <- (length_map Z.of_nat) in Ej.
    apply nth_error_None in Ej. congruence.
Qed.

End Enumeration.

Lemma bruteforce_loop_found (simple_hash : str -> str) (target_hash : str)
  (combos : list str) :
  forall attempts s a,
  bruteforce_loop simple_hash target_hash combos attempts = (Some s, a) ->
  exists k, nth_error combos k = Some s /\ a = attempts + Z.of_nat k + 1
            /\ simple_hash s = target_hash.
Proof.
  induction combos as [|c rest IH]; intros attempts s a; simpl;
    [discriminate|].
  destruct (str_eqb (simple_hash c) target_hash) eqn:E.
  - intros Heq; inversion Heq; subst. exists 0%nat.
    apply str_eqb_eq in E. repeat split; try assumption; lia.
  - intros Heq; destruct (IH _ _ _ Heq) as (k & Hk & Ha & Hh).
    exists (S k); repeat split; try assumption; lia.
Qed.

Lemma distinct_NoDup (s : str) : distinct s = true -> NoDup s.
Proof.
  induction s as [|c s IH]; simpl; [constructor|].
  rewrite andb_true_iff, negb_true_iff; intros [Hc Hs].
  constructor; [|apply IH; exact Hs].
  intros Hin. assert (existsb (Ascii.eqb c) s = true); [|congruence].
  apply existsb_exists; exists c; split; [exact Hin | apply Ascii.eqb_refl].
Qed.

Ltac in_charset := simpl; repeat (first [left; reflexivity | right]).

(** ** Properties of the codec *)

(** C4 : Round trip: for every string [s] over the alphabet,
    [index_to_text(text_to_index(s), len(s)) == s]; and over an alphabet
    without repeated symbols, for every length [L] and every [i] with
    [0 <= i < B^L], [text_to_index(index_to_text(i, L)) == i]. *)
Theorem codec_round_trip (cs : str) :
  (forall s, Forall (fun c => In c cs) s ->
     exists i, text_to_index cs s = Ok i
               /\ index_to_text cs i (length s) = Ok s)
  /\ (NoDup cs -> forall (L : nat) (i : Z),
      0 <= i < py_len cs ^ Z.of_nat L ->
      exists s, index_to_text cs i L = Ok s /\ text_to_index cs s = Ok i).
Proof.
  split.
  - intros s Hs. destruct s as [|c s].
    + exists 0; split; reflexivity.
    + assert (Hne : cs <> []).
      { inversion Hs as [|? ? Hc _]; subst. intros ->; exact Hc. }
      exists (lsb_val cs (rev (c :: s))); split.
      * apply text_to_index_spec; exact Hs.
      * rewrite index_to_text_spec by exact Hne.
        rewrite <- (length_rev (c :: s)), lsb_chars_val
          by (apply Forall_rev; exact Hs).
        rewrite rev_involutive; reflexivity.
  - intros Hnd L i Hi. destruct cs as [|c0 cs'] eqn:Ecs.
    + destruct L as [|L].
      * simpl in Hi. assert (i = 0) by lia; subst i.
        exists []; split; reflexivity.
      * rewrite Z.pow_0_l in Hi by lia. lia.
    + rewrite <- Ecs in *. assert (Hne : cs <> []) by congruence.
      exists (rev (lsb_chars cs L i)); split.
      * apply index_to_text_spec; exact Hne.
      * rewrite text_to_index_spec
          by (apply Forall_rev, lsb_chars_in; exact Hne).
        rewrite rev_involutive, lsb_val_chars by assumption. reflexivity.
Qed.

Lemma codec_round_trip_witness :
  (exists i, text_to_index full_charset (list_ascii_of_string "aZ9") = Ok i
             /\ index_to_text full_charset i 3
                = Ok (list_ascii_of_string "aZ9"))
  /\ (exists s, index_to_text full_charset 100 2 = Ok s
                /\ text_to_index full_charset s = Ok 100).
Proof.
  split.
  - apply (proj1 (codec_round_trip full_charset) (list_ascii_of_string "aZ9")).
    repeat (apply Forall_cons; [in_charset|]). apply Forall_nil.
  - apply (proj2 (codec_round_trip full_charset)).
    + apply distinct_NoDup; vm_compute; reflexivity.
    + vm_compute; split; [discriminate | reflexivity].
Defined.

(** C3 (as the code has it) : [index_to_text] has no range check: over a
    non-empty alphabet it returns a string of [length] symbols for every
    integer index, and an index at or above [B^L] decodes like its
    remainder modulo [B^L]. *)
Theorem index_to_text_wraps (cs : str) (index : Z) (L : nat) :
  cs <> [] ->
  exists text,
    index_to_text cs index L = Ok text
    /\ length text = L
    /\ index_to_text cs (index mod py_len cs ^ Z.of_nat L) L = Ok text.
Proof.
  intros Hne. exists (rev (lsb_chars cs L index)).
  rewrite !index_to_text_spec by exact Hne.
  rewrite length_rev, lsb_chars_length, lsb_chars_mod by exact Hne.
  repeat split.
Qed.

Lemma index_to_text_wraps_witness :
  exists text,
    index_to_text abcd 16 2 = Ok text
    /\ length text = 2%nat
    /\ index_to_text abcd (16 mod py_len abcd ^ Z.of_nat 2) 2 = Ok text.
Proof. apply (index_to_text_wraps abcd 16 2). discriminate. Defined.

(** C3, as the specification words it, fails: over the four symbols a, b, c, d the
    index 16 is not below [4^2], yet [index_to_text(16, 2)] returns "aa". *)
Lemma index_to_text_16_2_returns :
  py_len abcd ^ 2 <= 16
  /\ index_to_text abcd 16 2 = Ok (list_ascii_of_string "aa")
  /\ ~ (exists e, index_to_text abcd 16 2 = Raise e).
Proof.
  split; [vm_compute; discriminate|].
  split; [reflexivity|]. intros [e He]. vm_compute in He. discriminate.
Qed.

(** C10 : Over an alphabet without repeated symbols, when
    [classical_bruteforce] returns a string [s], the attempt count it
    returns is [text_to_index(s) + 1]. *)
Theorem bruteforce_attempts_index (cs : str) (simple_hash : str -> str)
  (target_hash : str) (L : nat) (s : str) (n_attempts : Z) :
  NoDup cs ->
  classical_bruteforce cs simple_hash target_hash L = (Some s, n_attempts) ->
  exists i, text_to_index cs s = Ok i /\ n_attempts = i + 1.
Proof.
  intros Hnd Hrun. unfold classical_bruteforce in Hrun.
  apply bruteforce_loop_found in Hrun. destruct Hrun as (k & Hk & Ha & _).
  exists (Z.of_nat k); split; [|lia].
  eapply product_nth; eassumption.
Qed.

Lemma bruteforce_attempts_index_witness :
  exists i, text_to_index abcd (list_ascii_of_string "ca") = Ok i
            /\ 9 = i + 1.
Proof.
  apply (bruteforce_attempts_index abcd (fun s => s)
           (list_ascii_of_string "ca") 2).
  - apply distinct_NoDup; reflexivity.
  - reflexivity.
Defined.

(** ** Properties of the search-space model *)

(** ** Binary digits *)

Lemma digits2_pos_bounds (p : positive) :
  2 ^ (Zpos (digits2_pos p) - 1) <= Zpos p < 2 ^ Zpos (digits2_pos p).
Proof.
  induction p as [p IH|p IH|]; cbn [digits2_pos].
  - rewrite Pos2Z.inj_succ.
    replace (Z.succ (Zpos (digits2_pos p)) - 1)
      with (Z.succ (Zpos (digits2_pos p) - 1)) by lia.
    rewrite !Z.pow_succ_r by lia. lia.
  - rewrite Pos2Z.inj_succ.
    replace (Z.succ (Zpos (digits2_pos p)) - 1)
      with (Z.succ (Zpos (digits2_pos p) - 1)) by lia.
    rewrite !Z.pow_succ_r by lia. lia.
  - cbn. lia.
Qed.

Lemma Zdigits2_bounds (m : Z) :
  0 < m -> 2 ^ (Zdigits2 m - 1) <= m < 2 ^ Zdigits2 m.
Proof.
  destruct m as [|p|p]; try lia. intros _. apply digits2_pos_bounds.
Qed.

Lemma Zdigits2_nonneg (m : Z) : 0 <= Zdigits2 m.
Proof. destruct m; cbn; lia. Qed.

Lemma Zdigits2_pos (m : Z) : 0 < m -> 0 < Zdigits2 m.
Proof. destruct m; cbn; lia. Qed.

Lemma Zdigits2_unique (m d : Z) :
  2 ^ (d - 1) <= m < 2 ^ d -> 0 < m -> Zdigits2 m = d.
Proof.
  intros [Hlo Hhi] Hm.
  pose proof (Zdigits2_bounds m Hm) as [Klo Khi].
  pose proof (Zdigits2_pos m Hm) as Hk.
  assert (Hd : 0 < d).
  { destruct (Z.lt_ge_cases 0 d) as [H|H]; [exact H|].
    assert (2 ^ d <= 1); [|lia].
    destruct (Z.eq_dec d 0) as [->|Hne]; [cbn; lia|].
    rewrite Z.pow_neg_r by lia. lia. }
  assert (H1 : Zdigits2 m - 1 < d).
  { apply (Z.pow_lt_mono_r_iff 2); lia. }
  assert (H2 : d - 1 < Zdigits2 m).
  { apply (Z.pow_lt_mono_r_iff 2); lia. }
  lia.
Qed.

Lemma digits2_pos_iter_xO (p k : positive) :
  Zpos (digits2_pos (Pos.iter xO p k)) = Zpos (digits2_pos p) + Zpos k.
Proof.
  induction k as [|k IH] using Pos.peano_ind.
  - cbn [Pos.iter digits2_pos]. lia.
  - rewrite Pos.iter_succ. cbn [digits2_pos]. lia.
Qed.

(** ** Shifting and rounding *)

Lemma shr_m_of_loc (m : Z) (l : location) :
  shr_m (shr_record_of_loc m l) = m.
Proof. destruct l as [|[| |]]; reflexivity. Qed.

Lemma shr_1_digits (mrs : shr_record) :
  0 <= shr_m mrs ->
  0 <= shr_m (shr_1 mrs)
  /\ Zdigits2 (shr_m (shr_1 mrs)) = Z.max 0 (Zdigits2 (shr_m mrs) - 1).
Proof.
  destruct mrs as [m r s]. cbn [shr_m].
  destruct m as [|[p|p|]|p]; intros Hm;
    cbn [shr_1 shr_m Zdigits2 digits2_pos]; rewrite ?Pos2Z.inj_succ; lia.
Qed.

Lemma iter_shr_1_digits (p : positive) :
  forall mrs,
  0 <= shr_m mrs ->
  0 <= shr_m (SpecFloat.iter_pos shr_1 p mrs)
  /\ Zdigits2 (shr_m (SpecFloat.iter_pos shr_1 p mrs))
     = Z.max 0 (Zdigits2 (shr_m mrs) - Zpos p).
Proof.
  induction p as [p IH|p IH|]; intros mrs Hm; cbn [SpecFloat.iter_pos].
  - destruct (shr_1_digits mrs Hm) as [H1 D1].
    destruct (IH _ H1) as [H2 D2]. destruct (IH _ H2) as [H3 D3].
    split; [exact H3|]. rewrite D3, D2, D1. lia.
  - destruct (IH _ Hm) as [H2 D2]. destruct (IH _ H2) as [H3 D3].
    split; [exact H3|]. rewrite D3, D2. lia.
  - apply shr_1_digits; exact Hm.
Qed.

Lemma shr_digits (mrs : shr_record) (e n : Z) :
  0 <= shr_m mrs -> 0 <= n ->
  snd (shr mrs e n) = e + n
  /\ 0 <= shr_m (fst (shr mrs e n))
  /\ Zdigits2 (shr_m (fst (shr mrs e n)))
     = Z.max 0 (Zdigits2 (shr_m mrs) - n).
Proof.
  intros Hm Hn. destruct n as [|p|p]; [| |lia]; cbn [shr fst snd].
  - pose proof (Zdigits2_nonneg (shr_m mrs)). repeat split; lia.
  - destruct (iter_shr_1_digits p mrs Hm) as [H D].
    repeat split; assumption.
Qed.

Lemma round_nearest_even_bounds (m : Z) (l : location) :
  m <= round_nearest_even m l <= m + 1.
Proof.
  destruct l as [|[| |]]; cbn [round_nearest_even]; try lia.
  destruct (Z.even m); lia.
Qed.

Lemma fexp_normal (e : Z) :
  -1021 <= e -> fexp mant_dig max_exp e = e - 53.
Proof. intros He. unfold fexp, emin, mant_dig, max_exp. lia. Qed.

(** The rounding step on a mantissa of 53 digits or more in the normal
    range: the result has 53 digits and one of two exponents; above the
    largest exponent it is an infinity. *)
Lemma binary_round_aux_normal (s : bool) (m e : Z) (l : location) :
  0 < m -> 53 <= Zdigits2 m -> -1021 <= Zdigits2 m + e ->
  exists m' e',
    Zdigits2 (Zpos m') = 53
    /\ (e' = Zdigits2 m + e - 53 \/ e' = Zdigits2 m + e - 52)
    /\ binary_round_aux mant_dig max_exp s m e l
       = if e' <=? 971 then S754_finite s m' e' else S754_infinity s.
Proof.
  intros Hm Hd He. set (d := Zdigits2 m) in *.
  unfold binary_round_aux, shr_fexp. fold d.
  rewrite (fexp_normal (d + e)) by exact He.
  pose proof (shr_digits (shr_record_of_loc m l) e (d + e - 53 - e)) as H1.
  rewrite shr_m_of_loc in H1. fold d in H1.
  destruct H1 as (E1 & P1 & D1); [lia | lia |].
  destruct (shr (shr_record_of_loc m l) e (d + e - 53 - e)) as [mrs1 e1].
  cbn [fst snd] in E1, P1, D1.
  set (m1 := shr_m mrs1) in *.
  assert (D1' : Zdigits2 m1 = 53) by lia.
  assert (Hm1 : 0 < m1).
  { destruct m1; cbn in D1'; lia. }
  pose proof (Zdigits2_bounds m1 Hm1) as B1. rewrite D1' in B1.
  pose proof (round_nearest_even_bounds m1 (loc_of_shr_record mrs1)) as R.
  set (m1' := round_nearest_even m1 (loc_of_shr_record mrs1)) in *.
  assert (Hcase : (Zdigits2 m1' = 53
                   /\ fexp mant_dig max_exp (Zdigits2 m1' + e1) - e1 = 0)
                  \/ (Zdigits2 m1' = 54
                   /\ fexp mant_dig max_exp (Zdigits2 m1' + e1) - e1 = 1)).
  { destruct (Z.eq_dec m1' (2 ^ 53)) as [E|NE].
    - right. rewrite E. change (Zdigits2 (2 ^ 53)) with 54.
      split; [reflexivity|]. rewrite fexp_normal by lia. lia.
    - left. assert (D : Zdigits2 m1' = 53).
      { apply Zdigits2_unique; [|lia]. change (53 - 1) with 52. lia. }
      rewrite D. split; [reflexivity|]. rewrite fexp_normal by lia. lia. }
  pose proof (shr_digits (shr_record_of_loc m1' loc_Exact) e1
                (fexp mant_dig max_exp (Zdigits2 m1' + e1) - e1)) as H2.
  rewrite shr_m_of_loc in H2.
  destruct H2 as (E2 & P2 & D2);
    [lia | destruct Hcase as [[_ ->]|[_ ->]]; lia |].
  destruct (shr (shr_record_of_loc m1' loc_Exact) e1
              (fexp mant_dig max_exp (Zdigits2 m1' + e1) - e1)) as [mrs2 e2].
  cbn [fst snd] in E2, P2, D2.
  assert (D2' : Zdigits2 (shr_m mrs2) = 53).
  { destruct Hcase as [[Dc Nc]|[Dc Nc]]; rewrite Nc, Dc in D2; lia. }
  destruct (shr_m mrs2) as [|m2|m2] eqn:Em2; [cbn in D2'; lia | | lia].
  exists m2, e2. split; [exact D2'|]. split.
  - destruct Hcase as [[Dc Nc]|[Dc Nc]]; rewrite Nc in E2; lia.
  - reflexivity.
Qed.

(** ** Conversion of an integer *)

Lemma binary_round_normal (s : bool) (p : positive) :
  exists m e,
    Zdigits2 (Zpos m) = 53
    /\ (e = Zpos (digits2_pos p) - 53 \/ e = Zpos (digits2_pos p) - 52)
    /\ binary_round mant_dig max_exp s p 0
       = if e <=? 971 then S754_finite s m e else S754_infinity s.
Proof.
  unfold binary_round. set (d := Zpos (digits2_pos p)).
  assert (Hd : 0 < d) by (unfold d; lia).
  rewrite Z.add_0_r, fexp_normal by lia.
  unfold shl_align.
  destruct (d - 53 - 0) as [|k|k] eqn:Ek.
  - destruct (binary_round_aux_normal s (Zpos p) 0 loc_Exact)
      as (m & e & Dm & He & Hr); cbn [Zdigits2]; fold d; try lia.
    exists m, e. cbn [Zdigits2] in He. fold d in He.
    repeat split; [exact Dm | lia | exact Hr].
  - destruct (binary_round_aux_normal s (Zpos p) 0 loc_Exact)
      as (m & e & Dm & He & Hr); cbn [Zdigits2]; fold d; try lia.
    exists m, e. cbn [Zdigits2] in He. fold d in He.
    repeat split; [exact Dm | lia | exact Hr].
  - pose proof (digits2_pos_iter_xO p k) as Dk. fold d in Dk.
    destruct (binary_round_aux_normal s (Zpos (Pos.iter xO p k)) (d - 53)
                loc_Exact) as (m & e & Dm & He & Hr);
      cbn [Zdigits2]; rewrite ?Dk; try lia.
    exists m, e. cbn [Zdigits2] in He. rewrite Dk in He.
    repeat split; [exact Dm | lia | exact Hr].
Qed.

Lemma double_of_Z_normal (N : Z) :
  N <> 0 ->
  exists m e,
    Zdigits2 (Zpos m) = 53
    /\ (e = Zdigits2 N - 53 \/ e = Zdigits2 N - 52)
    /\ double_of_Z N
       = if e <=? 971 then S754_finite (N <? 0) m e
         else S754_infinity (N <? 0).
Proof.
  destruct N as [|p|p]; [congruence| |]; intros _;
    apply binary_round_normal.
Qed.

Lemma Zdigits2_below (N k : Z) : 0 < N < 2 ^ k -> Zdigits2 N <= k.
Proof.
  intros [HN Hk]. pose proof (Zdigits2_bounds N HN) as [Hlo _].
  pose proof (Zdigits2_pos N HN) as Hd.
  destruct (Z.lt_ge_cases k 0) as [Hneg|Hpos];
    [rewrite Z.pow_neg_r in Hk by exact Hneg; lia|].
  assert (Zdigits2 N - 1 < k); [|lia].
  apply (Z.pow_lt_mono_r_iff 2); lia.
Qed.

Lemma Zdigits2_above (N k : Z) : 0 <= k -> 2 ^ k <= N -> k < Zdigits2 N.
Proof.
  intros Hk HN.
  assert (H0 : 0 < N) by (pose proof (Z.pow_pos_nonneg 2 k); lia).
  pose proof (Zdigits2_bounds N H0) as [_ Hhi].
  pose proof (Zdigits2_pos N H0) as Hd.
  apply (Z.pow_lt_mono_r_iff 2); lia.
Qed.

(** ** The last binade: where the conversion overflows *)

Lemma shr_1_value (mrs : shr_record) :
  0 <= shr_m mrs ->
  shr_m (shr_1 mrs) = shr_m mrs / 2
  /\ shr_r (shr_1 mrs) = Z.odd (shr_m mrs).
Proof.
  destruct mrs as [m r s]. cbn [shr_m].
  destruct m as [|[p|p|]|p]; intros Hm; cbn [shr_1 shr_m shr_r];
    try lia; split; try reflexivity.
  - apply (Z.div_unique (Zpos p~1) 2 (Zpos p) 1); lia.
  - apply (Z.div_unique (Zpos p~0) 2 (Zpos p) 0); lia.
Qed.

Lemma iter_shr_1_value (p : positive) :
  forall mrs,
  0 <= shr_m mrs ->
  shr_m (SpecFloat.iter_pos shr_1 p mrs) = shr_m mrs / 2 ^ Zpos p
  /\ shr_r (SpecFloat.iter_pos shr_1 p mrs)
     = Z.testbit (shr_m mrs) (Zpos p - 1).
Proof.
  induction p as [p IH|p IH|]; intros mrs Hm; cbn [SpecFloat.iter_pos].
  - destruct (shr_1_value mrs Hm) as [V1 _].
    destruct (shr_1_digits mrs Hm) as [P1 _].
    destruct (IH _ P1) as [V2 _].
    destruct (iter_shr_1_digits p _ P1) as [P2 _].
    destruct (IH _ P2) as [V3 R3].
    rewrite V3, R3, V2, V1. split.
    + rewrite !Z.div_div by (try apply Z.pow_pos_nonneg; lia).
      f_equal. change 2 with (2 ^ 1) at 1.
      rewrite <- !Z.pow_add_r by lia. f_equal. lia.
    + change (shr_m mrs / 2) with (shr_m mrs / 2 ^ 1).
      rewrite !Z.div_pow2_bits by lia. f_equal. lia.
  - destruct (IH _ Hm) as [V2 _].
    destruct (iter_shr_1_digits p _ Hm) as [P2 _].
    destruct (IH _ P2) as [V3 R3].
    rewrite V3, R3, V2. split.
    + rewrite !Z.div_div by (try apply Z.pow_pos_nonneg; lia).
      f_equal. rewrite <- !Z.pow_add_r by lia. f_equal. lia.
    + rewrite !Z.div_pow2_bits by lia. f_equal. lia.
  - destruct (shr_1_value mrs Hm) as [V1 R1]. rewrite V1, R1.
    split; [reflexivity|]. symmetry. apply Z.bit0_odd.
Qed.

Lemma top_bits (N : Z) :
  2 ^ 1023 <= N < 2 ^ 1024 ->
  2 ^ 52 <= N / 2 ^ 971 < 2 ^ 53
  /\ (N < 2 ^ 1024 - 2 ^ 970 ->
      N / 2 ^ 971 < 2 ^ 53 - 1 \/ Z.testbit N 970 = false)
  /\ (2 ^ 1024 - 2 ^ 970 <= N ->
      N / 2 ^ 971 = 2 ^ 53 - 1 /\ Z.testbit N 970 = true).
Proof.
  intros HN.
  pose proof (Z.testbit_spec' N 970 ltac:(lia)) as Hb.
  assert (E : N / 2 ^ 970 = 2 * (N / 2 ^ 971) + (N / 2 ^ 970) mod 2).
  { change (2 ^ 971) with (2 ^ 970 * 2). rewrite <- Z.div_div by lia.
    pose proof (Z.div_mod (N / 2 ^ 970) 2). lia. }
  pose proof (Z.mod_pos_bound (N / 2 ^ 970) 2 ltac:(lia)) as Hm.
  pose proof (Z.div_mod N (2 ^ 970) ltac:(lia)) as Hd.
  pose proof (Z.mod_pos_bound N (2 ^ 970) ltac:(lia)) as Hr.
  set (a := N / 2 ^ 970) in *. set (q := N / 2 ^ 971) in *.
  set (r := N mod 2 ^ 970) in *.
  change (2 ^ 1023) with (2 ^ 53 * 2 ^ 970) in HN.
  change (2 ^ 1024) with (2 ^ 54 * 2 ^ 970) in *.
  set (A := 2 ^ 970) in *.
  assert (HA : 0 < A) by (unfold A; lia).
  assert (Ha : 2 ^ 53 <= a < 2 ^ 54) by (split; nia).
  split; [lia|]. split.
  - intros HT. destruct (Z.testbit N 970); [left | right; reflexivity].
    cbn [Z.b2z] in Hb. assert (a <= 2 ^ 54 - 2) by nia. lia.
  - intros HT. assert (2 ^ 54 - 1 <= a) by nia.
    destruct (Z.testbit N 970); cbn [Z.b2z] in Hb; split; try reflexivity; lia.
Qed.

Lemma round_down_bit (m m0 : Z) (s : bool) :
  round_nearest_even m (loc_of_shr_record (Build_shr_record m0 false s)) = m.
Proof. destruct s; reflexivity. Qed.

Lemma round_up_bit (m m0 : Z) (s : bool) :
  Z.odd m = true ->
  round_nearest_even m (loc_of_shr_record (Build_shr_record m0 true s))
  = m + 1.
Proof.
  intros Ho. destruct s; cbn [loc_of_shr_record round_nearest_even];
    [reflexivity|].
  rewrite <- Z.negb_odd, Ho. reflexivity.
Qed.

(** Conversion in the last binade: the nearest double is finite below
    [2^1024 - 2^970] and an infinity from there on. *)
Lemma binary_round_top (s : bool) (p : positive) :
  2 ^ 1023 <= Zpos p < 2 ^ 1024 ->
  (Zpos p < 2 ^ 1024 - 2 ^ 970 ->
   exists m, Zdigits2 (Zpos m) = 53
             /\ binary_round mant_dig max_exp s p 0 = S754_finite s m 971)
  /\ (2 ^ 1024 - 2 ^ 970 <= Zpos p ->
      binary_round mant_dig max_exp s p 0 = S754_infinity s).
Proof.
  intros HN.
  destruct (top_bits (Zpos p) HN) as (Hq & Hlow & Hhigh).
  assert (Dp : Zpos (digits2_pos p) = 1024).
  { apply (Zdigits2_unique (Zpos p) 1024); [|lia].
    change (1024 - 1) with 1023. exact HN. }
  unfold binary_round. rewrite Dp, Z.add_0_r, fexp_normal by lia.
  change (shl_align p 0 (1024 - 53)) with (p, 0).
  unfold binary_round_aux, shr_fexp. cbn [Zdigits2]. rewrite Dp, Z.add_0_r.
  rewrite fexp_normal by lia. change (1024 - 53 - 0) with 971.
  cbn [shr shr_record_of_loc].
  pose proof (iter_shr_1_value 971 (Build_shr_record (Zpos p) false false)
                ltac:(cbn; lia)) as [V1 R1].
  cbn [shr_m] in V1, R1. change (971 - 1) with 970 in R1.
  destruct (SpecFloat.iter_pos shr_1 971
              (Build_shr_record (Zpos p) false false)) as [m1 r1 s1].
  cbn [shr_m shr_r] in *. subst m1 r1.
  set (q := Zpos p / 2 ^ 971) in *.
  assert (Hfin : forall m1',
             2 ^ 52 <= m1' < 2 ^ 53 ->
             exists m, Zdigits2 (Zpos m) = 53
               /\ (let '(mrs'', e'') :=
                     shr (shr_record_of_loc m1' loc_Exact) (0 + 971)
                       (fexp mant_dig max_exp (Zdigits2 m1' + (0 + 971))
                        - (0 + 971)) in
                   match shr_m mrs'' with
                   | 0 => S754_zero s
                   | Zpos m =>
                       if e'' <=? max_exp - mant_dig
                       then S754_finite s m e'' else S754_infinity s
                   | Zneg _ => S754_nan
                   end) = S754_finite s m 971).
  { intros m1' Hm1'.
    assert (D : Zdigits2 m1' = 53).
    { apply Zdigits2_unique; [change (53 - 1) with 52; lia | lia]. }
    rewrite D, fexp_normal by lia.
    change (53 + (0 + 971) - 53 - (0 + 971)) with 0.
    cbn [shr shr_record_of_loc shr_m].
    destruct m1' as [|m|m]; try lia.
    exists m. split; [exact D | reflexivity]. }
  split.
  - intros HT. destruct (Hlow HT) as [Hlt|Hbit].
    + apply Hfin.
      pose proof (round_nearest_even_bounds q
                    (loc_of_shr_record (Build_shr_record q
                       (Z.testbit (Zpos p) 970) s1))). lia.
    + rewrite Hbit, round_down_bit. apply Hfin. exact Hq.
  - intros HT. destruct (Hhigh HT) as [Eq Hbit].
    rewrite Hbit, round_up_bit by (rewrite Eq; reflexivity).
    rewrite Eq. change (2 ^ 53 - 1 + 1) with 9007199254740992.
    vm_compute. reflexivity.
Qed.

(** ** Square root and product of normal numbers *)

Lemma SFsqrt_normal (m : positive) (e : Z) :
  Zdigits2 (Zpos m) = 53 -> -1074 <= e <= 971 ->
  exists m' e',
    Zdigits2 (Zpos m') = 53
    /\ -563 <= e' <= 460
    /\ SFsqrt mant_dig max_exp (S754_finite false m e)
       = S754_finite false m' e'.
Proof.
  intros Dm He. cbn [SFsqrt]. unfold SFsqrt_core_binary.
  rewrite Dm, !Z.div2_div.
  replace ((53 + e + 1) / 2) with (e / 2 + 27)
    by (rewrite <- (Z.div_add (e) 27 2) by lia; f_equal; lia).
  rewrite fexp_normal by (pose proof (Z.div_mod e 2);
                          pose proof (Z.mod_pos_bound e 2); lia).
  rewrite Z.min_l by lia.
  set (e0 := e / 2 + 27 - 53).
  assert (Hs : e - 2 * e0 = 52 \/ e - 2 * e0 = 53).
  { unfold e0. pose proof (Z.div_mod e 2). pose proof (Z.mod_pos_bound e 2).
    lia. }
  set (m2 := match e - 2 * e0 with
             | 0 => Zpos m
             | Zpos _ => Z.shiftl (Zpos m) (e - 2 * e0)
             | Zneg _ => 0
             end).
  assert (Em2 : m2 = Zpos m * 2 ^ (e - 2 * e0)).
  { unfold m2. destruct (e - 2 * e0) as [|q|q] eqn:Es; try lia.
    apply Z.shiftl_mul_pow2. lia. }
  pose proof (Zdigits2_bounds (Zpos m) eq_refl) as Bm. rewrite Dm in Bm.
  change (53 - 1) with 52 in Bm.
  assert (Bm2 : 2 ^ 104 <= m2 < 2 ^ 106).
  { rewrite Em2. destruct Hs as [-> | ->].
    - change (2 ^ 104) with (2 ^ 52 * 2 ^ 52).
      change (2 ^ 106) with (2 ^ 53 * 2 ^ 53). nia.
    - change (2 ^ 104) with (2 ^ 52 * 2 ^ 52).
      change (2 ^ 106) with (2 ^ 53 * 2 ^ 53). nia. }
  pose proof (Z.sqrtrem_sqrt m2) as Hq.
  destruct (Z.sqrtrem m2) as [q r]. cbn [fst] in Hq. subst q.
  assert (Bq : 2 ^ 52 <= Z.sqrt m2 < 2 ^ 53).
  { split.
    - change (2 ^ 52) with (Z.sqrt (2 ^ 52 * 2 ^ 52)).
      apply Z.sqrt_le_mono. change (2 ^ 52 * 2 ^ 52) with (2 ^ 104). lia.
    - apply Z.sqrt_lt_square; [lia | lia |].
      change (2 ^ 53 * 2 ^ 53) with (2 ^ 106). lia. }
  assert (Dq : Zdigits2 (Z.sqrt m2) = 53).
  { apply Zdigits2_unique; [change (53 - 1) with 52; lia | lia]. }
  destruct (binary_round_aux_normal false (Z.sqrt m2) e0
              (if r =? 0 then loc_Exact
               else loc_Inexact (if r <=? Z.sqrt m2 then Lt else Gt)))
    as (m' & e' & Dm' & He' & Hr); rewrite ?Dq; try lia.
  rewrite Dq in He'.
  assert (Be' : -563 <= e' <= 460).
  { unfold e0 in He'. pose proof (Z.div_mod e 2).
    pose proof (Z.mod_pos_bound e 2). lia. }
  exists m', e'. split; [exact Dm'|]. split; [exact Be'|].
  rewrite Hr. destruct (e' <=? 971) eqn:E; [reflexivity|].
  apply Z.leb_gt in E. lia.
Qed.

Lemma SFmul_normal (mx my : positive) (ex ey : Z) :
  Zdigits2 (Zpos mx) = 53 -> Zdigits2 (Zpos my) = 53 ->
  -1073 <= ex + ey <= 917 ->
  exists m e,
    Zdigits2 (Zpos m) = 53
    /\ SFmul mant_dig max_exp (S754_finite false mx ex)
         (S754_finite false my ey)
       = S754_finite false m e.
Proof.
  intros Dx Dy He. cbn [SFmul xorb].
  pose proof (Zdigits2_bounds (Zpos mx) eq_refl) as Bx. rewrite Dx in Bx.
  pose proof (Zdigits2_bounds (Zpos my) eq_refl) as By. rewrite Dy in By.
  change (53 - 1) with 52 in Bx, By.
  assert (Bp : 2 ^ 104 <= Zpos (mx * my) < 2 ^ 106).
  { rewrite Pos2Z.inj_mul.
    change (2 ^ 104) with (2 ^ 52 * 2 ^ 52).
    change (2 ^ 106) with (2 ^ 53 * 2 ^ 53). nia. }
  assert (Dlo : 104 < Zdigits2 (Zpos (mx * my))).
  { apply Zdigits2_above; lia. }
  assert (Dhi : Zdigits2 (Zpos (mx * my)) <= 106).
  { apply Zdigits2_below; lia. }
  destruct (binary_round_aux_normal false (Zpos (mx * my)) (ex + ey)
              loc_Exact) as (m & e & Dm & Hex & Hr); try lia.
  exists m, e. split; [exact Dm|].
  rewrite Hr. destruct (e <=? 971) eqn:E; [reflexivity|].
  apply Z.leb_gt in E. lia.
Qed.


(** ** Integer parts of a double *)

Lemma powerRZ_2_nonneg (e : Z) : 0 <= e -> powerRZ 2 e = IZR (2 ^ e).
Proof.
  intros He. rewrite <- (Z2Nat.id e) by exact He.
  rewrite <- pow_powerRZ. apply pow_IZR.
Qed.

Lemma powerRZ_2_neg (e : Z) : e < 0 -> powerRZ 2 e = (/ IZR (2 ^ (- e)))%R.
Proof.
  intros He. replace e with (- (- e)) at 1 by lia.
  rewrite powerRZ_neg'. rewrite powerRZ_2_nonneg by lia. reflexivity.
Qed.

Lemma Zfloor_div_Z (a b : Z) : 0 < b -> Zfloor (IZR a / IZR b) = a / b.
Proof.
  intros Hb. apply Zfloor_eq.
  pose proof (Z.div_mod a b ltac:(lia)) as Hdm.
  pose proof (Z.mod_pos_bound a b Hb) as [Hr0 Hr1].
  assert (HbR : (0 < IZR b)%R) by (apply IZR_lt; exact Hb).
  assert (Ha : IZR a = (IZR b * IZR (a / b) + IZR (a mod b))%R).
  { rewrite <- mult_IZR, <- plus_IZR. f_equal. exact Hdm. }
  apply IZR_le in Hr0. apply IZR_lt in Hr1.
  replace (IZR a / IZR b)%R with (IZR (a / b) + IZR (a mod b) / IZR b)%R
    by (rewrite Ha; field; lra).
  assert (H0 : (0 <= IZR (a mod b) / IZR b)%R).
  { apply Rmult_le_pos; [exact Hr0 | left; apply Rinv_0_lt_compat; exact HbR]. }
  assert (H1 : (IZR (a mod b) / IZR b < 1)%R).
  { apply (Rmult_lt_reg_r (IZR b)); [exact HbR|].
    unfold Rdiv. rewrite Rmult_assoc, Rinv_l by lra. lra. }
  lra.
Qed.

Lemma two_pow_pos (k : Z) : 0 <= k -> 0 < 2 ^ k.
Proof. intros Hk. apply Z.pow_pos_nonneg; lia. Qed.

Lemma double_trunc_floor (m : positive) (e : Z) :
  double_trunc false m e = Zfloor (SF2R (S754_finite false m e)).
Proof.
  unfold double_trunc, SF2R. destruct (0 <=? e) eqn:E.
  - apply Z.leb_le in E. rewrite powerRZ_2_nonneg by exact E.
    rewrite <- mult_IZR, ZfloorZ. reflexivity.
  - apply Z.leb_gt in E. rewrite powerRZ_2_neg by exact E.
    symmetry. apply Zfloor_div_Z. apply two_pow_pos; lia.
Qed.


(** ** Conversion of an [int] *)

Lemma float_of_int_finite (N : Z) :
  0 < N < 2 ^ 1024 - 2 ^ 970 ->
  exists m e,
    Zdigits2 (Zpos m) = 53 /\ -52 <= e <= 971
    /\ double_of_Z N = S754_finite false m e
    /\ float_of_int N = Ok (S754_finite false m e).
Proof.
  intros HN. destruct (Z.lt_ge_cases N (2 ^ 1023)) as [Hlow|Htop].
  - destruct (double_of_Z_normal N ltac:(lia)) as (m & e & Dm & He & Hr).
    pose proof (Zdigits2_below N 1023 ltac:(lia)) as Hd.
    pose proof (Zdigits2_pos N ltac:(lia)) as Hd0.
    assert (Hle : (e <=? 971) = true) by (apply Z.leb_le; lia).
    assert (Hs : (N <? 0) = false) by (apply Z.ltb_ge; lia).
    rewrite Hle, Hs in Hr.
    exists m, e. split; [exact Dm|]. split; [lia|]. split; [exact Hr|].
    unfold float_of_int. rewrite Hr. reflexivity.
  - destruct N as [|p|p]; try lia.
    destruct (binary_round_top false p ltac:(lia)) as [Hfin _].
    destruct (Hfin ltac:(lia)) as (m & Dm & Hr).
    change (double_of_Z (Zpos p))
      with (binary_round mant_dig max_exp false p 0).
    exists m, 971. split; [exact Dm|]. split; [lia|]. split; [exact Hr|].
    unfold float_of_int.
    change (double_of_Z (Zpos p))
      with (binary_round mant_dig max_exp false p 0).
    rewrite Hr. reflexivity.
Qed.

Lemma float_of_int_overflow (N : Z) :
  2 ^ 1024 - 2 ^ 970 <= N -> float_of_int N = Raise OverflowError.
Proof.
  intros HN. destruct (Z.lt_ge_cases N (2 ^ 1024)) as [Htop|Hbig].
  - destruct N as [|p|p]; try lia.
    destruct (binary_round_top false p ltac:(lia)) as [_ Hinf].
    unfold float_of_int.
    change (double_of_Z (Zpos p))
      with (binary_round mant_dig max_exp false p 0).
    rewrite (Hinf HN). reflexivity.
  - assert (H0 : 0 < N) by (pose proof (two_pow_pos 1024); lia).
    destruct (double_of_Z_normal N ltac:(lia)) as (m & e & Dm & He & Hr).
    pose proof (Zdigits2_above N 1024 ltac:(lia) Hbig) as Hd.
    assert (Hle : (e <=? 971) = false) by (apply Z.leb_gt; lia).
    rewrite Hle in Hr. unfold float_of_int. rewrite Hr. reflexivity.
Qed.

Lemma quarter_pi_value :
  SFdiv mant_dig max_exp math_pi (double_of_Z 4)
  = S754_finite false 7074237752028440 (-53).
Proof. vm_compute. reflexivity. Qed.

Lemma SF2R_nonneg (m : positive) (e : Z) :
  (0 <= SF2R (S754_finite false m e))%R.
Proof.
  cbn [SF2R]. apply Rmult_le_pos.
  - apply IZR_le. lia.
  - apply powerRZ_le. lra.
Qed.

(** The iteration count in doubles: as long as the conversion does not
    overflow every step is finite. *)
Lemma iteration_count_steps (N : Z) :
  0 <= N < 2 ^ 1024 - 2 ^ 970 ->
  exists r x,
    math_sqrt N = Ok r
    /\ r = SFsqrt mant_dig max_exp (double_of_Z N)
    /\ x = SFmul mant_dig max_exp
             (SFdiv mant_dig max_exp math_pi (double_of_Z 4)) r
    /\ is_finite x = true
    /\ (0 <= SF2R x)%R
    /\ iteration_count N = Ok (Z.max 1 (Zfloor (SF2R x))).
Proof.
  intros [H0 Hhi]. destruct (Z.eq_dec N 0) as [->|Hne].
  - exists (S754_zero false), (S754_zero false).
    split; [reflexivity|]. split; [reflexivity|].
    split; [vm_compute; reflexivity|]. split; [reflexivity|].
    split; [cbn [SF2R]; lra|].
    cbn [SF2R]. rewrite ZfloorZ. vm_compute. reflexivity.
  - destruct (float_of_int_finite N ltac:(lia)) as (m & e & Dm & He & Hd & Hf).
    destruct (SFsqrt_normal m e Dm ltac:(lia)) as (mr & er & Dr & Her & Hs).
    destruct (SFmul_normal 7074237752028440 mr (-53) er eq_refl Dr
                ltac:(lia)) as (mx & ex & Dx & Hx).
    exists (S754_finite false mr er), (S754_finite false mx ex).
    assert (Hsq : math_sqrt N = Ok (S754_finite false mr er)).
    { unfold math_sqrt. rewrite Hf. cbn [bind]. rewrite Hs. reflexivity. }
    split; [exact Hsq|]. split; [rewrite Hd; symmetry; exact Hs|].
    split; [rewrite quarter_pi_value; symmetry; exact Hx|].
    split; [reflexivity|]. split; [apply SF2R_nonneg|].
    unfold iteration_count. rewrite Hsq. cbn [bind].
    rewrite quarter_pi_value, Hx. cbn [py_int_of_float bind].
    rewrite double_trunc_floor. reflexivity.
Qed.

Lemma math_sqrt_overflow (N : Z) :
  2 ^ 1024 - 2 ^ 970 <= N -> math_sqrt N = Raise OverflowError.
Proof.
  intros HN. unfold math_sqrt. rewrite float_of_int_overflow by exact HN.
  reflexivity.
Qed.

(** C6 : For every [space_size] from 2 to below [2^1024 - 2^970] the
    number of Grover iterations is [max(1, floor(x))], hence at least 1,
    where [x] is the finite double that
    [math.pi / 4 * math.sqrt(space_size)] rounds to; from [2^1024 - 2^970]
    on [math.sqrt] raises [OverflowError] and no number is computed. *)
Theorem iteration_count_in_doubles (N : Z) :
  (2 <= N < 2 ^ 1024 - 2 ^ 970 ->
   exists x,
     x = SFmul mant_dig max_exp
           (SFdiv mant_dig max_exp math_pi (double_of_Z 4))
           (SFsqrt mant_dig max_exp (double_of_Z N))
     /\ is_finite x = true
     /\ (0 <= SF2R x)%R
     /\ iteration_count N = Ok (Z.max 1 (Zfloor (SF2R x)))
     /\ 1 <= Z.max 1 (Zfloor (SF2R x)))
  /\ (2 ^ 1024 - 2 ^ 970 <= N -> iteration_count N = Raise OverflowError).
Proof.
  split.
  - intros HN.
    destruct (iteration_count_steps N ltac:(lia))
      as (r & x & _ & Hr & Hx & Hfin & Hpos & Hit).
    exists x. subst r. repeat split; try assumption. lia.
  - intros HN. unfold iteration_count.
    rewrite math_sqrt_overflow by exact HN. reflexivity.
Qed.

Lemma iteration_count_in_doubles_witness :
  (exists x,
     x = SFmul mant_dig max_exp
           (SFdiv mant_dig max_exp math_pi (double_of_Z 4))
           (SFsqrt mant_dig max_exp (double_of_Z 10624215277))
     /\ is_finite x = true
     /\ (0 <= SF2R x)%R
     /\ iteration_count 10624215277 = Ok (Z.max 1 (Zfloor (SF2R x)))
     /\ 1 <= Z.max 1 (Zfloor (SF2R x)))
  /\ iteration_count (62 ^ 172) = Raise OverflowError.
Proof.
  split.
  - apply (proj1 (iteration_count_in_doubles 10624215277)).
    split; [lia | vm_compute; reflexivity].
  - apply (proj2 (iteration_count_in_doubles (62 ^ 172))).
    vm_compute. discriminate.
Defined.

(** ** The exact iteration count at one search space *)

Lemma Q2R_qpow (q : Q) (n : nat) : Q2R (qpow q n) = (Q2R q ^ n)%R.
Proof.
  induction n as [|n IH]; cbn [qpow pow].
  - unfold Q2R. cbn. lra.
  - rewrite Q2R_mult, IH. reflexivity.
Qed.

Lemma Q2R_inject_Z (z : Z) : Q2R (inject_Z z) = IZR z.
Proof. unfold Q2R, inject_Z. cbn. lra. Qed.

Lemma Q2R_pi_term (k : nat) : Q2R (pi_term k) = tg_alt PI_2_3_7_tg k.
Proof.
  unfold pi_term, tg_alt, PI_2_3_7_tg, Ratan_seq.
  assert (Hd : ~ (inject_Z (Z.of_nat (2 * k + 1)) == 0)%Q).
  { unfold Qeq, inject_Z. cbn [Qnum Qden]. lia. }
  rewrite Q2R_mult, Q2R_div by exact Hd.
  rewrite Q2R_plus, Q2R_mult, !Q2R_qpow, Q2R_inject_Z, <- INR_IZR_INZ.
  replace (Q2R (-1 # 1)) with (-1)%R by (unfold Q2R; cbn; lra).
  replace (Q2R (1 # 3)) with (/ 3)%R by (unfold Q2R; cbn; lra).
  replace (Q2R (1 # 7)) with (/ 7)%R by (unfold Q2R; cbn; lra).
  replace (Q2R 2) with 2%R by (unfold Q2R; cbn; lra).
  unfold Rdiv. ring.
Qed.

Lemma Q2R_pi_sum (n : nat) :
  Q2R (pi_sum n) = sum_f_R0 (tg_alt PI_2_3_7_tg) n.
Proof.
  induction n as [|n IH]; cbn [pi_sum sum_f_R0].
  - apply Q2R_pi_term.
  - rewrite Q2R_plus, IH, Q2R_pi_term. reflexivity.
Qed.

(** Nineteen terms of the series for [PI / 4] give [PI] to 17 decimals. *)
Lemma PI_bounds :
  (IZR 314159265358979323 / IZR (10 ^ 17) < PI
   < IZR 314159265358979324 / IZR (10 ^ 17))%R.
Proof.
  pose proof (PI_2_3_7_ineq 9) as [Hlo Hhi].
  rewrite <- Q2R_pi_sum in Hlo, Hhi.
  assert (Qlo : (314159265358979323 # 400000000000000000
                 < pi_sum (S (2 * 9)))%Q).
  { vm_compute. reflexivity. }
  assert (Qhi : (pi_sum (2 * 9)
                 < 314159265358979324 # 400000000000000000)%Q).
  { vm_compute. reflexivity. }
  apply Qlt_Rlt in Qlo, Qhi.
  unfold Q2R at 1 in Qlo. unfold Q2R at 2 in Qhi. cbn [Qnum Qden] in Qlo, Qhi.
  change (10 ^ 17) with 100000000000000000.
  lra.
Qed.

Lemma exact_count_at_10624215277 :
  Zfloor (PI / 4 * sqrt (IZR 10624215277)) = 80953.
Proof.
  pose proof PI_bounds as [Hlo Hhi].
  change (10 ^ 17) with 100000000000000000 in Hlo, Hhi.
  set (S := sqrt (IZR 10624215277)).
  assert (HS : (IZR 1030738341044903597 / IZR 10000000000000 < S
                < IZR 1030738341044903598 / IZR 10000000000000)%R).
  { unfold S. split.
    - rewrite <- (sqrt_square (IZR 1030738341044903597 / IZR 10000000000000))
        by lra.
      apply sqrt_lt_1_alt. lra.
    - rewrite <- (sqrt_square (IZR 1030738341044903598 / IZR 10000000000000))
        by lra.
      apply sqrt_lt_1_alt. lra. }
  destruct HS as [Slo Shi].
  apply Zfloor_eq. split.
  - apply Rle_trans
      with (IZR 314159265358979323 / IZR 100000000000000000 / 4
            * (IZR 1030738341044903597 / IZR 10000000000000))%R; [lra|].
    apply Rmult_le_compat; lra.
  - apply Rlt_le_trans
      with (IZR 314159265358979324 / IZR 100000000000000000 / 4
            * (IZR 1030738341044903598 / IZR 10000000000000))%R; [|lra].
    apply Rmult_le_0_lt_compat; lra.
Qed.

(** At 10624215277 the doubles give 80954 where the exact
    [floor(pi/4 * sqrt(space_size))] is 80953; the search space of length
    172 over the 62 symbols has no iteration count, [math.sqrt] raises. *)
Lemma iteration_count_differs :
  2 <= 10624215277
  /\ iteration_count 10624215277 = Ok 80954
  /\ Z.max 1 (Zfloor (PI / 4 * sqrt (IZR 10624215277))) = 80953
  /\ 2 <= 62 ^ 172
  /\ iteration_count (62 ^ 172) = Raise OverflowError.
Proof.
  split; [lia|]. split; [vm_compute; reflexivity|].
  split; [rewrite exact_count_at_10624215277; reflexivity|].
  split; vm_compute; [discriminate | reflexivity].
Qed.

(** ** The qubit count *)



Lemma math_log2_ok_positive (libm_log2 : double -> double) (N : Z)
  (d : double) :
  math_log2 libm_log2 N = Ok d -> 1 <= N.
Proof.
  unfold math_log2. destruct (N <=? 0) eqn:E; [discriminate|].
  apply Z.leb_gt in E. lia.
Qed.







(** ** Properties of the result interpretation *)

Lemma max_item_from_spec (items : counts) :
  forall best,
  let m := max_item_from best items in
  (m = best \/ In m items)
  /\ snd best <= snd m
  /\ (forall it, In it items -> snd it <= snd m).
Proof.
  induction items as [|it rest IH]; intros best; simpl.
  - repeat split; [left; reflexivity | lia | contradiction].
  - destruct (IH (if snd best <? snd it then it else best))
      as (Hm & Hb & Hall).
    destruct (snd best <? snd it) eqn:E;
      [apply Z.ltb_lt in E | apply Z.ltb_ge in E].
    + repeat split.
      * destruct Hm as [->|Hm]; right; auto.
      * lia.
      * intros it' [<-|Hin]; [lia | apply Hall; exact Hin].
    + repeat split.
      * destruct Hm as [->|Hm]; [left|right]; auto.
      * lia.
      * intros it' [<-|Hin]; [lia | apply Hall; exact Hin].
Qed.

Lemma is_digit01_cases (c : ascii) :
  is_digit01 c = true -> c = "0"%char \/ c = "1"%char.
Proof.
  unfold is_digit01. intros H. apply orb_true_iff in H.
  destruct H as [H|H]; apply Ascii.eqb_eq in H; auto.
Qed.

Lemma forallb_rev {A : Type} (f : A -> bool) (l : list A) :
  forallb f (rev l) = forallb f l.
Proof.
  induction l as [|x l IH]; [reflexivity|].
  cbn [rev forallb]. rewrite forallb_app, IH. cbn [forallb].
  rewrite andb_true_r. apply andb_comm.
Qed.

(** A string of binary digits has no blank to strip. *)
Lemma lstrip_digits (s : str) : forallb is_digit01 s = true -> lstrip s = s.
Proof.
  destruct s as [|c s]; [reflexivity|]. cbn [forallb]. intros H.
  apply andb_true_iff in H. destruct H as [Hc _].
  destruct (is_digit01_cases c Hc) as [-> | ->]; reflexivity.
Qed.

Lemma strip_digits (s : str) : forallb is_digit01 s = true -> strip s = s.
Proof.
  intros H. unfold strip. rewrite (lstrip_digits s H).
  rewrite lstrip_digits by (rewrite forallb_rev; exact H).
  apply rev_involutive.
Qed.

Lemma int_base2_loop_bits (s : str) :
  forallb is_digit01 s = true ->
  forall acc,
    int_base2_loop acc s
    = Ok (fold_left (fun a (x : bool) => 2 * a + (if x then 1 else 0))
            (map is_one s) acc).
Proof.
  induction s as [|c s IH]; intros Hd acc; [reflexivity|].
  cbn [forallb] in Hd. apply andb_true_iff in Hd. destruct Hd as [Hc Hs].
  cbn [int_base2_loop map fold_left].
  destruct (is_digit01_cases c Hc) as [-> | ->].
  - change (bit_value "0"%char) with (Some 0).
    change (is_one "0"%char) with false. cbv iota. apply IH; exact Hs.
  - change (bit_value "1"%char) with (Some 1).
    change (is_one "1"%char) with true. cbv iota. apply IH; exact Hs.
Qed.

(** On a key made of binary digits [int(key, 2)] is the number whose
    binary digits the key lists, first character most significant. *)
Lemma int_base2_bitstring_value (s : str) :
  is_bitstring s = true -> int_base2 s = Ok (basis_index (map is_one s)).
Proof.
  destruct s as [|c s]; [discriminate|]. intros Hs.
  change (forallb is_digit01 (c :: s) = true) in Hs.
  unfold int_base2. rewrite strip_digits by exact Hs.
  cbn [forallb] in Hs. apply andb_true_iff in Hs. destruct Hs as [Hc Hs].
  pose proof (int_base2_loop_bits s Hs) as Hloop.
  unfold basis_index. cbn [map fold_left].
  destruct s as [|b s].
  - destruct (is_digit01_cases c Hc) as [-> | ->]; reflexivity.
  - assert (Hb : is_digit01 b = true).
    { cbn [forallb] in Hs. apply andb_true_iff in Hs. apply Hs. }
    destruct (is_digit01_cases c Hc) as [-> | ->];
      destruct (is_digit01_cases b Hb) as [-> | ->];
      cbv beta iota delta [Ascii.eqb Bool.eqb andb orb bit_value bind];
      rewrite Hloop; reflexivity.
Qed.

Lemma int_base2_bitstring (s : str) :
  is_bitstring s = true -> exists idx, int_base2 s = Ok idx.
Proof.
  intros Hs. eexists. apply int_base2_bitstring_value; exact Hs.
Qed.

(** C8 : On a non-empty distribution whose keys are bitstrings, the
    interpretation picks an entry of maximal count, reads its key in base 2
    (the number whose binary digits the key lists, first character most
    significant), decodes that index with [index_to_text], and reports
    success exactly when the index read equals [target_index]. *)
Theorem parse_result_selects_mode (cs : str) (cnts : counts)
  (target_index : Z) (L : nat) :
  cs <> [] ->
  cnts <> [] ->
  (forall key c, In (key, c) cnts -> is_bitstring key = true) ->
  exists key cnt idx text matched,
    In (key, cnt) cnts
    /\ (forall k c, In (k, c) cnts -> c <= cnt)
    /\ idx = basis_index (map is_one key)
    /\ int_base2 key = Ok idx
    /\ index_to_text cs idx L = Ok text
    /\ parse_result cs cnts target_index L = Ok (matched, Some text, cnts)
    /\ (matched = true <-> idx = target_index).
Proof.
  intros Hcs Hne Hkeys. destruct cnts as [|it rest]; [congruence|].
  cbn [parse_result].
  destruct (max_item_from_spec rest it) as (Hm & Hb & Hall).
  set (m := max_item_from it rest) in *.
  assert (Hin : In m (it :: rest)).
  { destruct Hm as [->|Hm]; [left | right]; auto. }
  destruct m as [key cnt] eqn:Em.
  pose proof (int_base2_bitstring_value key (Hkeys key cnt Hin)) as Hidx.
  set (idx := basis_index (map is_one key)) in *.
  exists key, cnt, idx, (rev (lsb_chars cs L idx)), (idx =? target_index).
  split; [exact Hin|]. split.
  { intros k c [E|Hkc]; [subst it; exact Hb | apply (Hall (k, c) Hkc)]. }
  split; [reflexivity|].
  split; [exact Hidx|].
  split; [apply index_to_text_spec; exact Hcs|].
  split; [|apply Z.eqb_eq].
  cbn [fst]. rewrite Hidx; cbn [bind].
  rewrite index_to_text_spec by exact Hcs. reflexivity.
Qed.

Lemma parse_result_selects_mode_witness :
  (exists key cnt idx text matched,
    In (key, cnt) [(list_ascii_of_string "01", 100);
                   (list_ascii_of_string "10", 824);
                   (list_ascii_of_string "11", 100)]
    /\ (forall k c,
          In (k, c) [(list_ascii_of_string "01", 100);
                     (list_ascii_of_string "10", 824);
                     (list_ascii_of_string "11", 100)] -> c <= cnt)
    /\ idx = basis_index (map is_one key)
    /\ int_base2 key = Ok idx
    /\ index_to_text abcd idx 1 = Ok text
    /\ parse_result abcd
         [(list_ascii_of_string "01", 100);
          (list_ascii_of_string "10", 824);
          (list_ascii_of_string "11", 100)] 2 1
       = Ok (matched, Some text,
             [(list_ascii_of_string "01", 100);
              (list_ascii_of_string "10", 824);
              (list_ascii_of_string "11", 100)])
    /\ (matched = true <-> idx = 2))
  /\ parse_result abcd
       [(list_ascii_of_string "01", 100);
        (list_ascii_of_string "10", 824);
        (list_ascii_of_string "11", 100)] 2 1
     = Ok (true, Some (list_ascii_of_string "c"),
           [(list_ascii_of_string "01", 100);
            (list_ascii_of_string "10", 824);
            (list_ascii_of_string "11", 100)])
  /\ parse_result abcd
       [(list_ascii_of_string "01", 100);
        (list_ascii_of_string "10", 824);
        (list_ascii_of_string "11", 100)] 3 1
     = Ok (false, Some (list_ascii_of_string "c"),
           [(list_ascii_of_string "01", 100);
            (list_ascii_of_string "10", 824);
            (list_ascii_of_string "11", 100)]).
Proof.
  split; [|split; reflexivity].
  apply (parse_result_selects_mode abcd).
  - discriminate.
  - discriminate.
  - intros key c [E|[E|[E|[]]]]; inversion E; reflexivity.
Defined.

(** ** The backend field across [quantum_search] *)

Lemma quantum_search_keeps_backend (simple_hash : str -> str)
  (libm_log2 : double -> double)
  (aer_run : circuit -> result counts)
  (ibm_run : str -> circuit -> option counts)
  (self : cracker) (target_hash : str) (L : nat) (bk : backend_t) :
  backend self = Some bk ->
  backend (snd (quantum_search simple_hash libm_log2 aer_run ibm_run self
                  target_hash L))
  = Some bk.
Proof.
  destruct self as [cs att qi sv bk0]. cbn [backend]. intros ->.
  unfold quantum_search. cbn [charset backend].
  destruct (qubit_count _) as [nq|e]; [|reflexivity].
  destruct (iteration_count _) as [it|e]; [|reflexivity].
  cbn [charset set_quantum_iterations backend attempts service].
  destruct (find_target _ _ _ _) as [[ti|]|e]; [| reflexivity | reflexivity].
  destruct (checked_circuit _ _) as [qc|e]; [|reflexivity].
  destruct bk as [|name].
  - destruct (aer_run qc); reflexivity.
  - destruct (ibm_run name qc); reflexivity.
Qed.

(** When [quantum_search] raises, the restoring assignment is not reached
    and the simulator stays installed. *)
Lemma quantum_search_aer_raise (simple_hash : str -> str)
  (libm_log2 : double -> double)
  (aer_run : circuit -> result counts)
  (ibm_run : str -> circuit -> option counts)
  (self : cracker) (target_hash : str) (L : nat) (e : exn) (self' : cracker) :
  quantum_search_aer simple_hash libm_log2 aer_run ibm_run self target_hash L
  = (Raise e, self') ->
  backend self' = Some AerSimulator.
Proof.
  unfold quantum_search_aer.
  pose proof (quantum_search_keeps_backend simple_hash libm_log2 aer_run ibm_run
                (set_backend self (Some AerSimulator)) target_hash L
                AerSimulator eq_refl) as Hk.
  destruct (quantum_search _ _ _ _ _ _ _) as [[r|e'] st]; intros E;
    inversion E; subst. exact Hk.
Qed.

(** ** Properties of the backend field *)

(** C9 : When [quantum_search_aer] returns, [self.backend] is what it was
    before the call, whatever [quantum_search] returned; the same holds for
    [quantum_search_ibm]. *)
Theorem backend_restored (simple_hash : str -> str)
  (libm_log2 : double -> double)
  (aer_run : circuit -> result counts)
  (ibm_run : str -> circuit -> option counts)
  (self : cracker) (target_hash : str) (L : nat) :
  (forall res self',
     quantum_search_aer simple_hash libm_log2 aer_run ibm_run self target_hash L
     = (Ok res, self') ->
     backend self' = backend self)
  /\ (forall backend_name res self',
     quantum_search_ibm simple_hash libm_log2 aer_run ibm_run self target_hash L
       backend_name = (Ok res, self') ->
     backend self' = backend self).
Proof.
  split.
  - intros res self'. unfold quantum_search_aer.
    destruct (quantum_search _ _ _ _ _ _ _) as [[r|e] st]; intros E;
      inversion E; subst; reflexivity.
  - intros backend_name res self'. unfold quantum_search_ibm.
    destruct (service self); [|intros E; inversion E; subst; reflexivity].
    destruct (quantum_search _ _ _ _ _ _ _) as [[r|e] st]; intros E;
      inversion E; subst; reflexivity.
Qed.

Lemma backend_restored_witness :
  exists res self',
    quantum_search_aer (fun s => s) log2_floor
      (fun _ => Ok [(list_ascii_of_string "10", 1024)]) (fun _ _ => None)
      (mkCracker abcd 0 0 None (Some (IBMBackend (list_ascii_of_string "ibm_brisbane"))))
      (list_ascii_of_string "c") 1
    = (Ok res, self')
    /\ backend self' = Some (IBMBackend (list_ascii_of_string "ibm_brisbane")).
Proof.
  eexists; eexists. split.
  - reflexivity.
  - eapply (proj1 (backend_restored (fun s => s) log2_floor
             (fun _ => Ok [(list_ascii_of_string "10", 1024)])
             (fun _ _ => None)
             (mkCracker abcd 0 0 None
                (Some (IBMBackend (list_ascii_of_string "ibm_brisbane"))))
             (list_ascii_of_string "c") 1)).
    reflexivity.
Defined.

(** ** Basis states: reading and writing one wire *)

Lemma set_bit_length (q : nat) (v : bool) (b : basis) :
  length (set_bit q v b) = length b.
Proof.
  revert q; induction b as [|x b IH]; intros [|q]; simpl; auto.
Qed.

Lemma bit_set_bit_eq (q : nat) (v : bool) (b : basis) :
  (q < length b)%nat -> bit q (set_bit q v b) = v.
Proof.
  unfold bit; revert q; induction b as [|x b IH]; intros [|q] Hq;
    simpl in *; try lia; auto.
  apply IH; lia.
Qed.

Lemma bit_set_bit_neq (q q' : nat) (v : bool) (b : basis) :
  q <> q' -> bit q' (set_bit q v b) = bit q' b.
Proof.
  unfold bit; revert q q'; induction b as [|x b IH]; intros [|q] [|q'] Hne;
    simpl; auto; try congruence.
Qed.

Lemma set_bit_set_bit (q : nat) (v v' : bool) (b : basis) :
  set_bit q v (set_bit q v' b) = set_bit q v b.
Proof.
  revert q; induction b as [|x b IH]; intros [|q]; simpl; auto.
  rewrite IH; reflexivity.
Qed.

Lemma set_bit_same (q : nat) (b : basis) : set_bit q (bit q b) b = b.
Proof.
  unfold bit; revert q; induction b as [|x b IH]; intros [|q]; simpl; auto.
  rewrite IH; reflexivity.
Qed.

Lemma set_bit_comm (q q' : nat) (v v' : bool) (b : basis) :
  q <> q' ->
  set_bit q v (set_bit q' v' b) = set_bit q' v' (set_bit q v b).
Proof.
  revert q q'; induction b as [|x b IH]; intros [|q] [|q'] Hne; simpl; auto;
    try congruence.
  rewrite IH by congruence; reflexivity.
Qed.

Lemma flip_bit_length (q : nat) (b : basis) :
  length (flip_bit q b) = length b.
Proof. apply set_bit_length. Qed.

Lemma flip_bit_middle (pre : basis) (x : bool) (tl : basis) :
  flip_bit (length pre) (pre ++ x :: tl) = pre ++ negb x :: tl.
Proof.
  unfold flip_bit, bit. induction pre as [|y pre IH]; simpl; [reflexivity|].
  rewrite IH; reflexivity.
Qed.

Lemma set_bit_of_false (q : nat) (b : basis) :
  bit q b = false -> set_bit q false b = b.
Proof. intros E; rewrite <- E; apply set_bit_same. Qed.

Lemma set_bit_of_true (q : nat) (b : basis) :
  bit q b = true -> set_bit q true b = b.
Proof. intros E; rewrite <- E; apply set_bit_same. Qed.

(** ** Amplitude arithmetic of the Hadamard sandwich *)

Lemma inv_sqrt2_sqr : (/ sqrt 2 * / sqrt 2 = / 2)%R.
Proof.
  rewrite <- Rinv_mult. f_equal. apply sqrt_sqrt; lra.
Qed.

Lemma half_twice (s x y : R) :
  (s * s = / 2 -> s * (s * (x + y) + s * (x - y)) = x)%R.
Proof.
  intros Hs.
  replace (s * (s * (x + y) + s * (x - y)))%R with (s * s * (2 * x))%R by ring.
  rewrite Hs; field.
Qed.

Lemma half_diff (s x y : R) :
  (s * s = / 2 -> s * (s * (x + y) - s * (x - y)) = y)%R.
Proof.
  intros Hs.
  replace (s * (s * (x + y) - s * (x - y)))%R with (s * s * (2 * y))%R by ring.
  rewrite Hs; field.
Qed.

Lemma half_twice_swapped (s x y : R) :
  (s * s = / 2 -> s * (s * (x - y) + s * (x + y)) = x)%R.
Proof.
  intros Hs.
  replace (s * (s * (x - y) + s * (x + y)))%R with (s * s * (2 * x))%R by ring.
  rewrite Hs; field.
Qed.

Lemma half_diff_swapped (s x y : R) :
  (s * s = / 2 -> s * (s * (x - y) - s * (x + y)) = - y)%R.
Proof.
  intros Hs.
  replace (s * (s * (x - y) - s * (x + y)))%R
    with (- (s * s * (2 * y)))%R by ring.
  rewrite Hs; field.
Qed.

Lemma had_sum (a b : amp) :
  Cscale (/ sqrt 2)
    (Cadd (Cscale (/ sqrt 2) (Cadd a b)) (Cscale (/ sqrt 2) (Csub a b))) = a.
Proof.
  destruct a as [ar ai], b as [br bi]; unfold Cscale, Cadd, Csub; simpl.
  f_equal; apply half_twice, inv_sqrt2_sqr.
Qed.

Lemma had_diff (a b : amp) :
  Cscale (/ sqrt 2)
    (Csub (Cscale (/ sqrt 2) (Cadd a b)) (Cscale (/ sqrt 2) (Csub a b))) = b.
Proof.
  destruct a as [ar ai], b as [br bi]; unfold Cscale, Cadd, Csub; simpl.
  f_equal; apply half_diff, inv_sqrt2_sqr.
Qed.

Lemma had_sum_swapped (a b : amp) :
  Cscale (/ sqrt 2)
    (Cadd (Cscale (/ sqrt 2) (Csub a b)) (Cscale (/ sqrt 2) (Cadd a b))) = a.
Proof.
  destruct a as [ar ai], b as [br bi]; unfold Cscale, Cadd, Csub; simpl.
  f_equal; apply half_twice_swapped, inv_sqrt2_sqr.
Qed.

Lemma had_diff_swapped (a b : amp) :
  Cscale (/ sqrt 2)
    (Csub (Cscale (/ sqrt 2) (Csub a b)) (Cscale (/ sqrt 2) (Cadd a b)))
  = Copp b.
Proof.
  destruct a as [ar ai], b as [br bi]; unfold Cscale, Cadd, Csub, Copp; simpl.
  f_equal; apply half_diff_swapped, inv_sqrt2_sqr.
Qed.

(** ** Controls and the all-ones test *)
Lemma forallb_ext_in {A : Type} (f g : A -> bool) (l : list A) :
  (forall x, In x l -> f x = g x) -> forallb f l = forallb g l.
Proof.
  induction l as [|x l IH]; simpl; intros Hfg; [reflexivity|].
  rewrite Hfg, IH; auto.
Qed.

Lemma controls_set_bit (t : nat) (v : bool) (b : basis) (cs : list nat) :
  (forall c, In c cs -> c <> t) ->
  forallb (fun c => bit c (set_bit t v b)) cs = forallb (fun c => bit c b) cs.
Proof.
  intros Hc. apply forallb_ext_in; intros c Hin.
  apply bit_set_bit_neq. intros E; apply (Hc c Hin); auto.
Qed.

Lemma all_ones_from (b : basis) :
  forall k, forallb (fun x : bool => x) b
            = forallb (fun c => nth (c - k) b false) (seq k (length b)).
Proof.
  induction b as [|x b IH]; intros k; simpl; [reflexivity|].
  rewrite Nat.sub_diag. f_equal. rewrite (IH (S k)).
  apply forallb_ext_in; intros c Hc. apply in_seq in Hc.
  replace (c - k)%nat with (S (c - S k)) by lia. reflexivity.
Qed.

Lemma all_ones_bits (b : basis) :
  forallb (fun x : bool => x) b = forallb (fun c => bit c b) (seq 0 (length b)).
Proof.
  rewrite (all_ones_from b 0). apply forallb_ext_in; intros c _.
  unfold bit. rewrite Nat.sub_0_r; reflexivity.
Qed.

Ltac wire_simpl Hq :=
  repeat first
    [ rewrite set_bit_set_bit
    | rewrite bit_set_bit_eq by (rewrite ?set_bit_length; exact Hq)
    | progress cbn [negb] ].

Lemma hadamard_twice (q : nat) (psi : state) (b : basis) :
  (q < length b)%nat ->
  apply_gate (Hadamard q) (apply_gate (Hadamard q) psi) b = psi b.
Proof.
  intros Hq. cbn [apply_gate]. cbv zeta.
  wire_simpl Hq.
  destruct (bit q b) eqn:Eb.
  - rewrite had_diff. rewrite set_bit_of_true; auto.
  - rewrite had_sum. rewrite set_bit_of_false; auto.
Qed.

Lemma mcz_run (n : nat) (psi : state) (b : basis) :
  (2 <= n)%nat -> length b = n ->
  run [Hadamard (n - 1); MultiControlledX (seq 0 (n - 1)) (n - 1);
       Hadamard (n - 1)] psi b
  = if forallb (fun x : bool => x) b then Copp (psi b) else psi b.
Proof.
  intros Hn Hlen. set (t := (n - 1)%nat).
  assert (Ht : (t < length b)%nat) by (unfold t; lia).
  assert (Hcs : forall c, In c (seq 0 t) -> c <> t).
  { intros c Hc; apply in_seq in Hc; lia. }
  rewrite all_ones_bits, Hlen.
  replace (seq 0 n) with (seq 0 (S t)) by (f_equal; unfold t; lia).
  rewrite seq_S, forallb_app; cbn [forallb Nat.add]. rewrite andb_true_r.
  unfold run; cbn [fold_left apply_gate]. cbv zeta.
  rewrite !controls_set_bit by exact Hcs.
  unfold flip_bit. wire_simpl Ht.
  destruct (forallb (fun c => bit c b) (seq 0 t)) eqn:Ec;
    destruct (bit t b) eqn:Eb; cbn [andb].
  - rewrite had_diff_swapped, set_bit_of_true; auto.
  - rewrite had_sum_swapped, set_bit_of_false; auto.
  - rewrite had_diff, set_bit_of_true; auto.
  - rewrite had_sum, set_bit_of_false; auto.
Qed.

(** ** Running a circuit *)

Lemma run_app (c1 c2 : circuit) (psi : state) :
  run (c1 ++ c2) psi = run c2 (run c1 psi).
Proof. unfold run; apply fold_left_app. Qed.

Lemma run_cons (g : gate) (c : circuit) (psi : state) :
  run (g :: c) psi = run c (apply_gate g psi).
Proof. reflexivity. Qed.

Lemma x_where_zero_map (bits : str) :
  forall k, x_where_zero k bits = map PauliX (zero_wires k bits).
Proof.
  induction bits as [|c bits IH]; intros k; simpl; [reflexivity|].
  rewrite map_app, IH. destruct (Ascii.eqb c "0"%char); reflexivity.
Qed.

Lemma run_x_layer (qs : list nat) :
  forall psi b, run (map PauliX qs) psi b = psi (flip_bits qs b).
Proof.
  induction qs as [|q qs IH]; intros psi b; [reflexivity|].
  cbn [map]. rewrite run_cons, IH. reflexivity.
Qed.

Lemma flip_bits_app (l1 l2 : list nat) (b : basis) :
  flip_bits (l1 ++ l2) b = flip_bits l1 (flip_bits l2 b).
Proof. unfold flip_bits; apply fold_right_app. Qed.

Lemma flip_bits_zero_wires (bits : str) :
  forall pre b k, k = length pre -> length b = length bits ->
  flip_bits (zero_wires k bits) (pre ++ b) = pre ++ mask_flip bits b.
Proof.
  induction bits as [|c bits IH]; intros pre [|x b] k Hk Hlen; simpl in Hlen;
    try discriminate; [reflexivity|].
  cbn [zero_wires mask_flip]. rewrite flip_bits_app.
  replace (pre ++ x :: b) with ((pre ++ [x]) ++ b)
    by (rewrite <- app_assoc; reflexivity).
  rewrite (IH (pre ++ [x]) b (S k))
    by (rewrite ?length_app; simpl; lia).
  rewrite <- app_assoc; cbn [app].
  destruct (Ascii.eqb c "0"%char); [|reflexivity].
  cbn [flip_bits fold_right]. subst k. apply flip_bit_middle.
Qed.

Lemma mask_flip_length (bits : str) :
  forall b, length (mask_flip bits b) = length b.
Proof.
  induction bits as [|c bits IH]; intros [|x b]; simpl; auto.
Qed.

Lemma mask_flip_involutive (bits : str) :
  forall b, mask_flip bits (mask_flip bits b) = b.
Proof.
  induction bits as [|c bits IH]; intros [|x b]; simpl; auto.
  rewrite IH. destruct (Ascii.eqb c "0"%char); [rewrite negb_involutive|];
    reflexivity.
Qed.

Lemma mask_flip_all_ones (bits : str) :
  forallb is_digit01 bits = true ->
  forall b, length b = length bits ->
  (forallb (fun x : bool => x) (mask_flip bits b) = true
   <-> b = map is_one bits).
Proof.
  induction bits as [|c bits IH]; intros Hd [|x b] Hlen; simpl in Hlen;
    try discriminate; [split; reflexivity|].
  cbn [forallb] in Hd. apply andb_true_iff in Hd; destruct Hd as [Hc Hd].
  cbn [mask_flip forallb map]. rewrite andb_true_iff, (IH Hd b) by lia.
  unfold is_digit01 in Hc; unfold is_one.
  destruct (Ascii.eqb c "0"%char) eqn:E0.
  - apply Ascii.eqb_eq in E0; subst c. cbn [Ascii.eqb].
    change (Ascii.eqb "0" "1") with false.
    destruct x; simpl; split; intros H; try (destruct H; congruence);
      inversion H; subst; auto.
  - simpl in Hc. rewrite Hc.
    destruct x; simpl; split; intros H; try (destruct H; congruence);
      inversion H; subst; auto.
Qed.

(** ** Numbering of basis states *)

Lemma basis_index_acc (b : basis) :
  forall acc,
  fold_left (fun a (x : bool) => 2 * a + (if x then 1 else 0)) b acc
  = acc * 2 ^ Z.of_nat (length b) + basis_index b.
Proof.
  unfold basis_index. induction b as [|x b IH]; intros acc.
  - simpl; lia.
  - cbn [fold_left]. rewrite IH. rewrite (IH (2 * 0 + _)).
    cbn [length]. rewrite Nat2Z.inj_succ, Z.pow_succ_r by lia. ring.
Qed.

Lemma basis_index_cons (x : bool) (b : basis) :
  basis_index (x :: b)
  = (if x then 1 else 0) * 2 ^ Z.of_nat (length b) + basis_index b.
Proof.
  unfold basis_index at 1. cbn [fold_left]. rewrite basis_index_acc.
  f_equal.
Qed.

Lemma basis_index_snoc (b : basis) (x : bool) :
  basis_index (b ++ [x]) = 2 * basis_index b + (if x then 1 else 0).
Proof. unfold basis_index. rewrite fold_left_app. reflexivity. Qed.

Lemma basis_index_bound (b : basis) :
  0 <= basis_index b < 2 ^ Z.of_nat (length b).
Proof.
  induction b as [|x b IH].
  - unfold basis_index; simpl; lia.
  - rewrite basis_index_cons. cbn [length].
    rewrite Nat2Z.inj_succ, Z.pow_succ_r by lia. destruct x; lia.
Qed.

Lemma basis_index_inj (b : basis) :
  forall b', length b = length b' ->
  basis_index b = basis_index b' -> b = b'.
Proof.
  induction b as [|x b IH]; intros [|x' b'] Hlen Heq; simpl in Hlen;
    try discriminate; [reflexivity|].
  rewrite !basis_index_cons in Heq.
  pose proof (basis_index_bound b) as Hb.
  pose proof (basis_index_bound b') as Hb'.
  assert (Hl : length b = length b') by lia. rewrite <- Hl in *.
  destruct x, x'; try (f_equal; apply IH; [exact Hl | lia]); lia.
Qed.

Lemma basis_index_zeros (k : nat) (s : str) :
  basis_index (map is_one (repeat "0"%char k ++ s))
  = basis_index (map is_one s).
Proof.
  induction k as [|k IH]; [reflexivity|].
  cbn [repeat app map]. rewrite basis_index_cons, IH.
  change (is_one "0") with false. lia.
Qed.

(** ** [format(target_index, '0nb')] *)

Lemma bin_pos_digits (p : positive) : forallb is_digit01 (bin_pos p) = true.
Proof.
  induction p; simpl; rewrite ?forallb_app, ?IHp; reflexivity.
Qed.

Lemma bin_pos_value (p : positive) :
  basis_index (map is_one (bin_pos p)) = Zpos p.
Proof.
  induction p; cbn [bin_pos]; rewrite ?map_app; cbn [map];
    rewrite ?basis_index_snoc, ?IHp; try reflexivity.
Qed.

Lemma bin_pos_length (p : positive) :
  forall n : nat, Zpos p < 2 ^ Z.of_nat n -> (length (bin_pos p) <= n)%nat.
Proof.
  induction p as [p IH|p IH|]; intros [|n] Hp;
    try (simpl in Hp; lia);
    rewrite Nat2Z.inj_succ, Z.pow_succ_r in Hp by lia;
    cbn [bin_pos]; rewrite ?length_app; cbn [length].
  - specialize (IH n). lia.
  - specialize (IH n). lia.
  - lia.
Qed.

Lemma repeat_zero_digits (k : nat) :
  forallb is_digit01 (repeat "0"%char k) = true.
Proof. induction k; simpl; auto. Qed.

Section Format.

Variables (n : nat) (t : Z).
Hypothesis n_pos : (1 <= n)%nat.
Hypothesis t_range : 0 <= t < 2 ^ Z.of_nat n.

Lemma format_0b_length : length (format_0b n t) = n.
Proof.
  unfold format_0b, zfill. destruct t as [|p|p]; [| |lia].
  - rewrite length_app, repeat_length; simpl; lia.
  - pose proof (bin_pos_length p n (proj2 t_range)).
    rewrite length_app, repeat_length; lia.
Qed.

Lemma format_0b_digits : forallb is_digit01 (format_0b n t) = true.
Proof.
  unfold format_0b, zfill. destruct t as [|p|p]; [| |lia];
    rewrite forallb_app, repeat_zero_digits, ?bin_pos_digits; reflexivity.
Qed.

Lemma format_0b_value : basis_index (target_basis n t) = t.
Proof.
  unfold target_basis, format_0b, zfill. destruct t as [|p|p]; [| |lia];
    rewrite basis_index_zeros; [reflexivity | apply bin_pos_value].
Qed.

Lemma target_basis_length : length (target_basis n t) = n.
Proof. unfold target_basis; rewrite length_map; apply format_0b_length. Qed.

Lemma all_ones_after_mask (b : basis) :
  length b = n ->
  forallb (fun x : bool => x) (mask_flip (format_0b n t) b)
  = (basis_index b =? t).
Proof.
  intros Hlen.
  pose proof (mask_flip_all_ones _ format_0b_digits b) as Hiff.
  rewrite format_0b_length in Hiff. specialize (Hiff Hlen).
  fold (target_basis n t) in Hiff.
  destruct (basis_index b =? t) eqn:E.
  - apply Z.eqb_eq in E. apply Hiff. apply basis_index_inj.
    + rewrite target_basis_length; exact Hlen.
    + rewrite format_0b_value; exact E.
  - apply Z.eqb_neq in E. apply not_true_is_false. intros Hall.
    apply E. apply Hiff in Hall. rewrite Hall. apply format_0b_value.
Qed.

End Format.

(** ** The oracle on a state vector *)

Section Oracle.

Variables (n : nat) (t : Z).
Hypothesis n_pos : (1 <= n)%nat.
Hypothesis t_range : 0 <= t < 2 ^ Z.of_nat n.

Lemma x_layer_run (psi : state) (b : basis) :
  length b = n ->
  run (x_where_zero 0 (format_0b n t)) psi b
  = psi (mask_flip (format_0b n t) b).
Proof.
  intros Hlen. rewrite x_where_zero_map, run_x_layer.
  f_equal. apply (flip_bits_zero_wires (format_0b n t) [] b 0%nat);
    [reflexivity|].
  rewrite format_0b_length; assumption.
Qed.

(** With two qubits or more the oracle negates the amplitude of the
    basis state numbered [t] and no other. *)
Lemma oracle_flips_target (psi : state) (b : basis) :
  (2 <= n)%nat -> length b = n ->
  run (_oracle n t) psi b
  = if basis_index b =? t then Copp (psi b) else psi b.
Proof.
  intros Hn Hlen. unfold _oracle.
  destruct (1 <? n)%nat eqn:E; [|apply Nat.ltb_ge in E; lia].
  cbn [app]. set (bits := format_0b n t).
  change (Hadamard (n - 1)
          :: MultiControlledX (seq 0 (n - 1)) (n - 1)
          :: Hadamard (n - 1) :: x_where_zero 0 bits)
    with ([Hadamard (n - 1); MultiControlledX (seq 0 (n - 1)) (n - 1);
           Hadamard (n - 1)] ++ x_where_zero 0 bits).
  rewrite !run_app. unfold bits.
  rewrite x_layer_run by exact Hlen.
  rewrite mcz_run by (rewrite ?mask_flip_length; assumption).
  rewrite x_layer_run by (rewrite mask_flip_length; exact Hlen).
  rewrite mask_flip_involutive, all_ones_after_mask by assumption.
  reflexivity.
Qed.

(** With one qubit the two Hadamards meet and cancel: the oracle leaves
    every amplitude as it was. *)
Lemma oracle_one_qubit (psi : state) (b : basis) :
  n = 1%nat -> length b = n -> run (_oracle n t) psi b = psi b.
Proof.
  intros Hn Hlen. unfold _oracle.
  destruct (1 <? n)%nat eqn:E; [apply Nat.ltb_lt in E; lia|].
  cbn [app]. set (bits := format_0b n t).
  change (Hadamard (n - 1) :: Hadamard (n - 1) :: x_where_zero 0 bits)
    with ([Hadamard (n - 1); Hadamard (n - 1)] ++ x_where_zero 0 bits).
  rewrite !run_app. unfold bits.
  rewrite x_layer_run by exact Hlen.
  unfold run at 1; cbn [fold_left].
  rewrite hadamard_twice by (rewrite mask_flip_length; lia).
  rewrite x_layer_run by (rewrite mask_flip_length; exact Hlen).
  rewrite mask_flip_involutive. reflexivity.
Qed.

End Oracle.

(** ** Exchanging gates on different wires *)

#[local] Instance state_eq_equiv : Equivalence state_eq.
Proof.
  split.
  - intros psi b; reflexivity.
  - intros psi phi E b; symmetry; apply E.
  - intros psi phi chi E1 E2 b; rewrite E1; apply E2.
Qed.

#[local] Instance apply_gate_proper (g : gate) :
  Proper (state_eq ==> state_eq) (apply_gate g).
Proof.
  intros psi phi E b. destruct g as [q|q|cs tg]; cbn [apply_gate].
  - apply E.
  - cbv zeta. rewrite !E. reflexivity.
  - destruct (forallb _ cs); apply E.
Qed.

#[local] Instance run_proper (c : circuit) :
  Proper (state_eq ==> state_eq) (run c).
Proof.
  induction c as [|g c IH]; intros psi phi E; [exact E|].
  rewrite !run_cons. apply IH, apply_gate_proper, E.
Qed.

Lemma flip_bit_set_bit_comm (q q' : nat) (v : bool) (b : basis) :
  q <> q' -> flip_bit q (set_bit q' v b) = set_bit q' v (flip_bit q b).
Proof.
  intros Hne. unfold flip_bit.
  rewrite bit_set_bit_neq by congruence. apply set_bit_comm; exact Hne.
Qed.

Lemma commute_X_H (q q' : nat) :
  q <> q' -> commute (PauliX q) (Hadamard q').
Proof.
  intros Hne psi b. cbn [apply_gate]. cbv zeta.
  rewrite !flip_bit_set_bit_comm by exact Hne.
  unfold flip_bit at 1. rewrite bit_set_bit_neq by exact Hne. reflexivity.
Qed.

Lemma commute_sym (g h : gate) : commute g h -> commute h g.
Proof. intros C psi b; symmetry; apply C. Qed.

Lemma run_commute (g : gate) (c : circuit) :
  (forall h, In h c -> commute g h) ->
  forall psi, state_eq (run c (apply_gate g psi)) (apply_gate g (run c psi)).
Proof.
  induction c as [|h c IH]; intros Hc psi; [reflexivity|].
  rewrite !run_cons.
  assert (E : state_eq (apply_gate h (apply_gate g psi))
                       (apply_gate g (apply_gate h psi))).
  { intros b; symmetry; apply Hc; left; reflexivity. }
  rewrite E. apply IH. intros h' Hh'; apply Hc; right; exact Hh'.
Qed.

Lemma interleaved_HX (qs : list nat) :
  NoDup qs ->
  forall psi,
  state_eq
    (run (flat_map (fun q => [Hadamard q; PauliX q]) qs) psi)
    (run (map Hadamard qs ++ map PauliX qs) psi).
Proof.
  induction 1 as [|q qs Hq Hnd IH]; intros psi; [reflexivity|].
  cbn [flat_map map app]. rewrite !run_cons, IH, !run_app, run_cons.
  apply run_proper. apply run_commute.
  intros h Hh. apply in_map_iff in Hh. destruct Hh as (q' & <- & Hq').
  apply commute_X_H. intros ->; contradiction.
Qed.

Lemma interleaved_XH (qs : list nat) :
  NoDup qs ->
  forall psi,
  state_eq
    (run (flat_map (fun q => [PauliX q; Hadamard q]) qs) psi)
    (run (map PauliX qs ++ map Hadamard qs) psi).
Proof.
  induction 1 as [|q qs Hq Hnd IH]; intros psi; [reflexivity|].
  cbn [flat_map map app]. rewrite !run_cons, IH, !run_app, run_cons.
  apply run_proper. apply run_commute.
  intros h Hh. apply in_map_iff in Hh. destruct Hh as (q' & <- & Hq').
  apply commute_sym, commute_X_H. intros ->; contradiction.
Qed.

Lemma zero_wires_repeat (m : nat) :
  forall k, zero_wires k (repeat "0"%char m) = seq k m.
Proof.
  induction m as [|m IH]; intros k; [reflexivity|].
  cbn [repeat zero_wires seq]. rewrite IH. reflexivity.
Qed.

Lemma x_layer_target_zero (n : nat) :
  (1 <= n)%nat ->
  x_where_zero 0 (format_0b n 0) = map PauliX (seq 0 n).
Proof.
  intros Hn. rewrite x_where_zero_map. f_equal.
  unfold format_0b, zfill. cbn [length].
  change ["0"%char] with (repeat "0"%char 1). rewrite <- repeat_app.
  rewrite zero_wires_repeat. f_equal. lia.
Qed.

Lemma diffusion_layered_run (n : nat) (psi : state) (b : basis) :
  (1 <= n)%nat ->
  run (_diffusion n) psi b = run (diffusion_layered n) psi b.
Proof.
  intros Hn. revert b. change (state_eq (run (_diffusion n) psi)
                                 (run (diffusion_layered n) psi)).
  unfold _diffusion, diffusion_layered, _oracle. cbv zeta.
  rewrite x_layer_target_zero by exact Hn.
  set (mcx := if (1 <? n)%nat
              then [MultiControlledX (seq 0 (n - 1)) (n - 1)] else []).
  rewrite !run_app.
  rewrite (interleaved_HX (seq 0 n) (seq_NoDup n 0) psi).
  rewrite (interleaved_XH (seq 0 n) (seq_NoDup n 0)).
  rewrite !run_app. reflexivity.
Qed.

Lemma diffusion_lists_differ (m : nat) :
  _diffusion (S (S m)) <> diffusion_layered (S (S m)).
Proof.
  unfold _diffusion, diffusion_layered. cbn [seq flat_map map app].
  intros E. inversion E.
Qed.

(** ** The builders stay inside the register *)

Lemma zero_wires_range (bits : str) :
  forall k q, In q (zero_wires k bits) -> (k <= q < k + length bits)%nat.
Proof.
  induction bits as [|c bits IH]; intros k q; cbn [zero_wires length];
    [contradiction|].
  intros Hin. apply in_app_or in Hin. destruct Hin as [Hin|Hin].
  - destruct (Ascii.eqb c "0"%char); [|contradiction].
    destruct Hin as [<-|[]]. lia.
  - apply IH in Hin. lia.
Qed.

Lemma oracle_wires_below (n : nat) (t : Z) :
  (1 <= n)%nat -> 0 <= t < 2 ^ Z.of_nat n ->
  wires_below n (_oracle n t) = true.
Proof.
  intros Hn Ht. unfold wires_below, _oracle. cbv zeta.
  assert (Hx : forallb
                 (fun g => forallb (fun q => (q <? n)%nat) (gate_wires g))
                 (x_where_zero 0 (format_0b n t)) = true).
  { rewrite x_where_zero_map. apply forallb_forall; intros g Hg.
    apply in_map_iff in Hg. destruct Hg as (q & <- & Hq).
    apply zero_wires_range in Hq.
    rewrite format_0b_length in Hq by assumption.
    cbn [gate_wires forallb]. rewrite andb_true_r. apply Nat.ltb_lt; lia. }
  assert (Hlast : (n - 1 <? n)%nat = true) by (apply Nat.ltb_lt; lia).
  rewrite !forallb_app, Hx. cbn [forallb gate_wires]. rewrite Hlast.
  destruct (1 <? n)%nat; cbn [forallb gate_wires andb]; [|reflexivity].
  rewrite forallb_app. cbn [forallb]. rewrite Hlast, !andb_true_r.
  apply forallb_forall; intros q Hq. apply in_seq in Hq.
  apply Nat.ltb_lt; lia.
Qed.

(** ** Properties of the oracle and the diffusion operator *)

(** C1 : The specification asks that the oracle negate the amplitude of
    the basis state numbered [target_index] for every [n >= 1]. With one
    qubit and target 0 the emitted gates are X, H, H, X: the amplitude of
    the target state comes back unchanged, so a state with amplitude 1 on
    it is not negated. ([oracle_flips_target] is the property for
    [n >= 2].) *)
Theorem oracle_single_qubit_keeps_target :
  _oracle 1 0 = [PauliX 0; Hadamard 0; Hadamard 0; PauliX 0]
  /\ basis_index [false] = 0
  /\ (forall psi : state, run (_oracle 1 0) psi [false] = psi [false])
  /\ run (_oracle 1 0) (fun _ => (1%R, 0%R)) [false]
     <> Copp (1%R, 0%R).
Proof.
  assert (Hrun : forall psi : state,
             run (_oracle 1 0) psi [false] = psi [false]).
  { intros psi. apply oracle_one_qubit; [lia | simpl; lia | | ]; reflexivity. }
  repeat split; try reflexivity; [exact Hrun|].
  rewrite Hrun. unfold Copp; simpl. intros E; inversion E; lra.
Qed.

(** C2 : With [n_qubits = 1] the builder emits no multi-controlled gate,
    and what it emits, the two Hadamards between the X layers, is the
    identity on every amplitude vector rather than a Pauli-Z: the sign of
    the target amplitude is not flipped. *)
Theorem oracle_single_qubit_is_identity (t : Z) (psi : state) (b : basis) :
  0 <= t < 2 ->
  length b = 1%nat ->
  (forall controls target,
     ~ In (MultiControlledX controls target) (_oracle 1 t))
  /\ run (_oracle 1 t) psi b = psi b.
Proof.
  intros Ht Hlen. split.
  - intros controls target Hin.
    assert (Hcases : t = 0 \/ t = 1) by lia.
    destruct Hcases as [-> | ->]; simpl in Hin;
      repeat (destruct Hin as [Hin|Hin]; [discriminate|]); exact Hin.
  - apply oracle_one_qubit; [lia | simpl; lia | reflexivity | exact Hlen].
Qed.

Lemma oracle_single_qubit_is_identity_witness :
  (forall controls target,
     ~ In (MultiControlledX controls target) (_oracle 1 1))
  /\ run (_oracle 1 1) (fun b => if bit 0 b then (1%R, 0%R) else (0%R, 0%R))
       [true]
     = (fun b => if bit 0 b then (1%R, 0%R) else (0%R, 0%R)) [true].
Proof.
  apply (oracle_single_qubit_is_identity 1
           (fun b => if bit 0 b then (1%R, 0%R) else (0%R, 0%R)) [true]).
  - lia.
  - reflexivity.
Defined.

Lemma interleaved_perm (f g : nat -> gate) (qs : list nat) :
  Permutation (flat_map (fun q => [f q; g q]) qs) (map f qs ++ map g qs).
Proof.
  induction qs as [|q qs IH]; [constructor|].
  cbn [flat_map map app]. apply perm_skip.
  apply Permutation_cons_app. exact IH.
Qed.

Lemma diffusion_perm (n : nat) :
  (1 <= n)%nat -> Permutation (_diffusion n) (diffusion_layered n).
Proof.
  intros Hn. unfold _diffusion, diffusion_layered, _oracle. cbv zeta.
  rewrite x_layer_target_zero by exact Hn.
  rewrite <- !app_assoc.
  rewrite (app_assoc (map Hadamard (seq 0 n)) (map PauliX (seq 0 n))).
  apply Permutation_app.
  - apply (interleaved_perm Hadamard PauliX).
  - do 3 apply Permutation_app_head.
    apply (interleaved_perm PauliX Hadamard).
Qed.

(** C7 (as the code has it) : For every [n >= 1] the gates of the
    diffusion builder act on every amplitude vector as Hadamard on every
    qubit, then the oracle's gates for target index 0, then Hadamard on
    every qubit, and are the same gates in another order. The builder
    emits H and X qubit by qubit, so the two gate lists coincide only for
    [n = 1]. *)
Theorem diffusion_acts_as_layered (n : nat) :
  (1 <= n)%nat ->
  (forall (psi : state) (b : basis),
     run (_diffusion n) psi b = run (diffusion_layered n) psi b)
  /\ Permutation (_diffusion n) (diffusion_layered n)
  /\ (_diffusion n = diffusion_layered n <-> n = 1%nat).
Proof.
  intros Hn. split; [|split].
  - intros psi b. apply diffusion_layered_run; exact Hn.
  - apply diffusion_perm; exact Hn.
  - split.
    + intros E. destruct n as [|[|m]]; [lia | reflexivity |].
      exfalso; exact (diffusion_lists_differ m E).
    + intros ->. reflexivity.
Qed.

Lemma diffusion_acts_as_layered_witness :
  (forall (psi : state) (b : basis),
     run (_diffusion 2) psi b = run (diffusion_layered 2) psi b)
  /\ Permutation (_diffusion 2) (diffusion_layered 2)
  /\ (_diffusion 2 = diffusion_layered 2 <-> 2%nat = 1%nat).
Proof. apply (diffusion_acts_as_layered 2). lia. Defined.

(** C7, as the specification words it, fails: with two qubits the builder emits
    H 0, X 0, H 1, X 1, ... while the layered sequence starts
    H 0, H 1, X 0, X 1. *)
Lemma diffusion_two_qubits_not_layered :
  _diffusion 2 <> diffusion_layered 2.
Proof. intros E. vm_compute in E. discriminate E. Qed.

(** * Further properties *)

(** ** Linearity of circuits *)

#[local] Instance sadd_proper :
  Proper (state_eq ==> state_eq ==> state_eq) sadd.
Proof. intros p1 p2 E1 q1 q2 E2 b; unfold sadd; rewrite E1, E2; reflexivity. Qed.

#[local] Instance ssub_proper :
  Proper (state_eq ==> state_eq ==> state_eq) ssub.
Proof. intros p1 p2 E1 q1 q2 E2 b; unfold ssub; rewrite E1, E2; reflexivity. Qed.

#[local] Instance sscale_proper (r : R) :
  Proper (state_eq ==> state_eq) (sscale r).
Proof. intros p1 p2 E b; unfold sscale; rewrite E; reflexivity. Qed.

#[local] Instance slice_proper (v : bool) :
  Proper (state_eq ==> state_eq) (slice v).
Proof. intros p1 p2 E c; apply E. Qed.

Lemma apply_gate_add (g : gate) (psi phi : state) :
  state_eq (apply_gate g (sadd psi phi))
           (sadd (apply_gate g psi) (apply_gate g phi)).
Proof.
  intros b. destruct g as [q|q|cs tg]; unfold sadd; cbn [apply_gate].
  - reflexivity.
  - cbv zeta.
    destruct (psi (set_bit q false b)) as [a1 a2],
             (psi (set_bit q true b)) as [b1 b2],
             (phi (set_bit q false b)) as [c1 c2],
             (phi (set_bit q true b)) as [d1 d2].
    destruct (bit q b); unfold Cscale, Cadd, Csub; simpl; f_equal; ring.
  - destruct (forallb _ cs); reflexivity.
Qed.

Lemma apply_gate_sub (g : gate) (psi phi : state) :
  state_eq (apply_gate g (ssub psi phi))
           (ssub (apply_gate g psi) (apply_gate g phi)).
Proof.
  intros b. destruct g as [q|q|cs tg]; unfold ssub; cbn [apply_gate].
  - reflexivity.
  - cbv zeta.
    destruct (psi (set_bit q false b)) as [a1 a2],
             (psi (set_bit q true b)) as [b1 b2],
             (phi (set_bit q false b)) as [c1 c2],
             (phi (set_bit q true b)) as [d1 d2].
    destruct (bit q b); unfold Cscale, Cadd, Csub; simpl; f_equal; ring.
  - destruct (forallb _ cs); reflexivity.
Qed.

Lemma apply_gate_scale (g : gate) (r : R) (psi : state) :
  state_eq (apply_gate g (sscale r psi)) (sscale r (apply_gate g psi)).
Proof.
  intros b. destruct g as [q|q|cs tg]; unfold sscale; cbn [apply_gate].
  - reflexivity.
  - cbv zeta.
    destruct (psi (set_bit q false b)) as [a1 a2],
             (psi (set_bit q true b)) as [b1 b2].
    destruct (bit q b); unfold Cscale, Cadd, Csub; simpl; f_equal; ring.
  - destruct (forallb _ cs); reflexivity.
Qed.

Lemma run_add (c : circuit) :
  forall psi phi,
  state_eq (run c (sadd psi phi)) (sadd (run c psi) (run c phi)).
Proof.
  induction c as [|g c IH]; intros psi phi; [reflexivity|].
  rewrite !run_cons, apply_gate_add. apply IH.
Qed.

Lemma run_sub (c : circuit) :
  forall psi phi,
  state_eq (run c (ssub psi phi)) (ssub (run c psi) (run c phi)).
Proof.
  induction c as [|g c IH]; intros psi phi; [reflexivity|].
  rewrite !run_cons, apply_gate_sub. apply IH.
Qed.

Lemma run_scale (c : circuit) (r : R) :
  forall psi, state_eq (run c (sscale r psi)) (sscale r (run c psi)).
Proof.
  induction c as [|g c IH]; intros psi; [reflexivity|].
  rewrite !run_cons, apply_gate_scale. apply IH.
Qed.

(** ** A circuit reads a state vector only at register width *)

Lemma apply_gate_eq_on (n : nat) (g : gate) (psi phi : state) :
  state_eq_on n psi phi ->
  state_eq_on n (apply_gate g psi) (apply_gate g phi).
Proof.
  intros E b Hb. destruct g as [q|q|cs tg]; cbn [apply_gate].
  - apply E. rewrite flip_bit_length; exact Hb.
  - cbv zeta. rewrite !E by (rewrite set_bit_length; exact Hb). reflexivity.
  - destruct (forallb _ cs); apply E; rewrite ?flip_bit_length; exact Hb.
Qed.

Lemma run_eq_on (n : nat) (c : circuit) :
  forall psi phi,
  state_eq_on n psi phi -> state_eq_on n (run c psi) (run c phi).
Proof.
  induction c as [|g c IH]; intros psi phi E; [exact E|].
  rewrite !run_cons. apply IH, apply_gate_eq_on, E.
Qed.

(** ** The Hadamard layer, one wire at a time *)

Lemma hadamard_shift (q : nat) (v : bool) (psi : state) :
  state_eq (slice v (apply_gate (Hadamard (S q)) psi))
           (apply_gate (Hadamard q) (slice v psi)).
Proof. intros c. reflexivity. Qed.

Lemma hadamard_layer_shift (qs : list nat) (v : bool) :
  forall psi,
  state_eq (slice v (run (map Hadamard (map S qs)) psi))
           (run (map Hadamard qs) (slice v psi)).
Proof.
  induction qs as [|q qs IH]; intros psi; [reflexivity|].
  cbn [map]. rewrite !run_cons, IH, hadamard_shift. reflexivity.
Qed.

Lemma hadamard_first (psi : state) :
  state_eq (slice false (apply_gate (Hadamard 0) psi))
           (sscale (/ sqrt 2) (sadd (slice false psi) (slice true psi)))
  /\ state_eq (slice true (apply_gate (Hadamard 0) psi))
              (sscale (/ sqrt 2) (ssub (slice false psi) (slice true psi))).
Proof. split; intros c; reflexivity. Qed.

(** The layer on [S n] wires from the layer on [n] wires. *)
Lemma hadamard_layer_step (n : nat) (psi : state) :
  state_eq (slice false (run (map Hadamard (seq 0 (S n))) psi))
           (sscale (/ sqrt 2)
              (sadd (run (map Hadamard (seq 0 n)) (slice false psi))
                    (run (map Hadamard (seq 0 n)) (slice true psi))))
  /\ state_eq (slice true (run (map Hadamard (seq 0 (S n))) psi))
              (sscale (/ sqrt 2)
                 (ssub (run (map Hadamard (seq 0 n)) (slice false psi))
                       (run (map Hadamard (seq 0 n)) (slice true psi)))).
Proof.
  cbn [seq map]. rewrite run_cons, <- seq_shift.
  destruct (hadamard_first psi) as [E0 E1].
  split.
  - rewrite hadamard_layer_shift, E0, run_scale, run_add. reflexivity.
  - rewrite hadamard_layer_shift, E1, run_scale, run_sub. reflexivity.
Qed.

(** ** Sums over the register *)

Lemma Cadd_zero_r (a : amp) : Cadd a Czero = a.
Proof. destruct a; unfold Cadd, Czero; simpl; f_equal; ring. Qed.

Lemma Cadd_zero_l (a : amp) : Cadd Czero a = a.
Proof. destruct a; unfold Cadd, Czero; simpl; f_equal; ring. Qed.

Lemma Cadd_assoc (a b c : amp) : Cadd a (Cadd b c) = Cadd (Cadd a b) c.
Proof. destruct a, b, c; unfold Cadd; simpl; f_equal; ring. Qed.

Lemma Csum_app (l1 l2 : list amp) :
  Csum (l1 ++ l2) = Cadd (Csum l1) (Csum l2).
Proof.
  unfold Csum. induction l1 as [|a l1 IH]; cbn [app fold_right].
  - rewrite Cadd_zero_l. reflexivity.
  - rewrite IH. apply Cadd_assoc.
Qed.

Lemma amp_sum_step (n : nat) (psi : state) :
  amp_sum (S n) psi
  = Cadd (amp_sum n (slice false psi)) (amp_sum n (slice true psi)).
Proof.
  unfold amp_sum. cbn [all_basis]. rewrite map_app, !map_map, Csum_app.
  reflexivity.
Qed.

Lemma zeros_length (n : nat) : length (zeros n) = n.
Proof. apply repeat_length. Qed.

Lemma basis_index_zeros_state (n : nat) : basis_index (zeros n) = 0.
Proof.
  induction n as [|n IH]; [reflexivity|].
  unfold zeros in *; cbn [repeat]. rewrite basis_index_cons, IH. lia.
Qed.

Lemma inv_sqrt2_pow (n : nat) :
  ((/ sqrt 2) ^ n * (/ sqrt 2) ^ n = / 2 ^ n)%R.
Proof.
  rewrite <- Rpow_mult_distr, inv_sqrt2_sqr, pow_inv. reflexivity.
Qed.

(** ** Three facts on the Hadamard layer *)

Lemma hadamard_layer_zeros (n : nat) :
  forall psi,
  run (map Hadamard (seq 0 n)) psi (zeros n)
  = Cscale ((/ sqrt 2) ^ n) (amp_sum n psi).
Proof.
  induction n as [|n IH]; intros psi.
  - unfold amp_sum, Csum, run. cbn [all_basis map fold_right fold_left seq].
    rewrite Cadd_zero_r. change (zeros 0) with (@nil bool).
    destruct (psi []); unfold Cscale; simpl; f_equal; ring.
  - change (zeros (S n)) with (false :: zeros n).
    change (run (map Hadamard (seq 0 (S n))) psi (false :: zeros n))
      with (slice false (run (map Hadamard (seq 0 (S n))) psi) (zeros n)).
    rewrite (proj1 (hadamard_layer_step n psi) (zeros n)).
    unfold sscale, sadd. rewrite !IH, amp_sum_step.
    destruct (amp_sum n (slice false psi)), (amp_sum n (slice true psi)).
    unfold Cscale, Cadd; simpl; f_equal; ring.
Qed.

Lemma slice_spike (a : amp) :
  state_eq (slice false (spike a)) (spike a)
  /\ state_eq (slice true (spike a)) (spike Czero).
Proof.
  split; intros c; unfold slice, spike; rewrite basis_index_cons.
  - rewrite Z.mul_0_l, Z.add_0_l. reflexivity.
  - pose proof (basis_index_bound c) as Hc.
    assert (Hp : 0 < 2 ^ Z.of_nat (length c)) by (apply Z.pow_pos_nonneg; lia).
    destruct (1 * 2 ^ Z.of_nat (length c) + basis_index c =? 0) eqn:E;
      [apply Z.eqb_eq in E; lia|].
    destruct (basis_index c =? 0); reflexivity.
Qed.

Lemma hadamard_layer_spike (n : nat) :
  forall (a : amp) (b : basis),
  length b = n ->
  run (map Hadamard (seq 0 n)) (spike a) b = Cscale ((/ sqrt 2) ^ n) a.
Proof.
  induction n as [|n IH]; intros a [|v c] Hb; simpl in Hb; try discriminate.
  - unfold run, spike. cbn [map seq fold_left].
    change (basis_index [] =? 0) with true. cbv iota.
    destruct a; unfold Cscale; simpl; f_equal; ring.
  - injection Hb as Hc. destruct (slice_spike a) as [E0 E1].
    change (run (map Hadamard (seq 0 (S n))) (spike a) (v :: c))
      with (slice v (run (map Hadamard (seq 0 (S n))) (spike a)) c).
    destruct v.
    + rewrite (proj2 (hadamard_layer_step n (spike a)) c).
      unfold sscale, ssub.
      rewrite (run_proper _ _ _ E0 c), (run_proper _ _ _ E1 c).
      rewrite !IH by exact Hc.
      destruct a; unfold Cscale, Csub, Czero; simpl; f_equal; ring.
    + rewrite (proj1 (hadamard_layer_step n (spike a)) c).
      unfold sscale, sadd.
      rewrite (run_proper _ _ _ E0 c), (run_proper _ _ _ E1 c).
      rewrite !IH by exact Hc.
      destruct a; unfold Cscale, Cadd, Czero; simpl; f_equal; ring.
Qed.

Lemma hadamard_layer_twice (n : nat) :
  forall (psi : state) (b : basis),
  length b = n ->
  run (map Hadamard (seq 0 n)) (run (map Hadamard (seq 0 n)) psi) b = psi b.
Proof.
  induction n as [|n IH]; intros psi [|v c] Hb; simpl in Hb;
    try discriminate; [reflexivity|].
  injection Hb as Hc.
  destruct (hadamard_layer_step n psi) as [E0 E1].
  destruct (hadamard_layer_step n
              (run (map Hadamard (seq 0 (S n))) psi)) as [G0 G1].
  assert (F0 : run (map Hadamard (seq 0 n))
                 (slice false (run (map Hadamard (seq 0 (S n))) psi)) c
               = Cscale (/ sqrt 2)
                   (Cadd (psi (false :: c)) (psi (true :: c)))).
  { rewrite (run_proper _ _ _ E0 c), (run_scale _ _ _ c). unfold sscale.
    rewrite (run_add _ _ _ c). unfold sadd. rewrite !IH by exact Hc.
    reflexivity. }
  assert (F1 : run (map Hadamard (seq 0 n))
                 (slice true (run (map Hadamard (seq 0 (S n))) psi)) c
               = Cscale (/ sqrt 2)
                   (Csub (psi (false :: c)) (psi (true :: c)))).
  { rewrite (run_proper _ _ _ E1 c), (run_scale _ _ _ c). unfold sscale.
    rewrite (run_sub _ _ _ c). unfold ssub. rewrite !IH by exact Hc.
    reflexivity. }
  destruct v.
  - transitivity
      (slice true (run (map Hadamard (seq 0 (S n)))
                     (run (map Hadamard (seq 0 (S n))) psi)) c);
      [reflexivity|].
    rewrite (G1 c). unfold sscale, ssub. rewrite F0, F1. apply had_diff.
  - transitivity
      (slice false (run (map Hadamard (seq 0 (S n)))
                      (run (map Hadamard (seq 0 (S n))) psi)) c);
      [reflexivity|].
    rewrite (G0 c). unfold sscale, sadd. rewrite F0, F1. apply had_sum.
Qed.

(** ** The diffusion operator on a state vector *)

Lemma oracle_zero_as_spike (n : nat) (phi : state) :
  (2 <= n)%nat ->
  state_eq_on n (run (_oracle n 0) phi)
    (sadd phi (spike (Cscale (-2) (phi (zeros n))))).
Proof.
  intros Hn c Hc.
  assert (Hr : 0 <= 0 < 2 ^ Z.of_nat n)
    by (split; [lia | apply Z.pow_pos_nonneg; lia]).
  rewrite (oracle_flips_target n 0) by (assumption || lia).
  unfold sadd, spike. destruct (basis_index c =? 0) eqn:E.
  - apply Z.eqb_eq in E.
    assert (c = zeros n) as ->.
    { apply basis_index_inj; [rewrite zeros_length; exact Hc|].
      rewrite basis_index_zeros_state; exact E. }
    destruct (phi (zeros n)); unfold Copp, Cadd, Cscale; simpl; f_equal; ring.
  - rewrite Cadd_zero_r. reflexivity.
Qed.

Lemma diffusion_inverts (n : nat) (psi : state) (b : basis) :
  (2 <= n)%nat -> length b = n ->
  run (_diffusion n) psi b = Csub (psi b) (Cscale 2 (mean n psi)).
Proof.
  intros Hn Hb. rewrite diffusion_layered_run by lia.
  unfold diffusion_layered. rewrite !run_app.
  set (Hs := map Hadamard (seq 0 n)).
  rewrite (run_eq_on n Hs _ _ (oracle_zero_as_spike n (run Hs psi) Hn) b Hb).
  rewrite (run_add Hs _ _ b). unfold sadd, Hs.
  rewrite hadamard_layer_twice, hadamard_layer_spike, hadamard_layer_zeros
    by exact Hb.
  unfold mean. pose proof (inv_sqrt2_pow n) as Hp.
  destruct (psi b) as [p1 p2], (amp_sum n psi) as [a1 a2].
  unfold Cadd, Csub, Cscale; simpl; f_equal.
  - replace ((/ sqrt 2) ^ n * (-2 * ((/ sqrt 2) ^ n * a1)))%R
      with (- (2 * ((/ sqrt 2) ^ n * (/ sqrt 2) ^ n * a1)))%R by ring.
    rewrite Hp. ring.
  - replace ((/ sqrt 2) ^ n * (-2 * ((/ sqrt 2) ^ n * a2)))%R
      with (- (2 * ((/ sqrt 2) ^ n * (/ sqrt 2) ^ n * a2)))%R by ring.
    rewrite Hp. ring.
Qed.

(** ** The oracle and the diffusion operator composed *)

Lemma Copp_involutive (a : amp) : Copp (Copp a) = a.
Proof. destruct a; unfold Copp; simpl; f_equal; ring. Qed.

Lemma oracle_twice_run (n : nat) (t : Z) (psi : state) (b : basis) :
  (1 <= n)%nat -> 0 <= t < 2 ^ Z.of_nat n -> length b = n ->
  run (_oracle n t ++ _oracle n t) psi b = psi b.
Proof.
  intros Hn Ht Hb. rewrite run_app.
  destruct (Nat.eq_dec n 1) as [E1|E1].
  - rewrite !(oracle_one_qubit n t) by assumption. reflexivity.
  - rewrite !(oracle_flips_target n t) by (assumption || lia).
    destruct (basis_index b =? t); [apply Copp_involutive | reflexivity].
Qed.

Lemma diffusion_one_qubit (psi : state) (b : basis) :
  length b = 1%nat -> run (_diffusion 1) psi b = psi b.
Proof.
  intros Hb. rewrite diffusion_layered_run by lia.
  unfold diffusion_layered. rewrite !run_app.
  assert (E : state_eq_on 1
                (run (_oracle 1 0) (run (map Hadamard (seq 0 1)) psi))
                (run (map Hadamard (seq 0 1)) psi)).
  { intros c Hc. apply oracle_one_qubit; [lia | simpl; lia | reflexivity |].
    exact Hc. }
  rewrite (run_eq_on 1 _ _ _ E b Hb).
  apply hadamard_layer_twice; exact Hb.
Qed.

Lemma grover_iterations_one_qubit (t : Z) (k : nat) :
  0 <= t < 2 ->
  forall psi, state_eq_on 1 (run (grover_iterations 1 t k) psi) psi.
Proof.
  intros Ht. induction k as [|k IH]; intros psi b Hb; [reflexivity|].
  cbn [grover_iterations]. rewrite !run_app.
  rewrite IH by exact Hb. rewrite diffusion_one_qubit by exact Hb.
  apply oracle_one_qubit; [lia | simpl; lia | reflexivity | exact Hb].
Qed.

Lemma inv_sqrt2_pow2 : ((/ sqrt 2) ^ 2 = / 2)%R.
Proof. simpl. rewrite Rmult_1_r. apply inv_sqrt2_sqr. Qed.

Lemma uniform_two_qubits (c : basis) :
  length c = 2%nat ->
  run (map Hadamard (seq 0 2)) ket_zero c = ((/ 2)%R, 0%R).
Proof.
  intros Hc. unfold ket_zero. rewrite hadamard_layer_spike by exact Hc.
  rewrite inv_sqrt2_pow2. unfold Cscale; simpl; f_equal; ring.
Qed.

(** ** The builders stay inside the register, continued *)

Lemma wires_below_app (n : nat) (c1 c2 : circuit) :
  wires_below n (c1 ++ c2) = wires_below n c1 && wires_below n c2.
Proof. unfold wires_below; apply forallb_app. Qed.

Lemma hadamard_layer_wires (n : nat) :
  wires_below n (map Hadamard (seq 0 n)) = true.
Proof.
  unfold wires_below. apply forallb_forall; intros g Hg.
  apply in_map_iff in Hg. destruct Hg as (q & <- & Hq). apply in_seq in Hq.
  cbn [gate_wires forallb]. rewrite andb_true_r. apply Nat.ltb_lt; lia.
Qed.

Lemma diffusion_wires_below (n : nat) :
  (1 <= n)%nat -> wires_below n (_diffusion n) = true.
Proof.
  intros Hn. unfold _diffusion.
  assert (Hlast : (n - 1 <? n)%nat = true) by (apply Nat.ltb_lt; lia).
  assert (Hpair : forall f g : nat -> gate,
             (forall q, gate_wires (f q) = [q]) ->
             (forall q, gate_wires (g q) = [q]) ->
             wires_below n (flat_map (fun q => [f q; g q]) (seq 0 n)) = true).
  { intros f g Hf Hg. unfold wires_below. apply forallb_forall; intros x Hx.
    apply in_flat_map in Hx. destruct Hx as (q & Hq & Hx).
    apply in_seq in Hq.
    assert (Hq' : (q <? n)%nat = true) by (apply Nat.ltb_lt; lia).
    destruct Hx as [<-|[<-|[]]]; rewrite ?Hf, ?Hg; cbn [forallb];
      rewrite Hq'; reflexivity. }
  rewrite !wires_below_app.
  rewrite (Hpair Hadamard PauliX), (Hpair PauliX Hadamard)
    by (intros; reflexivity).
  unfold wires_below at 1 3. cbn [forallb gate_wires]. rewrite Hlast.
  cbn [andb]. rewrite andb_true_r.
  destruct (1 <? n)%nat; [|reflexivity].
  unfold wires_below. cbn [forallb gate_wires]. rewrite andb_true_r.
  rewrite forallb_app. cbn [forallb]. rewrite Hlast, !andb_true_r.
  apply forallb_forall; intros q Hq. apply in_seq in Hq.
  apply Nat.ltb_lt; lia.
Qed.

Lemma grover_iterations_wires (n : nat) (t : Z) (k : nat) :
  (1 <= n)%nat -> 0 <= t < 2 ^ Z.of_nat n ->
  wires_below n (grover_iterations n t k) = true.
Proof.
  intros Hn Ht. induction k as [|k IH]; [reflexivity|].
  cbn [grover_iterations]. rewrite !wires_below_app, IH.
  rewrite oracle_wires_below, diffusion_wires_below by assumption.
  reflexivity.
Qed.

Lemma grover_two_qubits_run (t : Z) (b : basis) :
  0 <= t < 4 -> length b = 2%nat ->
  run (create_grover_circuit 2 t 1) ket_zero b
  = if basis_index b =? t then ((-1)%R, 0%R) else (0%R, 0%R).
Proof.
  intros Ht Hb. unfold create_grover_circuit. cbn [grover_iterations].
  rewrite app_nil_r, !run_app.
  rewrite diffusion_inverts by (lia || exact Hb).
  assert (Hw : forall c, length c = 2%nat ->
             run (_oracle 2 t) (run (map Hadamard (seq 0 2)) ket_zero) c
             = if basis_index c =? t then ((- / 2)%R, 0%R)
               else ((/ 2)%R, 0%R)).
  { intros c Hc.
    rewrite (oracle_flips_target 2 t) by (simpl; lia || assumption).
    rewrite uniform_two_qubits by exact Hc.
    destruct (basis_index c =? t); [|reflexivity].
    unfold Copp; simpl; f_equal; ring. }
  unfold mean, amp_sum, Csum. cbn [all_basis map app fold_right].
  rewrite !Hw by (reflexivity || exact Hb).
  change (basis_index [false; false]) with 0.
  change (basis_index [false; true]) with 1.
  change (basis_index [true; false]) with 2.
  change (basis_index [true; true]) with 3.
  destruct b as [|x [|y [|z b]]]; simpl in Hb; try discriminate.
  assert (Hcases : t = 0 \/ t = 1 \/ t = 2 \/ t = 3) by lia.
  destruct Hcases as [-> | [-> | [-> | ->]]]; destruct x, y;
    unfold basis_index; cbn [fold_left Z.eqb Z.mul Z.add Pos.mul Pos.add
                             Pos.eqb Pos.succ];
    unfold Csub, Cadd, Cscale, Czero; simpl; f_equal; field.
Qed.

(** ** Sums of two-valued state vectors *)

Lemma all_basis_lengths (n : nat) :
  Forall (fun c => length c = n) (all_basis n).
Proof.
  induction n as [|n IH]; cbn [all_basis]; [repeat constructor|].
  rewrite Forall_forall in IH.
  apply Forall_app; split; apply Forall_forall; intros c Hc;
    apply in_map_iff in Hc; destruct Hc as (c' & <- & Hc');
    simpl; f_equal; apply IH; exact Hc'.
Qed.

Lemma all_basis_complete (n : nat) :
  forall c, length c = n -> In c (all_basis n).
Proof.
  induction n as [|n IH]; intros [|v c] Hc; simpl in Hc; try discriminate.
  - left; reflexivity.
  - injection Hc as Hc. cbn [all_basis]. apply in_or_app.
    destruct v; [right | left]; apply in_map; apply IH; exact Hc.
Qed.

Lemma all_basis_count (n : nat) : length (all_basis n) = (2 ^ n)%nat.
Proof.
  induction n as [|n IH]; [reflexivity|].
  cbn [all_basis]. rewrite length_app, !length_map.
  unfold basis in *. cbn [Nat.pow]. lia.
Qed.

Lemma amp_sum_eq_on (n : nat) (psi phi : state) :
  state_eq_on n psi phi -> amp_sum n psi = amp_sum n phi.
Proof.
  intros E. unfold amp_sum. f_equal. apply map_ext_in; intros c Hc.
  apply E. pose proof (all_basis_lengths n) as Hl.
  rewrite Forall_forall in Hl. apply Hl; exact Hc.
Qed.

Lemma amp_sum_const (n : nat) (a : amp) :
  amp_sum n (fun _ => a) = Cscale (2 ^ n) a.
Proof.
  induction n as [|n IH].
  - unfold amp_sum, Csum; cbn [all_basis map fold_right].
    rewrite Cadd_zero_r. destruct a; unfold Cscale; simpl; f_equal; ring.
  - rewrite amp_sum_step. unfold slice. rewrite IH.
    destruct a; unfold Cscale, Cadd; simpl; f_equal; ring.
Qed.

Lemma amp_sum_two_level (n : nat) :
  forall (t : Z) (a b : amp),
  0 <= t < 2 ^ Z.of_nat n ->
  amp_sum n (two_level t a b) = Cadd a (Cscale (2 ^ n - 1) b).
Proof.
  induction n as [|n IH]; intros t a b Ht.
  - assert (t = 0) as -> by (simpl in Ht; lia).
    unfold amp_sum, Csum, two_level; cbn [all_basis map fold_right].
    change (basis_index [] =? 0) with true. cbv iota.
    rewrite Cadd_zero_r. destruct a, b; unfold Cscale, Cadd; simpl; f_equal;
      ring.
  - rewrite amp_sum_step.
    rewrite Nat2Z.inj_succ, Z.pow_succ_r in Ht by lia.
    assert (Hp : 0 < 2 ^ Z.of_nat n) by (apply Z.pow_pos_nonneg; lia).
    destruct (Z.lt_ge_cases t (2 ^ Z.of_nat n)) as [Hlt|Hge].
    + rewrite (amp_sum_eq_on n (slice false (two_level t a b))
                 (two_level t a b)).
      2:{ intros c Hc. unfold slice, two_level. rewrite basis_index_cons.
          rewrite Z.mul_0_l, Z.add_0_l. reflexivity. }
      rewrite (amp_sum_eq_on n (slice true (two_level t a b)) (fun _ => b)).
      2:{ intros c Hc. unfold slice, two_level. rewrite basis_index_cons, Hc.
          pose proof (basis_index_bound c) as Hb.
          destruct (_ =? t) eqn:E; [apply Z.eqb_eq in E; lia | reflexivity]. }
      rewrite IH by lia. rewrite amp_sum_const.
      destruct a, b; unfold Cscale, Cadd; simpl; f_equal; ring.
    + rewrite (amp_sum_eq_on n (slice false (two_level t a b)) (fun _ => b)).
      2:{ intros c Hc. unfold slice, two_level. rewrite basis_index_cons.
          pose proof (basis_index_bound c) as Hb. rewrite Hc in Hb.
          destruct (_ =? t) eqn:E; [apply Z.eqb_eq in E; lia | reflexivity]. }
      rewrite (amp_sum_eq_on n (slice true (two_level t a b))
                 (two_level (t - 2 ^ Z.of_nat n) a b)).
      2:{ intros c Hc. unfold slice, two_level. rewrite basis_index_cons, Hc.
          destruct (_ =? t) eqn:E1;
            destruct (basis_index c =? t - 2 ^ Z.of_nat n) eqn:E2;
            try reflexivity;
            [apply Z.eqb_eq in E1; apply Z.eqb_neq in E2
            |apply Z.eqb_neq in E1; apply Z.eqb_eq in E2]; lia. }
      rewrite IH by lia. rewrite amp_sum_const.
      destruct a, b; unfold Cscale, Cadd; simpl; f_equal; ring.
Qed.

(** ** One Grover iteration on a two-valued state vector *)

Lemma grover_step_run (n : nat) (t : Z) (a b : amp) (psi : state) :
  (2 <= n)%nat -> 0 <= t < 2 ^ Z.of_nat n ->
  state_eq_on n psi (two_level t a b) ->
  let m := Cscale (/ 2 ^ n) (Cadd (Copp a) (Cscale (2 ^ n - 1) b)) in
  state_eq_on n (run (_oracle n t ++ _diffusion n) psi)
    (two_level t (Csub (Copp a) (Cscale 2 m)) (Csub b (Cscale 2 m))).
Proof.
  intros Hn Ht Hpsi m c Hc. rewrite run_app.
  rewrite diffusion_inverts by assumption.
  assert (Hw : state_eq_on n (run (_oracle n t) psi)
                 (two_level t (Copp a) b)).
  { intros d Hd. rewrite (oracle_flips_target n t) by (assumption || lia).
    rewrite (Hpsi d Hd). unfold two_level.
    destruct (basis_index d =? t); reflexivity. }
  unfold mean. rewrite (amp_sum_eq_on n _ _ Hw).
  rewrite amp_sum_two_level by exact Ht. fold m.
  rewrite (Hw c Hc). unfold two_level.
  destruct (basis_index c =? t); reflexivity.
Qed.

Lemma diffusion_uniform_run (n : nat) (a : amp) (psi : state) (b : basis) :
  (2 <= n)%nat -> length b = n ->
  state_eq_on n psi (fun _ => a) ->
  run (_diffusion n) psi b = Copp a.
Proof.
  intros Hn Hb Hpsi. rewrite diffusion_inverts by assumption.
  unfold mean. rewrite (amp_sum_eq_on n _ _ Hpsi), amp_sum_const.
  rewrite (Hpsi b Hb).
  assert (Hp : (2 ^ n <> 0)%R) by (apply pow_nonzero; lra).
  destruct a; unfold Csub, Cscale, Copp; simpl; f_equal; field; exact Hp.
Qed.

(** ** The Grover rotation *)

Section Rotation.

Variable n : nat.
Hypothesis n_ge_2 : (2 <= n)%nat.

Lemma two_pow_ge_4 : (4 <= 2 ^ n)%R.
Proof.
  replace 4%R with (2 ^ 2)%R by (simpl; ring).
  apply Rle_pow; [lra | exact n_ge_2].
Qed.

Lemma uniform_amp_sqr : ((/ sqrt 2) ^ n * (/ sqrt 2) ^ n = / 2 ^ n)%R.
Proof. apply inv_sqrt2_pow. Qed.

Lemma uniform_amp_range : (0 < (/ sqrt 2) ^ n <= 1)%R.
Proof.
  assert (Hs : (0 < / sqrt 2)%R)
    by (apply Rinv_0_lt_compat, sqrt_lt_R0; lra).
  assert (Hp : (0 < (/ sqrt 2) ^ n)%R) by (apply pow_lt; exact Hs).
  split; [exact Hp|].
  pose proof uniform_amp_sqr as Hq. pose proof two_pow_ge_4 as H4.
  assert (Hi : (/ 2 ^ n <= 1)%R).
  { rewrite <- Rinv_1. apply Rinv_le_contravar; lra. }
  nra.
Qed.

Lemma sin_grover_angle : sin (grover_angle n) = ((/ sqrt 2) ^ n)%R.
Proof.
  unfold grover_angle. apply sin_asin.
  pose proof uniform_amp_range; lra.
Qed.

Lemma root_rest_facts :
  (0 < sqrt (2 ^ n - 1)
   /\ sqrt (2 ^ n - 1) * sqrt (2 ^ n - 1) = 2 ^ n - 1)%R.
Proof.
  pose proof two_pow_ge_4 as H4. split.
  - apply sqrt_lt_R0; lra.
  - apply sqrt_sqrt; lra.
Qed.

Lemma cos_grover_angle :
  cos (grover_angle n) = (sqrt (2 ^ n - 1) * (/ sqrt 2) ^ n)%R.
Proof.
  unfold grover_angle. pose proof uniform_amp_range as Hx.
  pose proof uniform_amp_sqr as Hq. pose proof two_pow_ge_4 as H4.
  destruct root_rest_facts as [Hr Hrr].
  rewrite cos_asin by lra. apply sqrt_lem_1.
  - unfold Rsqr. rewrite Hq.
    assert (/ 2 ^ n <= 1)%R
      by (rewrite <- Rinv_1; apply Rinv_le_contravar; lra).
    lra.
  - apply Rmult_le_pos; lra.
  - unfold Rsqr.
    replace (sqrt (2 ^ n - 1) * (/ sqrt 2) ^ n
             * (sqrt (2 ^ n - 1) * (/ sqrt 2) ^ n))%R
      with (sqrt (2 ^ n - 1) * sqrt (2 ^ n - 1)
            * ((/ sqrt 2) ^ n * (/ sqrt 2) ^ n))%R by ring.
    rewrite Hrr, Hq. field. lra.
Qed.

Lemma double_angle_facts :
  (sin (2 * grover_angle n) = 2 * sqrt (2 ^ n - 1) / 2 ^ n
   /\ cos (2 * grover_angle n) = 1 - 2 / 2 ^ n)%R.
Proof.
  pose proof uniform_amp_sqr as Hq. pose proof two_pow_ge_4 as H4.
  split.
  - rewrite sin_2a, sin_grover_angle, cos_grover_angle.
    replace (2 * (/ sqrt 2) ^ n * (sqrt (2 ^ n - 1) * (/ sqrt 2) ^ n))%R
      with (2 * sqrt (2 ^ n - 1) * ((/ sqrt 2) ^ n * (/ sqrt 2) ^ n))%R
      by ring.
    rewrite Hq. field. lra.
  - rewrite cos_2a_sin, sin_grover_angle.
    replace (2 * (/ sqrt 2) ^ n * (/ sqrt 2) ^ n)%R
      with (2 * ((/ sqrt 2) ^ n * (/ sqrt 2) ^ n))%R by ring.
    rewrite Hq. field. lra.
Qed.

Lemma next_angle (k : nat) :
  ((2 * INR (S k) + 1) * grover_angle n
   = (2 * INR k + 1) * grover_angle n + 2 * grover_angle n)%R.
Proof. rewrite S_INR. ring. Qed.

Lemma grover_recurrence (k : nat) :
  let m := Cscale (/ 2 ^ n)
             (Cadd (Copp (target_amp n k))
                   (Cscale (2 ^ n - 1) (other_amp n k))) in
  Csub (Copp (target_amp n k)) (Cscale 2 m) = target_amp n (S k)
  /\ Csub (other_amp n k) (Cscale 2 m) = other_amp n (S k).
Proof.
  destruct double_angle_facts as [Hs2 Hc2].
  destruct root_rest_facts as [Hr Hrr].
  pose proof two_pow_ge_4 as H4.
  unfold target_amp, other_amp. rewrite next_angle, sin_plus, cos_plus.
  rewrite Hs2, Hc2.
  set (S0 := sin ((2 * INR k + 1) * grover_angle n)).
  set (C0 := cos ((2 * INR k + 1) * grover_angle n)).
  set (r := sqrt (2 ^ n - 1)) in *.
  assert (HN : (2 ^ n = r * r + 1)%R) by lra.
  cbv zeta. unfold Csub, Cadd, Copp, Cscale; cbn [fst snd pow].
  rewrite HN.
  split; f_equal; field; repeat split; nra.
Qed.

Lemma uniform_as_two_level (t : Z) :
  state_eq_on n (run (map Hadamard (seq 0 n)) ket_zero)
    (two_level t (target_amp n 0) (other_amp n 0)).
Proof.
  intros c Hc. unfold ket_zero. rewrite hadamard_layer_spike by exact Hc.
  destruct root_rest_facts as [Hr Hrr].
  assert (Ht : target_amp n 0 = (((/ sqrt 2) ^ n)%R, 0%R)).
  { unfold target_amp. cbn [INR pow].
    replace ((2 * 0 + 1) * grover_angle n)%R with (grover_angle n) by ring.
    rewrite sin_grover_angle. f_equal. ring. }
  assert (Ho : other_amp n 0 = (((/ sqrt 2) ^ n)%R, 0%R)).
  { unfold other_amp. cbn [INR pow].
    replace ((2 * 0 + 1) * grover_angle n)%R with (grover_angle n) by ring.
    rewrite cos_grover_angle. f_equal. field. lra. }
  unfold two_level. rewrite Ht, Ho.
  destruct (basis_index c =? t); unfold Cscale; simpl; f_equal; ring.
Qed.

Lemma grover_iterations_run (t : Z) (k : nat) :
  0 <= t < 2 ^ Z.of_nat n ->
  forall (j : nat) (psi : state),
  state_eq_on n psi (two_level t (target_amp n j) (other_amp n j)) ->
  state_eq_on n (run (grover_iterations n t k) psi)
    (two_level t (target_amp n (j + k)) (other_amp n (j + k))).
Proof.
  intros Ht. induction k as [|k IH]; intros j psi Hpsi.
  - rewrite Nat.add_0_r. exact Hpsi.
  - cbn [grover_iterations]. rewrite app_assoc. intros c Hc.
    rewrite run_app. replace (j + S k)%nat with (S j + k)%nat by lia.
    apply IH; [|exact Hc].
    destruct (grover_recurrence j) as [Ha Hb].
    rewrite <- Ha, <- Hb.
    apply (grover_step_run n t _ _ psi n_ge_2 Ht Hpsi).
Qed.

End Rotation.

(** ** Errors of the codec *)

Lemma str_index_not_in (s : str) (c : ascii) :
  ~ In c s -> str_index s c = Raise ValueError.
Proof.
  induction s as [|x s IH]; intros Hn; [reflexivity|].
  cbn [str_index]. destruct (Ascii.eqb x c) eqn:E.
  - apply Ascii.eqb_eq in E. exfalso; apply Hn; left; exact E.
  - rewrite IH; [reflexivity|]. intros Hin; apply Hn; right; exact Hin.
Qed.

Lemma text_to_index_loop_raises (cs : str) (chars : str) :
  (exists c, In c chars /\ ~ In c cs) ->
  forall base i index,
  text_to_index_loop cs base chars i index = Raise ValueError.
Proof.
  induction chars as [|x chars IH]; intros (c & Hc & Hn) base i index.
  - contradiction.
  - cbn [text_to_index_loop].
    destruct (in_dec ascii_dec x cs) as [Hx|Hx].
    + destruct (pos_in cs x Hx) as (-> & _ & _). cbn [bind].
      apply IH. exists c; split; [|exact Hn].
      destruct Hc as [->|Hc]; [contradiction | exact Hc].
    + rewrite str_index_not_in by exact Hx. reflexivity.
Qed.

Lemma all_in_or_not (cs text : str) :
  Forall (fun c => In c cs) text \/ (exists c, In c text /\ ~ In c cs).
Proof.
  induction text as [|x text IH]; [left; constructor|].
  destruct (in_dec ascii_dec x cs) as [Hx|Hx].
  - destruct IH as [IH|(c & Hc & Hn)].
    + left; constructor; assumption.
    + right; exists c; split; [right|]; assumption.
  - right; exists x; split; [left; reflexivity | exact Hx].
Qed.

Lemma lsb_val_bound (cs : str) (chars : str) :
  Forall (fun c => In c cs) chars ->
  0 <= lsb_val cs chars < py_len cs ^ py_len chars.
Proof.
  induction 1 as [|c rest Hc Hrest IH].
  - unfold py_len; simpl. lia.
  - cbn [lsb_val]. destruct (pos_in cs c Hc) as (_ & Hb & _).
    pose proof (py_len_nonneg rest) as Hr.
    rewrite py_len_cons.
    replace (1 + py_len rest) with (Z.succ (py_len rest)) by lia.
    rewrite Z.pow_succ_r by exact Hr. nia.
Qed.

Lemma decode_encode (cs s : str) :
  Forall (fun c => In c cs) s ->
  exists i, text_to_index cs s = Ok i
            /\ index_to_text cs i (length s) = Ok s.
Proof.
  intros Hs. destruct s as [|c s].
  - exists 0; split; reflexivity.
  - assert (Hne : cs <> []).
    { inversion Hs as [|? ? Hc _]; subst. intros ->; exact Hc. }
    exists (lsb_val cs (rev (c :: s))); split.
    + apply text_to_index_spec; exact Hs.
    + rewrite index_to_text_spec by exact Hne.
      rewrite <- (length_rev (c :: s)), lsb_chars_val
        by (apply Forall_rev; exact Hs).
      rewrite rev_involutive; reflexivity.
Qed.

(** ** What [itertools.product] enumerates *)

Lemma product_lengths (cs : str) (r : nat) :
  Forall (fun s => length s = r) (product cs r).
Proof.
  induction r as [|r IH]; cbn [product]; [repeat constructor|].
  unfold product_step. apply Forall_forall; intros s Hs.
  apply in_flat_map in Hs; destruct Hs as (x & Hx & Hs).
  apply in_map_iff in Hs; destruct Hs as (y & <- & Hy).
  rewrite Forall_forall in IH. rewrite length_app, (IH x Hx). simpl; lia.
Qed.

Lemma product_complete (cs : str) (r : nat) :
  forall s, length s = r -> Forall (fun c => In c cs) s ->
  In s (product cs r).
Proof.
  induction r as [|r IH]; intros s Hlen Hs.
  - destruct s; [left; reflexivity | discriminate].
  - destruct (exists_last (l := s)) as (x & y & ->);
      [intros ->; discriminate|].
    rewrite length_app in Hlen; simpl in Hlen.
    apply Forall_app in Hs; destruct Hs as [Hx Hy].
    cbn [product]; unfold product_step. apply in_flat_map.
    exists x; split; [apply IH; [lia | exact Hx]|].
    apply in_map_iff. exists y; split; [reflexivity|].
    inversion Hy; assumption.
Qed.

Lemma product_count (cs : str) (r : nat) :
  length (product cs r) = (length cs ^ r)%nat.
Proof.
  induction r as [|r IH]; [reflexivity|].
  cbn [product]; unfold product_step.
  assert (H : forall l : list str,
             length (flat_map (fun x => map (fun y => x ++ [y]) cs) l)
             = (length l * length cs)%nat).
  { induction l as [|x l IHl]; [reflexivity|].
    cbn [flat_map]. rewrite length_app, length_map, IHl. simpl; lia. }
  rewrite H, IH. simpl; lia.
Qed.

Lemma search_space_as_nat (cs : str) (r : nat) :
  calculate_search_space cs r = Z.of_nat (length cs ^ r).
Proof.
  unfold calculate_search_space, py_len. rewrite Nat2Z.inj_pow. reflexivity.
Qed.

(** ** The scan of [classical_bruteforce] *)

Lemma bruteforce_loop_spec (simple_hash : str -> str) (target_hash : str)
  (combos : list str) :
  forall attempts,
  (exists pre s post,
     combos = pre ++ s :: post
     /\ Forall (fun c => simple_hash c <> target_hash) pre
     /\ simple_hash s = target_hash
     /\ bruteforce_loop simple_hash target_hash combos attempts
        = (Some s, attempts + py_len pre + 1))
  \/ (Forall (fun c => simple_hash c <> target_hash) combos
      /\ bruteforce_loop simple_hash target_hash combos attempts
         = (None, attempts + py_len combos)).
Proof.
  induction combos as [|c rest IH]; intros attempts.
  - right; split; [constructor|]. cbn. f_equal. unfold py_len; simpl; lia.
  - cbn [bruteforce_loop].
    destruct (str_eqb (simple_hash c) target_hash) eqn:E.
    + apply str_eqb_eq in E. left. exists [], c, rest.
      repeat split; [constructor | exact E |].
      f_equal. unfold py_len; simpl; lia.
    + assert (Hc : simple_hash c <> target_hash).
      { intros Heq. apply str_eqb_eq in Heq. congruence. }
      destruct (IH (attempts + 1))
        as [(pre & s & post & -> & Hpre & Hs & Hrun)|(Hall & Hrun)].
      * left. exists (c :: pre), s, post.
        repeat split; [constructor; assumption | exact Hs |].
        rewrite Hrun. f_equal. rewrite py_len_cons. lia.
      * right. split; [constructor; assumption|].
        rewrite Hrun. f_equal. rewrite py_len_cons. lia.
Qed.

Lemma nth_error_in_prefix {A : Type} (pre : list A) (x : A) (post : list A)
  (j : nat) (y : A) :
  nth_error (pre ++ x :: post) j = Some y -> (j < length pre)%nat ->
  In y pre.
Proof.
  intros Hj Hlt. rewrite nth_error_app1 in Hj by exact Hlt.
  eapply nth_error_In; exact Hj.
Qed.

(** ** The first maximal entry *)

Lemma max_item_from_first (items : counts) :
  forall best,
  let m := max_item_from best items in
  (m = best /\ forall it, In it items -> snd it <= snd best)
  \/ (exists pre post,
        items = pre ++ m :: post
        /\ snd best < snd m
        /\ (forall it, In it pre -> snd it < snd m)
        /\ (forall it, In it post -> snd it <= snd m)).
Proof.
  induction items as [|it rest IH]; intros best; cbn [max_item_from].
  - left; split; [reflexivity | contradiction].
  - cbv zeta in IH. destruct (snd best <? snd it) eqn:E;
      [apply Z.ltb_lt in E | apply Z.ltb_ge in E].
    + right. destruct (IH it) as [(Hm & Hall)|(pre & post & Hi & Hb & Hp & Hq)].
      * exists [], rest. rewrite Hm. repeat split; try assumption.
        intros ? [].
      * exists (it :: pre), post. rewrite Hi at 1.
        repeat split; try assumption; [lia|].
        intros it' [<-|Hin]; [exact Hb | apply Hp; exact Hin].
    + destruct (IH best) as [(Hm & Hall)|(pre & post & Hi & Hb & Hp & Hq)].
      * left. split; [exact Hm|].
        intros it' [<-|Hin]; [exact E | apply Hall; exact Hin].
      * right. exists (it :: pre), post. rewrite Hi at 1.
        repeat split; try assumption.
        intros it' [<-|Hin]; [lia | apply Hp; exact Hin].
Qed.

(** ** The scan of [quantum_search] *)

Lemma find_target_found (simple_hash : str -> str) (cs target_hash : str)
  (combos : list str) (ti : Z) :
  find_target simple_hash cs target_hash combos = Ok (Some ti) ->
  exists text, In text combos /\ simple_hash text = target_hash
               /\ text_to_index cs text = Ok ti.
Proof.
  induction combos as [|c rest IH]; cbn [find_target]; [discriminate|].
  destruct (str_eqb (simple_hash c) target_hash) eqn:E.
  - apply str_eqb_eq in E. destruct (text_to_index cs c) as [i|e] eqn:Ei;
      cbn [bind]; [|discriminate].
    intros Heq; injection Heq as <-.
    exists c; repeat split; [left; reflexivity | exact E | exact Ei].
  - intros Heq. destruct (IH Heq) as (text & Hin & Hh & Hi).
    exists text; repeat split; [right|..]; assumption.
Qed.

Lemma find_target_none (simple_hash : str -> str) (cs target_hash : str)
  (combos : list str) :
  Forall (fun c => simple_hash c <> target_hash) combos ->
  find_target simple_hash cs target_hash combos = Ok None.
Proof.
  induction 1 as [|c rest Hc Hrest IH]; [reflexivity|].
  cbn [find_target]. destruct (str_eqb (simple_hash c) target_hash) eqn:E;
    [apply str_eqb_eq in E; contradiction | exact IH].
Qed.

(** ** Further properties of the oracle and the diffusion operator *)

(** X1 : With two qubits or more and a target inside the register, the
    gates of [_oracle] multiply the amplitude of the basis state numbered
    [target_index] by -1 and leave every other amplitude as it was. *)
Theorem oracle_marks_target (n : nat) (t : Z) (psi : state) (b : basis) :
  (2 <= n)%nat ->
  0 <= t < 2 ^ Z.of_nat n ->
  length b = n ->
  run (_oracle n t) psi b
  = if basis_index b =? t then Copp (psi b) else psi b.
Proof.
  intros Hn Ht Hb. apply oracle_flips_target; (assumption || lia).
Qed.

Lemma oracle_marks_target_witness :
  run (_oracle 2 1) ket_zero [false; true]
  = if basis_index [false; true] =? 1
    then Copp (ket_zero [false; true]) else ket_zero [false; true].
Proof.
  apply (oracle_marks_target 2 1 ket_zero [false; true]).
  - lia.
  - simpl; lia.
  - reflexivity.
Defined.

(** X2 : The oracle undoes itself: emitting its gates twice in a row
    returns every amplitude of an [n]-qubit vector unchanged. *)
Theorem oracle_twice_is_identity (n : nat) (t : Z) (psi : state)
  (b : basis) :
  (1 <= n)%nat ->
  0 <= t < 2 ^ Z.of_nat n ->
  length b = n ->
  run (_oracle n t ++ _oracle n t) psi b = psi b.
Proof. intros Hn Ht Hb. apply oracle_twice_run; assumption. Qed.

Lemma oracle_twice_is_identity_witness :
  run (_oracle 3 5 ++ _oracle 3 5) ket_zero [true; false; true]
  = ket_zero [true; false; true].
Proof.
  apply (oracle_twice_is_identity 3 5 ket_zero [true; false; true]).
  - lia.
  - simpl; lia.
  - reflexivity.
Defined.

(** X3 : With two qubits or more, the gates of [_diffusion] send every
    amplitude [psi b] to [psi b - 2 * mean], the mean taken over the [2^n]
    basis states: inversion about the mean with the opposite overall sign.
    A vector with the same amplitude [a] everywhere becomes [-a]
    everywhere. *)
Theorem diffusion_inverts_about_mean (n : nat) (psi : state) (b : basis) :
  (2 <= n)%nat ->
  length b = n ->
  run (_diffusion n) psi b = Csub (psi b) (Cscale 2 (mean n psi))
  /\ (forall a, state_eq_on n psi (fun _ => a) ->
      run (_diffusion n) psi b = Copp a).
Proof.
  intros Hn Hb. split.
  - apply diffusion_inverts; assumption.
  - intros a Ha. apply diffusion_uniform_run; assumption.
Qed.

Lemma diffusion_inverts_about_mean_witness :
  run (_diffusion 2) ket_zero [true; true]
  = Csub (ket_zero [true; true]) (Cscale 2 (mean 2 ket_zero))
  /\ (forall a, state_eq_on 2 ket_zero (fun _ => a) ->
      run (_diffusion 2) ket_zero [true; true] = Copp a).
Proof.
  apply (diffusion_inverts_about_mean 2 ket_zero [true; true]).
  - lia.
  - reflexivity.
Defined.

(** X4 : With one qubit the gates of [_diffusion] are the identity, so the
    whole circuit of [create_grover_circuit] acts as a single Hadamard
    whatever the target and the number of iterations: started on the
    all-zero register, both outcomes keep amplitude [1 / sqrt 2]. *)
Theorem grover_one_qubit_is_hadamard (t : Z) (k : nat) (psi : state)
  (b : basis) :
  0 <= t < 2 ->
  length b = 1%nat ->
  run (_diffusion 1) psi b = psi b
  /\ run (create_grover_circuit 1 t k) psi b = run [Hadamard 0] psi b
  /\ run (create_grover_circuit 1 t k) ket_zero b = ((/ sqrt 2)%R, 0%R).
Proof.
  intros Ht Hb.
  assert (Hc : forall phi,
             run (create_grover_circuit 1 t k) phi b
             = run [Hadamard 0] phi b).
  { intros phi. unfold create_grover_circuit. rewrite run_app.
    apply grover_iterations_one_qubit; assumption. }
  split; [apply diffusion_one_qubit; exact Hb|].
  split; [apply Hc|].
  rewrite Hc. unfold ket_zero.
  change [Hadamard 0] with (map Hadamard (seq 0 1)).
  rewrite (hadamard_layer_spike 1 (1%R, 0%R) b Hb).
  unfold Cscale; simpl; f_equal; ring.
Qed.

Lemma grover_one_qubit_is_hadamard_witness :
  run (_diffusion 1) ket_zero [true] = ket_zero [true]
  /\ run (create_grover_circuit 1 1 3) ket_zero [true]
     = run [Hadamard 0] ket_zero [true]
  /\ run (create_grover_circuit 1 1 3) ket_zero [true]
     = ((/ sqrt 2)%R, 0%R).
Proof.
  apply (grover_one_qubit_is_hadamard 1 3 ket_zero [true]).
  - lia.
  - reflexivity.
Defined.

(** X5 : With two qubits or more, one Grover iteration (the oracle's gates,
    then the diffusion's) keeps a vector two-valued: amplitude [a] on the
    target and [b] on every other basis state become [-a - 2m] and
    [b - 2m], where [m = (-a + (2^n - 1) b) / 2^n]. *)
Theorem grover_iteration_two_level (n : nat) (t : Z) (a b : amp)
  (psi : state) :
  (2 <= n)%nat ->
  0 <= t < 2 ^ Z.of_nat n ->
  state_eq_on n psi (two_level t a b) ->
  state_eq_on n (run (_oracle n t ++ _diffusion n) psi)
    (two_level t
       (Csub (Copp a)
          (Cscale 2 (Cscale (/ 2 ^ n)
                       (Cadd (Copp a) (Cscale (2 ^ n - 1) b)))))
       (Csub b
          (Cscale 2 (Cscale (/ 2 ^ n)
                       (Cadd (Copp a) (Cscale (2 ^ n - 1) b)))))).
Proof. intros Hn Ht Hpsi. apply (grover_step_run n t a b psi Hn Ht Hpsi). Qed.

Lemma grover_iteration_two_level_witness :
  state_eq_on 2
    (run (_oracle 2 3 ++ _diffusion 2)
       (two_level 3 (1%R, 0%R) (0%R, 0%R)))
    (two_level 3
       (Csub (Copp (1%R, 0%R))
          (Cscale 2 (Cscale (/ 2 ^ 2)
                       (Cadd (Copp (1%R, 0%R))
                             (Cscale (2 ^ 2 - 1) (0%R, 0%R))))))
       (Csub (0%R, 0%R)
          (Cscale 2 (Cscale (/ 2 ^ 2)
                       (Cadd (Copp (1%R, 0%R))
                             (Cscale (2 ^ 2 - 1) (0%R, 0%R))))))).
Proof.
  apply (grover_iteration_two_level 2 3 (1%R, 0%R) (0%R, 0%R)).
  - lia.
  - simpl; lia.
  - intros c _; reflexivity.
Defined.

(** X6 : With two qubits or more, the circuit of [create_grover_circuit]
    run on the all-zero register leaves, after [k] iterations, amplitude
    [(-1)^k sin((2k+1) theta)] on the target and
    [(-1)^k cos((2k+1) theta) / sqrt (2^n - 1)] on every other basis state,
    where [sin theta = 1 / sqrt (2^n)]. *)
Theorem grover_amplitudes (n : nat) (t : Z) (k : nat) (c : basis) :
  (2 <= n)%nat ->
  0 <= t < 2 ^ Z.of_nat n ->
  length c = n ->
  run (create_grover_circuit n t k) ket_zero c
  = if basis_index c =? t then target_amp n k else other_amp n k.
Proof.
  intros Hn Ht Hc. unfold create_grover_circuit. rewrite run_app.
  apply (grover_iterations_run n Hn t k Ht 0 _
           (uniform_as_two_level n Hn t) c Hc).
Qed.

Lemma grover_amplitudes_witness :
  run (create_grover_circuit 3 5 2) ket_zero [true; false; true]
  = if basis_index [true; false; true] =? 5
    then target_amp 3 2 else other_amp 3 2.
Proof.
  apply (grover_amplitudes 3 5 2 [true; false; true]).
  - lia.
  - simpl; lia.
  - reflexivity.
Defined.

(** X7 : With two qubits, one Grover iteration on the all-zero register
    puts the whole amplitude on the target: -1 there and 0 on the three
    other basis states, for each of the four targets. *)
Theorem grover_two_qubits_finds_target (t : Z) (b : basis) :
  0 <= t < 4 ->
  length b = 2%nat ->
  run (create_grover_circuit 2 t 1) ket_zero b
  = if basis_index b =? t then ((-1)%R, 0%R) else (0%R, 0%R).
Proof. intros Ht Hb. apply grover_two_qubits_run; assumption. Qed.

Lemma grover_two_qubits_finds_target_witness :
  run (create_grover_circuit 2 2 1) ket_zero [true; false]
  = if basis_index [true; false] =? 2 then ((-1)%R, 0%R) else (0%R, 0%R).
Proof.
  apply (grover_two_qubits_finds_target 2 [true; false]).
  - lia.
  - reflexivity.
Defined.

(** X8 : For a register of at least one qubit and a target inside it,
    every gate of the circuit of [create_grover_circuit] (and so of
    [_oracle] and [_diffusion]) acts on wires below [n_qubits] only. *)
Theorem grover_circuit_wires_below (n : nat) (t : Z) (k : nat) :
  (1 <= n)%nat ->
  0 <= t < 2 ^ Z.of_nat n ->
  wires_below n (create_grover_circuit n t k) = true
  /\ wires_below n (_oracle n t) = true
  /\ wires_below n (_diffusion n) = true.
Proof.
  intros Hn Ht. split; [|split].
  - unfold create_grover_circuit.
    rewrite wires_below_app, hadamard_layer_wires, grover_iterations_wires
      by assumption. reflexivity.
  - apply oracle_wires_below; assumption.
  - apply diffusion_wires_below; exact Hn.
Qed.

Lemma grover_circuit_wires_below_witness :
  wires_below 3 (create_grover_circuit 3 6 2) = true
  /\ wires_below 3 (_oracle 3 6) = true
  /\ wires_below 3 (_diffusion 3) = true.
Proof.
  apply (grover_circuit_wires_below 3 6 2).
  - lia.
  - simpl; lia.
Defined.

(** ** Further properties of the codec and the classical scan *)

Lemma text_to_index_ok_valid (cs text : str) (i : Z) :
  text_to_index cs text = Ok i -> Forall (fun c => In c cs) text.
Proof.
  intros Hok. destruct (all_in_or_not cs text) as [Hall|(c & Hc & Hn)];
    [exact Hall|].
  unfold text_to_index in Hok.
  rewrite text_to_index_loop_raises in Hok; [discriminate|].
  exists c; split; [apply in_rev in Hc; exact Hc | exact Hn].
Qed.

(** X9 : [text_to_index] raises [ValueError] exactly when the text holds a
    symbol that is not in the alphabet; it raises nothing else. *)
Theorem text_to_index_value_error (cs text : str) :
  ((exists c, In c text /\ ~ In c cs)
   <-> text_to_index cs text = Raise ValueError)
  /\ (forall e, text_to_index cs text = Raise e -> e = ValueError).
Proof.
  assert (Hraise : (exists c, In c text /\ ~ In c cs) ->
                   text_to_index cs text = Raise ValueError).
  { intros (c & Hc & Hn). unfold text_to_index.
    apply text_to_index_loop_raises.
    exists c; split; [apply in_rev in Hc; exact Hc | exact Hn]. }
  assert (Hcases : forall e, text_to_index cs text = Raise e ->
                   exists c, In c text /\ ~ In c cs).
  { intros e He. destruct (all_in_or_not cs text) as [Hall|Hex];
      [|exact Hex].
    rewrite text_to_index_spec in He by exact Hall. discriminate. }
  split; [split|].
  - exact Hraise.
  - apply Hcases.
  - intros e He. pose proof (Hraise (Hcases e He)) as Hv. congruence.
Qed.

Lemma text_to_index_bound (cs text : str) (i : Z) :
  text_to_index cs text = Ok i ->
  0 <= i < py_len cs ^ py_len text.
Proof.
  intros Hok. pose proof (text_to_index_ok_valid cs text i Hok) as Hall.
  rewrite text_to_index_spec in Hok by exact Hall. injection Hok as <-.
  pose proof (lsb_val_bound cs (rev text) (Forall_rev Hall)) as Hb.
  unfold py_len in *. rewrite length_rev in Hb. exact Hb.
Qed.

(** X10 : An index returned by [text_to_index] lies in
    [0 <= index < B^len(text)], [B] the size of the alphabet. *)
Theorem text_to_index_range (cs text : str) (i : Z) :
  text_to_index cs text = Ok i ->
  0 <= i < py_len cs ^ py_len text.
Proof. apply text_to_index_bound. Qed.

Lemma text_to_index_range_witness :
  0 <= 3843 < py_len full_charset ^ py_len (list_ascii_of_string "99").
Proof.
  apply (text_to_index_range full_charset (list_ascii_of_string "99") 3843).
  reflexivity.
Defined.

(** X11 : Two texts of the same length with the same index are the same
    text: [text_to_index] never maps two candidates of one length to one
    index. *)
Theorem text_to_index_injective (cs s1 s2 : str) (i : Z) :
  length s1 = length s2 ->
  text_to_index cs s1 = Ok i ->
  text_to_index cs s2 = Ok i ->
  s1 = s2.
Proof.
  intros Hlen H1 H2.
  destruct (decode_encode cs s1 (text_to_index_ok_valid _ _ _ H1))
    as (i1 & E1 & D1).
  destruct (decode_encode cs s2 (text_to_index_ok_valid _ _ _ H2))
    as (i2 & E2 & D2).
  rewrite H1 in E1; rewrite H2 in E2.
  injection E1 as <-; injection E2 as <-.
  rewrite Hlen, D2 in D1. congruence.
Qed.

Lemma text_to_index_injective_witness :
  list_ascii_of_string "ba" = list_ascii_of_string "ba".
Proof.
  apply (text_to_index_injective full_charset (list_ascii_of_string "ba")
           (list_ascii_of_string "ba") 62); reflexivity.
Defined.

(** X12 : Over a non-empty alphabet [index_to_text] accepts every integer,
    negative or beyond [B^L] included, and returns a text over the
    alphabet; when the alphabet has no repeated symbol the index of that
    text is [index mod B^L]. *)
Theorem index_to_text_any_integer (cs : str) (index : Z) (L : nat) :
  cs <> [] ->
  exists text,
    index_to_text cs index L = Ok text
    /\ Forall (fun c => In c cs) text
    /\ (NoDup cs ->
        text_to_index cs text = Ok (index mod py_len cs ^ Z.of_nat L)).
Proof.
  intros Hne. exists (rev (lsb_chars cs L index)).
  pose proof (lsb_chars_in cs L Hne index) as Hin.
  split; [apply index_to_text_spec; exact Hne|].
  split; [apply Forall_rev; exact Hin|].
  intros Hnd. rewrite text_to_index_spec by (apply Forall_rev; exact Hin).
  rewrite rev_involutive, <- (lsb_chars_mod cs L Hne index).
  rewrite lsb_val_chars; [reflexivity | exact Hnd |].
  apply Z.mod_pos_bound. apply Z.pow_pos_nonneg; [|lia].
  apply py_len_pos; exact Hne.
Qed.

Lemma index_to_text_any_integer_witness :
  exists text,
    index_to_text abcd (-1) 2 = Ok text
    /\ Forall (fun c => In c abcd) text
    /\ (NoDup abcd ->
        text_to_index abcd text = Ok ((-1) mod py_len abcd ^ Z.of_nat 2)).
Proof. apply (index_to_text_any_integer abcd (-1) 2). discriminate. Defined.

(** X13 : [index_to_text] fails in one case only: an empty alphabet with a
    positive length, where the modulo raises [ZeroDivisionError]. It never
    raises [IndexError]. *)
Theorem index_to_text_failure (cs : str) (index : Z) (L : nat) (e : exn) :
  index_to_text cs index L = Raise e
  <-> cs = [] /\ L <> 0%nat /\ e = ZeroDivisionError.
Proof.
  split.
  - intros He. destruct cs as [|c cs].
    + destruct L as [|L]; [discriminate|].
      cbn in He. injection He as <-.
      repeat split; discriminate.
    + rewrite index_to_text_spec in He by discriminate. discriminate.
  - intros (-> & HL & ->). destruct L as [|L]; [congruence|]. reflexivity.
Qed.

(** X14 : The candidates that [classical_bruteforce] and [quantum_search]
    enumerate with [itertools.product] are exactly the texts of the given
    length over the alphabet; their number is
    [calculate_search_space(length)], and none is listed twice when the
    alphabet has no repeated symbol. *)
Theorem product_enumerates_candidates (cs : str) (L : nat) :
  (forall s, In s (product cs L)
             <-> length s = L /\ Forall (fun c => In c cs) s)
  /\ py_len (product cs L) = calculate_search_space cs L
  /\ (NoDup cs -> NoDup (product cs L)).
Proof.
  split; [|split].
  - intros s; split.
    + intros Hin. split.
      * pose proof (product_lengths cs L) as Hl.
        rewrite Forall_forall in Hl. apply Hl; exact Hin.
      * pose proof (product_valid cs L) as Hv.
        rewrite Forall_forall in Hv. apply Hv; exact Hin.
    + intros [Hl Hv]. apply product_complete; assumption.
  - unfold py_len. rewrite product_count, search_space_as_nat. reflexivity.
  - intros Hnd.
    apply (NoDup_map_inv (fun s => lsb_val cs (rev s))).
    rewrite (product_values cs Hnd L).
    apply Finite.Injective_map_NoDup; [|apply seq_NoDup].
    intros x y Hxy. lia.
Qed.

(** X15 : When the target hash is the digest of a text of the given length
    over the alphabet, [classical_bruteforce] returns a text of that length
    over the alphabet with that digest, after at least one and at most
    [calculate_search_space(length)] attempts. *)
Theorem bruteforce_finds_a_preimage (cs : str) (simple_hash : str -> str)
  (message : str) :
  Forall (fun c => In c cs) message ->
  exists s n_attempts,
    classical_bruteforce cs simple_hash (simple_hash message)
      (length message) = (Some s, n_attempts)
    /\ simple_hash s = simple_hash message
    /\ length s = length message
    /\ Forall (fun c => In c cs) s
    /\ 1 <= n_attempts <= calculate_search_space cs (length message).
Proof.
  intros Hmsg. unfold classical_bruteforce.
  pose proof (product_complete cs (length message) message eq_refl Hmsg)
    as Hin.
  destruct (bruteforce_loop_spec simple_hash (simple_hash message)
              (product cs (length message)) 0)
    as [(pre & s & post & Hsplit & Hpre & Hs & Hrun)|(Hall & _)].
  - exists s, (0 + py_len pre + 1). split; [exact Hrun|].
    assert (Hs_in : In s (product cs (length message))).
    { rewrite Hsplit. apply in_or_app; right; left; reflexivity. }
    split; [exact Hs|]. split.
    { pose proof (product_lengths cs (length message)) as Hl.
      rewrite Forall_forall in Hl. apply Hl; exact Hs_in. }
    split.
    { pose proof (product_valid cs (length message)) as Hv.
      rewrite Forall_forall in Hv. apply Hv; exact Hs_in. }
    rewrite search_space_as_nat, <- product_count, Hsplit.
    rewrite length_app. cbn [length]. unfold py_len. lia.
  - rewrite Forall_forall in Hall. exfalso.
    apply (Hall message Hin). reflexivity.
Qed.

Lemma bruteforce_finds_a_preimage_witness :
  exists s n_attempts,
    classical_bruteforce abcd (fun s => s)
      ((fun s : str => s) (list_ascii_of_string "db"))
      (length (list_ascii_of_string "db")) = (Some s, n_attempts)
    /\ (fun s : str => s) s = (fun s : str => s) (list_ascii_of_string "db")
    /\ length s = length (list_ascii_of_string "db")
    /\ Forall (fun c => In c abcd) s
    /\ 1 <= n_attempts
       <= calculate_search_space abcd (length (list_ascii_of_string "db")).
Proof.
  apply (bruteforce_finds_a_preimage abcd (fun s => s)
           (list_ascii_of_string "db")).
  repeat (apply Forall_cons; [in_charset|]). apply Forall_nil.
Defined.

(** X16 : Over an alphabet without repeated symbols, the text that
    [classical_bruteforce] returns is the first match: no text of the same
    length whose index is below [attempts - 1] has the target hash. *)
Theorem bruteforce_returns_first_match (cs : str)
  (simple_hash : str -> str) (target_hash : str) (L : nat) (s : str)
  (n_attempts : Z) (s' : str) (j : Z) :
  NoDup cs ->
  classical_bruteforce cs simple_hash target_hash L = (Some s, n_attempts) ->
  length s' = L ->
  text_to_index cs s' = Ok j ->
  j < n_attempts - 1 ->
  simple_hash s' <> target_hash.
Proof.
  intros Hnd Hrun Hlen Hj Hlt. unfold classical_bruteforce in Hrun.
  destruct (bruteforce_loop_spec simple_hash target_hash (product cs L) 0)
    as [(pre & s0 & post & Hsplit & Hpre & Hs & Hrun')|(_ & Hrun')];
    rewrite Hrun in Hrun'; [|discriminate].
  injection Hrun' as -> ->.
  assert (Hin : In s' (product cs L)).
  { apply product_complete; [exact Hlen|].
    eapply text_to_index_ok_valid; exact Hj. }
  apply In_nth_error in Hin. destruct Hin as [j' Hj'].
  pose proof (product_nth cs Hnd L j' s' Hj') as Hidx.
  rewrite Hj in Hidx. injection Hidx as ->.
  rewrite Forall_forall in Hpre. apply Hpre.
  rewrite Hsplit in Hj'.
  apply (nth_error_in_prefix pre s0 post j' s' Hj').
  unfold py_len in Hlt. lia.
Qed.

Lemma bruteforce_returns_first_match_witness :
  (fun s : str => firstn 1 s) (list_ascii_of_string "ad")
  <> list_ascii_of_string "b".
Proof.
  apply (bruteforce_returns_first_match abcd (fun s => firstn 1 s)
           (list_ascii_of_string "b") 2 (list_ascii_of_string "ba") 5
           (list_ascii_of_string "ad") 3).
  - apply distinct_NoDup; reflexivity.
  - reflexivity.
  - reflexivity.
  - reflexivity.
  - lia.
Defined.

(** X17 : [classical_bruteforce] returns no text exactly when no text of
    the given length over the alphabet has the target hash, and it has
    then made [calculate_search_space(length)] attempts. *)
Theorem bruteforce_exhausts_the_space (cs : str)
  (simple_hash : str -> str) (target_hash : str) (L : nat) :
  (fst (classical_bruteforce cs simple_hash target_hash L) = None
   <-> forall s, length s = L -> Forall (fun c => In c cs) s ->
                 simple_hash s <> target_hash)
  /\ (fst (classical_bruteforce cs simple_hash target_hash L) = None ->
      snd (classical_bruteforce cs simple_hash target_hash L)
      = calculate_search_space cs L).
Proof.
  unfold classical_bruteforce.
  destruct (bruteforce_loop_spec simple_hash target_hash (product cs L) 0)
    as [(pre & s0 & post & Hsplit & Hpre & Hs & Hrun)|(Hall & Hrun)];
    rewrite Hrun; cbn [fst snd].
  - split; [split|]; try discriminate.
    intros Hno. exfalso.
    assert (Hin : In s0 (product cs L)).
    { rewrite Hsplit. apply in_or_app; right; left; reflexivity. }
    pose proof (product_lengths cs L) as Hl.
    pose proof (product_valid cs L) as Hv.
    rewrite Forall_forall in Hl, Hv.
    apply (Hno s0 (Hl s0 Hin) (Hv s0 Hin)). exact Hs.
  - split; [split|].
    + intros _ s Hlen Hval. rewrite Forall_forall in Hall.
      apply Hall. apply product_complete; assumption.
    + reflexivity.
    + intros _. rewrite search_space_as_nat, <- product_count.
      unfold py_len. lia.
Qed.

(** ** Further properties of the result interpretation and the drivers *)

(** X20 : Among the entries with the highest count the interpretation
    takes the one that comes first in the distribution: every entry before
    the chosen one has a strictly smaller count, every entry after it has
    a count that is not larger. *)
Theorem parse_result_takes_first_maximum (cs : str) (cnts : counts)
  (target_index : Z) (L : nat) :
  cs <> [] ->
  cnts <> [] ->
  (forall key c, In (key, c) cnts -> is_bitstring key = true) ->
  exists pre key cnt post idx text,
    cnts = pre ++ (key, cnt) :: post
    /\ (forall it, In it pre -> snd it < cnt)
    /\ (forall it, In it post -> snd it <= cnt)
    /\ int_base2 key = Ok idx
    /\ parse_result cs cnts target_index L
       = Ok (idx =? target_index, Some text, cnts).
Proof.
  intros Hcs Hne Hkeys. destruct cnts as [|it rest]; [congruence|].
  cbn [parse_result].
  pose proof (max_item_from_first rest it) as Hfirst. cbv zeta in Hfirst.
  set (m := max_item_from it rest) in *.
  assert (Hsplit : exists pre post,
             it :: rest = pre ++ m :: post
             /\ (forall x, In x pre -> snd x < snd m)
             /\ (forall x, In x post -> snd x <= snd m)).
  { destruct Hfirst as [(Hm & Hall)|(pre & post & Hi & Hb & Hp & Hq)].
    - exists [], rest. rewrite Hm. repeat split; [intros ? [] | exact Hall].
    - exists (it :: pre), post. rewrite Hi at 1.
      repeat split; [|exact Hq].
      intros x [<-|Hx]; [exact Hb | apply Hp; exact Hx]. }
  destruct Hsplit as (pre & post & Hi & Hp & Hq).
  destruct m as [key cnt] eqn:Em.
  assert (Hin : In (key, cnt) (it :: rest)).
  { rewrite Hi. apply in_or_app; right; left; reflexivity. }
  destruct (int_base2_bitstring key (Hkeys key cnt Hin)) as [idx Hidx].
  exists pre, key, cnt, post, idx, (rev (lsb_chars cs L idx)).
  split; [exact Hi|]. split; [exact Hp|]. split; [exact Hq|].
  split; [exact Hidx|].
  cbn [fst]. rewrite Hidx; cbn [bind].
  rewrite index_to_text_spec by exact Hcs. reflexivity.
Qed.

Lemma parse_result_takes_first_maximum_witness :
  exists pre key cnt post idx text,
    [(list_ascii_of_string "01", 300); (list_ascii_of_string "10", 362);
     (list_ascii_of_string "11", 362)]
    = pre ++ (key, cnt) :: post
    /\ (forall it, In it pre -> snd it < cnt)
    /\ (forall it, In it post -> snd it <= cnt)
    /\ int_base2 key = Ok idx
    /\ parse_result abcd
         [(list_ascii_of_string "01", 300); (list_ascii_of_string "10", 362);
          (list_ascii_of_string "11", 362)] 3 1
       = Ok (idx =? 3, Some text,
             [(list_ascii_of_string "01", 300);
              (list_ascii_of_string "10", 362);
              (list_ascii_of_string "11", 362)]).
Proof.
  apply (parse_result_takes_first_maximum abcd).
  - discriminate.
  - discriminate.
  - intros key c [E|[E|[E|[]]]]; inversion E; reflexivity.
Defined.

Lemma parse_result_success (cs : str) (cnts cnts' : counts)
  (target_index : Z) (L : nat) (text : str) :
  parse_result cs cnts target_index L = Ok (true, Some text, cnts') ->
  index_to_text cs target_index L = Ok text.
Proof.
  unfold parse_result. destruct cnts as [|it rest]; [discriminate|].
  destruct (int_base2 _) as [idx|e]; cbn [bind]; [|discriminate].
  destruct (index_to_text cs idx L) as [mt|e] eqn:Ed; cbn [bind];
    [|discriminate].
  intros Heq. injection Heq as Hidx Hmt _.
  apply Z.eqb_eq in Hidx. subst. exact Ed.
Qed.

Section DriverFacts.

Variable simple_hash : str -> str.
Variable libm_log2 : double -> double.
Variable aer_run : circuit -> result counts.
Variable ibm_run : str -> circuit -> option counts.

Lemma quantum_search_success_sound (self : cracker) (target_hash : str)
  (L : nat) (text : str) (cnts : counts) (self' : cracker) :
  quantum_search simple_hash libm_log2 aer_run ibm_run self target_hash L
  = (Ok (true, Some text, cnts), self') ->
  simple_hash text = target_hash /\ length text = L
  /\ Forall (fun c => In c (charset self)) text.
Proof.
  destruct self as [cs att qi sv bk]. unfold quantum_search.
  cbn [charset backend].
  destruct (qubit_count _) as [nq|e]; [|discriminate].
  destruct (iteration_count _) as [it|e]; [|discriminate].
  cbn [charset set_quantum_iterations backend attempts service].
  destruct (find_target _ _ _ _) as [[ti|]|e] eqn:Ef;
    [| discriminate | discriminate].
  apply find_target_found in Ef. destruct Ef as (cand & Hin & Hh & Hi).
  assert (Hl : length cand = L).
  { pose proof (product_lengths cs L) as Hl.
    rewrite Forall_forall in Hl. apply Hl; exact Hin. }
  assert (Hv : Forall (fun c => In c cs) cand).
  { pose proof (product_valid cs L) as Hv.
    rewrite Forall_forall in Hv. apply Hv; exact Hin. }
  destruct (decode_encode cs cand Hv) as (i & Ei & Di).
  rewrite Hi in Ei. injection Ei as <-. rewrite Hl in Di.
  assert (Hdone : forall out,
             parse_result cs out ti L = Ok (true, Some text, cnts) ->
             simple_hash text = target_hash /\ length text = L
             /\ Forall (fun c => In c cs) text).
  { intros out Hp. apply parse_result_success in Hp.
    rewrite Di in Hp. injection Hp as <-. repeat split; assumption. }
  destruct (checked_circuit _ _) as [qc|e]; [|discriminate].
  destruct bk as [[|name]|];
    cbn [backend set_backend set_quantum_iterations charset attempts
         service quantum_iterations].
  - destruct (aer_run qc) as [out|e]; [|discriminate].
    intros Heq. injection Heq as Hp _. apply (Hdone out Hp).
  - destruct (ibm_run name qc) as [out|]; [|discriminate].
    intros Heq. injection Heq as Hp _. apply (Hdone out Hp).
  - destruct (aer_run qc) as [out|e]; [|discriminate].
    intros Heq. injection Heq as Hp _. apply (Hdone out Hp).
Qed.

Lemma quantum_search_no_match (self : cracker) (target_hash : str)
  (L : nat) (n_qubits : Z) :
  qubit_count libm_log2 (calculate_search_space (charset self) L)
  = Ok n_qubits ->
  calculate_search_space (charset self) L < 2 ^ 1024 - 2 ^ 970 ->
  Forall (fun c => simple_hash c <> target_hash)
    (product (charset self) L) ->
  exists it,
    iteration_count (calculate_search_space (charset self) L) = Ok it
    /\ 1 <= it
    /\ quantum_search simple_hash libm_log2 aer_run ibm_run self target_hash L
       = (Ok no_result, set_quantum_iterations self it).
Proof.
  intros Hq Hspace Hno.
  assert (H1 : 1 <= calculate_search_space (charset self) L).
  { unfold qubit_count in Hq.
    destruct (math_log2 libm_log2 _) as [d|e] eqn:Ed; [|discriminate].
    apply (math_log2_ok_positive libm_log2 _ d Ed). }
  destruct (iteration_count_steps (calculate_search_space (charset self) L))
    as (r & x & _ & _ & _ & _ & _ & Hit); [lia|].
  eexists. split; [exact Hit|]. split; [lia|].
  unfold quantum_search. rewrite Hq, Hit.
  cbn [charset set_quantum_iterations].
  rewrite find_target_none by exact Hno. reflexivity.
Qed.

Lemma quantum_search_frame (self : cracker) (target_hash : str) (L : nat) :
  let self' :=
    snd (quantum_search simple_hash libm_log2 aer_run ibm_run self
           target_hash L) in
  charset self' = charset self /\ attempts self' = attempts self
  /\ service self' = service self.
Proof.
  destruct self as [cs att qi sv bk]. unfold quantum_search.
  cbn [charset backend].
  destruct (qubit_count _) as [nq|e]; [|repeat split].
  destruct (iteration_count _) as [it|e]; [|repeat split].
  cbn [charset set_quantum_iterations backend attempts service].
  destruct (find_target _ _ _ _) as [[ti|]|e]; [| repeat split..].
  destruct (checked_circuit _ _) as [qc|e]; [|repeat split].
  destruct bk as [[|name]|];
    cbn [backend set_backend set_quantum_iterations charset attempts
         service quantum_iterations].
  - destruct (aer_run qc); repeat split.
  - destruct (ibm_run name qc); repeat split.
  - destruct (aer_run qc); repeat split.
Qed.

End DriverFacts.

(** X21 : When [quantum_search] reports success, the text it returns has
    the target hash, has the requested length and is written over the
    alphabet, whatever the execution engine answered. *)
Theorem quantum_search_success_has_target_hash (simple_hash : str -> str)
  (libm_log2 : double -> double)
  (aer_run : circuit -> result counts)
  (ibm_run : str -> circuit -> option counts)
  (self : cracker) (target_hash : str) (L : nat) (text : str)
  (cnts : counts) (self' : cracker) :
  quantum_search simple_hash libm_log2 aer_run ibm_run self target_hash L
  = (Ok (true, Some text, cnts), self') ->
  simple_hash text = target_hash /\ length text = L
  /\ Forall (fun c => In c (charset self)) text.
Proof. apply quantum_search_success_sound. Qed.

Lemma quantum_search_success_has_target_hash_witness :
  (fun s : str => s) (list_ascii_of_string "c") = list_ascii_of_string "c"
  /\ length (list_ascii_of_string "c") = 1%nat
  /\ Forall (fun c => In c (charset (mkCracker abcd 0 0 None None)))
       (list_ascii_of_string "c").
Proof.
  eapply (quantum_search_success_has_target_hash (fun s => s) log2_floor
            (fun _ => Ok [(list_ascii_of_string "10", 1024)])
            (fun _ _ => None)
            (mkCracker abcd 0 0 None None) (list_ascii_of_string "c") 1).
  reflexivity.
Defined.

(** X18 : A search space of zero or fewer candidates raises [ValueError]
    from [math.log2], whatever the library's [log2] is; so over an empty
    alphabet [quantum_search] raises [ValueError] for every length from 1
    on and leaves the object as it was.  A space of one candidate gives 0
    qubits wherever [log2(1.0)] is [0.0]. *)
Theorem qubit_count_edge_cases (simple_hash : str -> str)
  (libm_log2 : double -> double)
  (aer_run : circuit -> result counts)
  (ibm_run : str -> circuit -> option counts)
  (self : cracker) (target_hash : str) (L : nat) (N : Z) :
  (N <= 0 -> qubit_count libm_log2 N = Raise ValueError)
  /\ (libm_log2 (double_of_Z 1) = S754_zero false ->
      qubit_count libm_log2 1 = Ok 0)
  /\ (charset self = [] -> (1 <= L)%nat ->
      quantum_search simple_hash libm_log2 aer_run ibm_run self target_hash L
      = (Raise ValueError, self)).
Proof.
  assert (Hneg : forall M,
             M <= 0 -> qubit_count libm_log2 M = Raise ValueError).
  { intros M HM. unfold qubit_count, math_log2.
    destruct (M <=? 0) eqn:E; [reflexivity | apply Z.leb_gt in E; lia]. }
  split; [apply Hneg|]. split.
  - intros H1. unfold qubit_count, math_log2.
    change (1 <=? 0) with false.
    assert (E : double_of_Z 1 = S754_finite false 4503599627370496 (-52))
      by (vm_compute; reflexivity).
    rewrite E in *. cbn [bind]. rewrite H1. reflexivity.
  - intros Hcs HL. unfold quantum_search.
    rewrite Hneg; [reflexivity|].
    unfold calculate_search_space. rewrite Hcs.
    change (py_len (@nil ascii)) with 0. rewrite Z.pow_0_l by lia. lia.
Qed.

Lemma qubit_count_edge_cases_witness :
  qubit_count log2_floor 0 = Raise ValueError
  /\ qubit_count log2_floor 1 = Ok 0
  /\ quantum_search (fun s => s) log2_floor
       (fun _ => Ok [(list_ascii_of_string "0", 1024)]) (fun _ _ => None)
       (mkCracker [] 0 0 None None) (list_ascii_of_string "a") 1
     = (Raise ValueError, mkCracker [] 0 0 None None).
Proof.
  pose proof (qubit_count_edge_cases (fun s => s) log2_floor
                (fun _ => Ok [(list_ascii_of_string "0", 1024)])
                (fun _ _ => None) (mkCracker [] 0 0 None None)
                (list_ascii_of_string "a") 1 0) as (H0 & H1 & Hq).
  split; [apply H0; lia|]. split; [apply H1; vm_compute; reflexivity|].
  apply Hq; [reflexivity | lia].
Defined.

(** X19 : From a search space of [2^1024 - 2^970] candidates on, which
    length 172 over the 62 symbols reaches, [quantum_search] raises before
    the scan for the target and leaves the object as it was,
    [quantum_iterations] included: [OverflowError] from [math.sqrt], unless
    the qubit count has raised already. *)
Theorem quantum_search_overflow (simple_hash : str -> str)
  (libm_log2 : double -> double)
  (aer_run : circuit -> result counts)
  (ibm_run : str -> circuit -> option counts)
  (self : cracker) (target_hash : str) (L : nat) :
  2 ^ 1024 - 2 ^ 970 <= calculate_search_space (charset self) L ->
  exists e,
    quantum_search simple_hash libm_log2 aer_run ibm_run self target_hash L
    = (Raise e, self)
    /\ (forall n,
          qubit_count libm_log2 (calculate_search_space (charset self) L)
          = Ok n ->
          e = OverflowError).
Proof.
  intros HN. unfold quantum_search.
  destruct (qubit_count libm_log2 _) as [n|e] eqn:Eq.
  - unfold iteration_count. rewrite math_sqrt_overflow by exact HN.
    cbn [bind]. exists OverflowError. split; reflexivity.
  - exists e. split; [reflexivity|]. intros n Hn. discriminate.
Qed.

Lemma quantum_search_overflow_witness :
  2 ^ 1024 - 2 ^ 970 <= calculate_search_space full_charset 172
  /\ exists e,
       quantum_search (fun s => s) log2_floor
         (fun _ => Ok [(list_ascii_of_string "0", 1024)]) (fun _ _ => None)
         (mkCracker full_charset 0 0 None None)
         (list_ascii_of_string "a") 172
       = (Raise e, mkCracker full_charset 0 0 None None)
       /\ (forall n,
             qubit_count log2_floor
               (calculate_search_space
                  (charset (mkCracker full_charset 0 0 None None)) 172)
             = Ok n ->
             e = OverflowError).
Proof.
  split; [vm_compute; discriminate|].
  apply (quantum_search_overflow (fun s => s) log2_floor
           (fun _ => Ok [(list_ascii_of_string "0", 1024)]) (fun _ _ => None)
           (mkCracker full_charset 0 0 None None)
           (list_ascii_of_string "a") 172).
  vm_compute. discriminate.
Defined.

(** X22 : When the qubit count is computed, the search space is below
    [2^1024 - 2^970] and no candidate of the given length has the target hash,
    [quantum_search] returns the empty result without building a circuit or
    calling an engine: it only records the iteration count, which is at
    least 1, and a missing backend stays missing. *)
Theorem quantum_search_without_match (simple_hash : str -> str)
  (libm_log2 : double -> double)
  (aer_run : circuit -> result counts)
  (ibm_run : str -> circuit -> option counts)
  (self : cracker) (target_hash : str) (L : nat) (n_qubits : Z) :
  qubit_count libm_log2 (calculate_search_space (charset self) L)
  = Ok n_qubits ->
  calculate_search_space (charset self) L < 2 ^ 1024 - 2 ^ 970 ->
  Forall (fun c => simple_hash c <> target_hash)
    (product (charset self) L) ->
  exists it,
    iteration_count (calculate_search_space (charset self) L) = Ok it
    /\ 1 <= it
    /\ quantum_search simple_hash libm_log2 aer_run ibm_run self target_hash L
       = (Ok no_result, set_quantum_iterations self it)
    /\ backend (set_quantum_iterations self it) = backend self.
Proof.
  intros Hq Hs Hno.
  destruct (quantum_search_no_match simple_hash libm_log2 aer_run ibm_run
              self target_hash L n_qubits Hq Hs Hno)
    as (it & Hit & H1 & Hrun).
  exists it. repeat split; assumption.
Qed.

Lemma quantum_search_without_match_witness :
  exists it,
    iteration_count
      (calculate_search_space (charset (mkCracker abcd 0 0 None None)) 1)
    = Ok it
    /\ 1 <= it
    /\ quantum_search (fun s => s) log2_floor
         (fun _ => Raise ValueError) (fun _ _ => None)
         (mkCracker abcd 0 0 None None) (list_ascii_of_string "z") 1
       = (Ok no_result,
          set_quantum_iterations (mkCracker abcd 0 0 None None) it)
    /\ backend (set_quantum_iterations (mkCracker abcd 0 0 None None) it)
       = backend (mkCracker abcd 0 0 None None).
Proof.
  apply (quantum_search_without_match (fun s => s) log2_floor
           (fun _ => Raise ValueError) (fun _ _ => None)
           (mkCracker abcd 0 0 None None) (list_ascii_of_string "z") 1 2).
  - vm_compute. reflexivity.
  - vm_compute. reflexivity.
  - repeat (apply Forall_cons; [discriminate|]). apply Forall_nil.
Defined.

(** X23 : [select_backend] always leaves a backend installed; it stores a
    device name only when a service is configured and the name is not
    "aer_simulator", and a later [quantum_search] keeps whatever it
    installed. *)
Theorem select_backend_installs (simple_hash : str -> str)
  (libm_log2 : double -> double)
  (aer_run : circuit -> result counts)
  (ibm_run : str -> circuit -> option counts)
  (self : cracker) (backend_name target_hash : str) (L : nat) :
  backend (select_backend self backend_name) <> None
  /\ (forall name,
        backend (select_backend self backend_name)
        = Some (IBMBackend name) ->
        name = backend_name /\ service self <> None
        /\ backend_name <> list_ascii_of_string "aer_simulator")
  /\ backend (snd (quantum_search simple_hash libm_log2 aer_run ibm_run
                     (select_backend self backend_name) target_hash L))
     = backend (select_backend self backend_name).
Proof.
  assert (Hset : exists bk,
             backend (select_backend self backend_name) = Some bk).
  { unfold select_backend. destruct (str_eqb _ _); [eexists; reflexivity|].
    destruct (service self); eexists; reflexivity. }
  destruct Hset as [bk Hbk]. split; [congruence|]. split.
  - unfold select_backend.
    destruct (str_eqb backend_name _) eqn:E; [discriminate|].
    destruct (service self) as [sv|] eqn:Es; [|discriminate].
    cbn [backend set_backend]. intros name Heq. injection Heq as <-.
    repeat split; [discriminate|].
    intros Hn. apply str_eqb_eq in Hn. congruence.
  - rewrite Hbk. apply quantum_search_keeps_backend. exact Hbk.
Qed.

(** X24 : When the call to [quantum_search] inside [quantum_search_aer]
    raises, the previous backend is not put back: the simulator stays in
    [self.backend]. *)
Theorem quantum_search_aer_leaves_simulator_on_raise
  (simple_hash : str -> str)
  (libm_log2 : double -> double)
  (aer_run : circuit -> result counts)
  (ibm_run : str -> circuit -> option counts)
  (self : cracker) (target_hash : str) (L : nat) (e : exn)
  (self' : cracker) :
  quantum_search_aer simple_hash libm_log2 aer_run ibm_run self target_hash L
  = (Raise e, self') ->
  backend self' = Some AerSimulator.
Proof. apply quantum_search_aer_raise. Qed.

Lemma quantum_search_aer_leaves_simulator_on_raise_witness :
  exists self',
    quantum_search_aer (fun s => s) log2_floor (fun _ => Raise ValueError)
      (fun _ _ => None)
      (mkCracker abcd 0 0 None
         (Some (IBMBackend (list_ascii_of_string "ibm_brisbane"))))
      (list_ascii_of_string "c") 1
    = (Raise ValueError, self')
    /\ backend self' = Some AerSimulator.
Proof.
  eexists. split.
  - reflexivity.
  - eapply (quantum_search_aer_leaves_simulator_on_raise (fun s => s) log2_floor
              (fun _ => Raise ValueError) (fun _ _ => None)
              (mkCracker abcd 0 0 None
                 (Some (IBMBackend (list_ascii_of_string "ibm_brisbane"))))
              (list_ascii_of_string "c") 1 ValueError).
    reflexivity.
Defined.

(** X25 : Whatever they return or raise, [quantum_search],
    [quantum_search_aer] and [quantum_search_ibm] leave [self.charset],
    [self.attempts] and [self.service] as they were. *)
Theorem search_drivers_frame (simple_hash : str -> str)
  (libm_log2 : double -> double)
  (aer_run : circuit -> result counts)
  (ibm_run : str -> circuit -> option counts)
  (self : cracker) (target_hash backend_name : str) (L : nat) :
  let unchanged := fun self' : cracker =>
    charset self' = charset self /\ attempts self' = attempts self
    /\ service self' = service self in
  unchanged (snd (quantum_search simple_hash libm_log2 aer_run ibm_run self
                    target_hash L))
  /\ unchanged (snd (quantum_search_aer simple_hash libm_log2 aer_run ibm_run
                       self target_hash L))
  /\ unchanged (snd (quantum_search_ibm simple_hash libm_log2 aer_run ibm_run
                       self target_hash L backend_name)).
Proof.
  cbv zeta. split; [|split].
  - apply quantum_search_frame.
  - unfold quantum_search_aer.
    pose proof (quantum_search_frame simple_hash libm_log2 aer_run ibm_run
                  (set_backend self (Some AerSimulator)) target_hash L)
      as Hf. cbv zeta in Hf.
    destruct (quantum_search _ _ _ _ _ _ _) as [[r|e] st];
      cbn [snd set_backend charset attempts service] in *; exact Hf.
  - unfold quantum_search_ibm. destruct (service self) eqn:Es;
      [|repeat split; exact Es].
    pose proof (quantum_search_frame simple_hash libm_log2 aer_run ibm_run
                  (set_backend self (Some (IBMBackend backend_name)))
                  target_hash L) as Hf. cbv zeta in Hf.
    destruct (quantum_search _ _ _ _ _ _ _) as [[r|e] st];
      cbn [snd set_backend charset attempts service] in *;
      rewrite <- Es; exact Hf.
Qed.
